(** * seHTTPd: request parser, header dispatch, response builder, driver

    A shallow embedding of the C sources of seHTTPd (http_parser.c,
    http_request.c, http.c, mainloop.c, http.h) and the properties of its
    specification that concern them.

    Conventions of the embedding.
    - A byte ([uint8_t], [char]) is an [ascii]; a C [int], [size_t] or
      [ptrdiff_t] is a [Z], with the wrap-around of the C type written out
      where the code can reach it.
    - A pointer into [r->buf] is the offset from [&r->buf[0]]; the buffer is
      a total function from offsets to bytes, the offsets outside
      [0 .. MAX_BUF-1] standing for the memory next to the array (what a
      stray pointer would read).  A pointer that the code tests against
      [NULL] is an [option].
    - The build defines [NDEBUG] (see [CFLAGS] in the Makefile), so every
      [assert] and every [debug] expands to nothing and has no counterpart
      here. *)

From Stdlib Require Import ZArith List Bool Lia String Ascii DecimalString.
Import ListNotations.
Local Open Scope string_scope.
Local Open Scope Z_scope.

(** ** Constants of http.h and errno.h *)

Definition HTTP_PARSER_INVALID_METHOD : Z := 10.
Definition HTTP_PARSER_INVALID_REQUEST : Z := 11.
Definition HTTP_PARSER_INVALID_HEADER : Z := 12.

Definition HTTP_UNKNOWN : Z := 1.
Definition HTTP_GET : Z := 2.
Definition HTTP_HEAD : Z := 4.
Definition HTTP_POST : Z := 8.

Definition HTTP_OK : Z := 200.
Definition HTTP_NOT_MODIFIED : Z := 304.
Definition HTTP_NOT_FOUND : Z := 404.

Definition MAX_BUF : Z := 8124.

(** [EAGAIN] of <errno.h> on Linux, the only platform of the server (it is
    built on epoll). *)
Definition EAGAIN : Z := 11.

Definition CR : ascii := "013"%char.
Definition LF : ascii := "010"%char.

(** ** Machine arithmetic *)

(** Value of a byte as an unsigned integer. *)
Definition u8 (c : ascii) : Z := Z.of_N (N_of_ascii c).

(** [size_t] is 64 bits wide: results of unsigned arithmetic wrap. *)
Definition size_wrap (z : Z) : Z := z mod 2 ^ 64.

(** [int] is 32 bits wide, two's complement. *)
Definition int_wrap (z : Z) : Z := (z + 2 ^ 31) mod 2 ^ 32 - 2 ^ 31.

(** Conversion of an [int] to [size_t]. *)
Definition size_of_int (z : Z) : Z := z mod 2 ^ 64.

(** Comparisons of bytes, as [ch < 'A'] compares them. *)
Definition ch_lt (a b : ascii) : bool := u8 a <? u8 b.
Definition ch_gt (a b : ascii) : bool := u8 b <? u8 a.
Definition ch_eq (a b : ascii) : bool := Ascii.eqb a b.

(** ** Data model (http.h) *)

Definition ptr : Type := Z.

Record http_header_t : Type := {
  key_start : ptr;
  key_end : ptr;
  value_start : ptr;
  value_end : ptr
}.

Record http_request_t : Type := {
  root : string;
  fd : Z;
  epfd : Z;
  buf : Z -> ascii;
  pos : Z;
  last : Z;
  state : Z;
  request_start : ptr;
  method : Z;
  uri_start : ptr;
  uri_end : ptr;
  http_major : Z;
  http_minor : Z;
  request_end : option ptr;
  hdr_list : list http_header_t;
  cur_header_key_start : ptr;
  cur_header_key_end : ptr;
  cur_header_value_start : ptr;
  cur_header_value_end : ptr;
  timer : option Z
}.

Record http_out_t : Type := {
  out_fd : Z;
  keep_alive : bool;
  mtime : Z;
  modified : bool;
  status : Z
}.

(** Assignments to the fields of a connection. *)

Definition set_buf (v : Z -> ascii) (r : http_request_t) : http_request_t :=
  {| root := root r; fd := fd r; epfd := epfd r; buf := v; pos := pos r;
     last := last r; state := state r; request_start := request_start r;
     method := method r; uri_start := uri_start r; uri_end := uri_end r;
     http_major := http_major r; http_minor := http_minor r;
     request_end := request_end r; hdr_list := hdr_list r;
     cur_header_key_start := cur_header_key_start r;
     cur_header_key_end := cur_header_key_end r;
     cur_header_value_start := cur_header_value_start r;
     cur_header_value_end := cur_header_value_end r; timer := timer r |}.

Definition set_pos (v : Z) (r : http_request_t) : http_request_t :=
  {| root := root r; fd := fd r; epfd := epfd r; buf := buf r; pos := v;
     last := last r; state := state r; request_start := request_start r;
     method := method r; uri_start := uri_start r; uri_end := uri_end r;
     http_major := http_major r; http_minor := http_minor r;
     request_end := request_end r; hdr_list := hdr_list r;
     cur_header_key_start := cur_header_key_start r;
     cur_header_key_end := cur_header_key_end r;
     cur_header_value_start := cur_header_value_start r;
     cur_header_value_end := cur_header_value_end r; timer := timer r |}.

Definition set_last (v : Z) (r : http_request_t) : http_request_t :=
  {| root := root r; fd := fd r; epfd := epfd r; buf := buf r; pos := pos r;
     last := v; state := state r; request_start := request_start r;
     method := method r; uri_start := uri_start r; uri_end := uri_end r;
     http_major := http_major r; http_minor := http_minor r;
     request_end := request_end r; hdr_list := hdr_list r;
     cur_header_key_start := cur_header_key_start r;
     cur_header_key_end := cur_header_key_end r;
     cur_header_value_start := cur_header_value_start r;
     cur_header_value_end := cur_header_value_end r; timer := timer r |}.

Definition set_state (v : Z) (r : http_request_t) : http_request_t :=
  {| root := root r; fd := fd r; epfd := epfd r; buf := buf r; pos := pos r;
     last := last r; state := v; request_start := request_start r;
     method := method r; uri_start := uri_start r; uri_end := uri_end r;
     http_major := http_major r; http_minor := http_minor r;
     request_end := request_end r; hdr_list := hdr_list r;
     cur_header_key_start := cur_header_key_start r;
     cur_header_key_end := cur_header_key_end r;
     cur_header_value_start := cur_header_value_start r;
     cur_header_value_end := cur_header_value_end r; timer := timer r |}.

Definition set_request_start (v : ptr) (r : http_request_t) : http_request_t :=
  {| root := root r; fd := fd r; epfd := epfd r; buf := buf r; pos := pos r;
     last := last r; state := state r; request_start := v;
     method := method r; uri_start := uri_start r; uri_end := uri_end r;
     http_major := http_major r; http_minor := http_minor r;
     request_end := request_end r; hdr_list := hdr_list r;
     cur_header_key_start := cur_header_key_start r;
     cur_header_key_end := cur_header_key_end r;
     cur_header_value_start := cur_header_value_start r;
     cur_header_value_end := cur_header_value_end r; timer := timer r |}.

Definition set_method (v : Z) (r : http_request_t) : http_request_t :=
  {| root := root r; fd := fd r; epfd := epfd r; buf := buf r; pos := pos r;
     last := last r; state := state r; request_start := request_start r;
     method := v; uri_start := uri_start r; uri_end := uri_end r;
     http_major := http_major r; http_minor := http_minor r;
     request_end := request_end r; hdr_list := hdr_list r;
     cur_header_key_start := cur_header_key_start r;
     cur_header_key_end := cur_header_key_end r;
     cur_header_value_start := cur_header_value_start r;
     cur_header_value_end := cur_header_value_end r; timer := timer r |}.

Definition set_uri_start (v : ptr) (r : http_request_t) : http_request_t :=
  {| root := root r; fd := fd r; epfd := epfd r; buf := buf r; pos := pos r;
     last := last r; state := state r; request_start := request_start r;
     method := method r; uri_start := v; uri_end := uri_end r;
     http_major := http_major r; http_minor := http_minor r;
     request_end := request_end r; hdr_list := hdr_list r;
     cur_header_key_start := cur_header_key_start r;
     cur_header_key_end := cur_header_key_end r;
     cur_header_value_start := cur_header_value_start r;
     cur_header_value_end := cur_header_value_end r; timer := timer r |}.

Definition set_uri_end (v : ptr) (r : http_request_t) : http_request_t :=
  {| root := root r; fd := fd r; epfd := epfd r; buf := buf r; pos := pos r;
     last := last r; state := state r; request_start := request_start r;
     method := method r; uri_start := uri_start r; uri_end := v;
     http_major := http_major r; http_minor := http_minor r;
     request_end := request_end r; hdr_list := hdr_list r;
     cur_header_key_start := cur_header_key_start r;
     cur_header_key_end := cur_header_key_end r;
     cur_header_value_start := cur_header_value_start r;
     cur_header_value_end := cur_header_value_end r; timer := timer r |}.

Definition set_http_major (v : Z) (r : http_request_t) : http_request_t :=
  {| root := root r; fd := fd r; epfd := epfd r; buf := buf r; pos := pos r;
     last := last r; state := state r; request_start := request_start r;
     method := method r; uri_start := uri_start r; uri_end := uri_end r;
     http_major := v; http_minor := http_minor r;
     request_end := request_end r; hdr_list := hdr_list r;
     cur_header_key_start := cur_header_key_start r;
     cur_header_key_end := cur_header_key_end r;
     cur_header_value_start := cur_header_value_start r;
     cur_header_value_end := cur_header_value_end r; timer := timer r |}.

Definition set_http_minor (v : Z) (r : http_request_t) : http_request_t :=
  {| root := root r; fd := fd r; epfd := epfd r; buf := buf r; pos := pos r;
     last := last r; state := state r; request_start := request_start r;
     method := method r; uri_start := uri_start r; uri_end := uri_end r;
     http_major := http_major r; http_minor := v;
     request_end := request_end r; hdr_list := hdr_list r;
     cur_header_key_start := cur_header_key_start r;
     cur_header_key_end := cur_header_key_end r;
     cur_header_value_start := cur_header_value_start r;
     cur_header_value_end := cur_header_value_end r; timer := timer r |}.

Definition set_request_end (v : option ptr) (r : http_request_t) : http_request_t :=
  {| root := root r; fd := fd r; epfd := epfd r; buf := buf r; pos := pos r;
     last := last r; state := state r; request_start := request_start r;
     method := method r; uri_start := uri_start r; uri_end := uri_end r;
     http_major := http_major r; http_minor := http_minor r;
     request_end := v; hdr_list := hdr_list r;
     cur_header_key_start := cur_header_key_start r;
     cur_header_key_end := cur_header_key_end r;
     cur_header_value_start := cur_header_value_start r;
     cur_header_value_end := cur_header_value_end r; timer := timer r |}.

Definition set_hdr_list (v : list http_header_t) (r : http_request_t) : http_request_t :=
  {| root := root r; fd := fd r; epfd := epfd r; buf := buf r; pos := pos r;
     last := last r; state := state r; request_start := request_start r;
     method := method r; uri_start := uri_start r; uri_end := uri_end r;
     http_major := http_major r; http_minor := http_minor r;
     request_end := request_end r; hdr_list := v;
     cur_header_key_start := cur_header_key_start r;
     cur_header_key_end := cur_header_key_end r;
     cur_header_value_start := cur_header_value_start r;
     cur_header_value_end := cur_header_value_end r; timer := timer r |}.

Definition set_cur_header_key_start (v : ptr) (r : http_request_t) : http_request_t :=
  {| root := root r; fd := fd r; epfd := epfd r; buf := buf r; pos := pos r;
     last := last r; state := state r; request_start := request_start r;
     method := method r; uri_start := uri_start r; uri_end := uri_end r;
     http_major := http_major r; http_minor := http_minor r;
     request_end := request_end r; hdr_list := hdr_list r;
     cur_header_key_start := v; cur_header_key_end := cur_header_key_end r;
     cur_header_value_start := cur_header_value_start r;
     cur_header_value_end := cur_header_value_end r; timer := timer r |}.

Definition set_cur_header_key_end (v : ptr) (r : http_request_t) : http_request_t :=
  {| root := root r; fd := fd r; epfd := epfd r; buf := buf r; pos := pos r;
     last := last r; state := state r; request_start := request_start r;
     method := method r; uri_start := uri_start r; uri_end := uri_end r;
     http_major := http_major r; http_minor := http_minor r;
     request_end := request_end r; hdr_list := hdr_list r;
     cur_header_key_start := cur_header_key_start r; cur_header_key_end := v;
     cur_header_value_start := cur_header_value_start r;
     cur_header_value_end := cur_header_value_end r; timer := timer r |}.

Definition set_cur_header_value_start (v : ptr) (r : http_request_t) : http_request_t :=
  {| root := root r; fd := fd r; epfd := epfd r; buf := buf r; pos := pos r;
     last := last r; state := state r; request_start := request_start r;
     method := method r; uri_start := uri_start r; uri_end := uri_end r;
     http_major := http_major r; http_minor := http_minor r;
     request_end := request_end r; hdr_list := hdr_list r;
     cur_header_key_start := cur_header_key_start r;
     cur_header_key_end := cur_header_key_end r; cur_header_value_start := v;
     cur_header_value_end := cur_header_value_end r; timer := timer r |}.

Definition set_cur_header_value_end (v : ptr) (r : http_request_t) : http_request_t :=
  {| root := root r; fd := fd r; epfd := epfd r; buf := buf r; pos := pos r;
     last := last r; state := state r; request_start := request_start r;
     method := method r; uri_start := uri_start r; uri_end := uri_end r;
     http_major := http_major r; http_minor := http_minor r;
     request_end := request_end r; hdr_list := hdr_list r;
     cur_header_key_start := cur_header_key_start r;
     cur_header_key_end := cur_header_key_end r;
     cur_header_value_start := cur_header_value_start r;
     cur_header_value_end := v; timer := timer r |}.


(** The field [hdr_list] is the member [list] of the C struct and [out_fd]
    the member [fd] of [http_out_t]: the C names are taken in Rocq. *)

(** [init_http_request]: the fields it does not assign keep the values the
    fresh allocation [r0] happens to hold. *)
Definition init_http_request (r0 : http_request_t) (fd0 epfd0 : Z)
    (root0 : string) : http_request_t :=
  {| root := root0; fd := fd0; epfd := epfd0; buf := buf r0; pos := 0;
     last := 0; state := 0; request_start := request_start r0;
     method := method r0; uri_start := uri_start r0; uri_end := uri_end r0;
     http_major := http_major r0; http_minor := http_minor r0;
     request_end := request_end r0; hdr_list := [];
     cur_header_key_start := cur_header_key_start r0;
     cur_header_key_end := cur_header_key_end r0;
     cur_header_value_start := cur_header_value_start r0;
     cur_header_value_end := cur_header_value_end r0; timer := timer r0 |}.

(** ** http_parser.c *)

(** [*(uint32_t * ) m], a little-endian load of four bytes. *)
Definition load_u32 (mem : Z -> ascii) (m : ptr) : Z :=
  Z.lor (Z.shiftl (u8 (mem (m + 3))) 24)
    (Z.lor (Z.shiftl (u8 (mem (m + 2))) 16)
       (Z.lor (Z.shiftl (u8 (mem (m + 1))) 8) (u8 (mem m)))).

(** The macro [cst_strcmp(m, c0, c1, c2, c3)]. *)
Definition cst_strcmp (mem : Z -> ascii) (m : ptr) (c0 c1 c2 c3 : ascii)
    : bool :=
  load_u32 mem m =?
  Z.lor (Z.shiftl (u8 c3) 24)
    (Z.lor (Z.shiftl (u8 c2) 16) (Z.lor (Z.shiftl (u8 c1) 8) (u8 c0))).

(** The three ways a parser leaves its loop: the input ran out, [goto done],
    or a [return] of an error code from inside the [switch]. *)
Inductive outcome : Type :=
| Again
| Done
| Failed (code : Z).

(** The value the C function returns. *)
Definition retcode (o : outcome) : Z :=
  match o with
  | Again => EAGAIN
  | Done => 0
  | Failed code => code
  end.

(** What one pass through the [switch] does to the control flow. *)
Inductive flow (S : Type) : Type :=
| Break (s : S) (r : http_request_t)
| GotoDone (r : http_request_t)
| Return (code : Z) (r : http_request_t).

Arguments Break {S} s r.
Arguments GotoDone {S} r.
Arguments Return {S} code r.

(** How the [for] loop of a parser is left, with the local variables
    [state], [pi] and [p] the code after the loop uses. *)
Inductive loop_exit : Type :=
| Exhausted (st : Z) (pi : Z) (r : http_request_t)
| JumpDone (pi : Z) (p : ptr) (r : http_request_t)
| Returned (code : Z) (r : http_request_t).

Section ParseLoop.

(** The two parsers share the shape of their loop,
    [for (pi = r->pos; pi < r->last; pi++) { p = &r->buf[pi % MAX_BUF];
    ch = *p; switch (state) ... }], and differ in the enumeration of the
    states and in the [switch]. *)
Context {St : Type}.
Variable of_int : Z -> option St.
Variable to_int : St -> Z.
Variable step : St -> http_request_t -> ptr -> ascii -> flow St.

(** The loop with [n] bytes left between [pi] and [r->last]; [st] is the
    local variable [state].  A value of [state] that is no enumerator
    selects no case of the [switch]. *)
Fixpoint for_loop (n : nat) (st : Z) (pi : Z) (r : http_request_t)
    : loop_exit :=
  match n with
  | O => Exhausted st pi r
  | S n' =>
      let p := pi mod MAX_BUF in
      let ch := buf r p in
      match of_int st with
      | None => for_loop n' st (pi + 1) r
      | Some s =>
          match step s r p ch with
          | Break s' r' => for_loop n' (to_int s') (pi + 1) r'
          | GotoDone r' => JumpDone pi p r'
          | Return code r' => Returned code r'
          end
      end
  end.

End ParseLoop.

Module RequestLine.

Inductive state_t : Type :=
| s_start
| s_method
| s_spaces_before_uri
| s_after_slash_in_uri
| s_http
| s_http_H
| s_http_HT
| s_http_HTT
| s_http_HTTP
| s_first_major_digit
| s_major_digit
| s_first_minor_digit
| s_minor_digit
| s_spaces_after_digit
| s_almost_done.

Definition to_int (s : state_t) : Z :=
  match s with
  | s_start => 0
  | s_method => 1
  | s_spaces_before_uri => 2
  | s_after_slash_in_uri => 3
  | s_http => 4
  | s_http_H => 5
  | s_http_HT => 6
  | s_http_HTT => 7
  | s_http_HTTP => 8
  | s_first_major_digit => 9
  | s_major_digit => 10
  | s_first_minor_digit => 11
  | s_minor_digit => 12
  | s_spaces_after_digit => 13
  | s_almost_done => 14
  end.

Definition all_states : list state_t :=
  [s_start; s_method; s_spaces_before_uri; s_after_slash_in_uri; s_http;
   s_http_H; s_http_HT; s_http_HTT; s_http_HTTP; s_first_major_digit;
   s_major_digit; s_first_minor_digit; s_minor_digit; s_spaces_after_digit;
   s_almost_done].

(** The enumerator an [int] stands for, if any: the [switch] has no
    [default], so for any other value no case is taken. *)
Definition of_int (z : Z) : option state_t :=
  find (fun s => to_int s =? z) all_states.

(** The inner [switch (p - m)] of [s_method]. *)
Definition classify_method (r : http_request_t) (p : ptr) : http_request_t :=
  let m := request_start r in
  if p - m =? 3 then
    if cst_strcmp (buf r) m "G" "E" "T" " " then set_method HTTP_GET r
    else r
  else if p - m =? 4 then
    if cst_strcmp (buf r) m "P" "O" "S" "T" then set_method HTTP_POST r
    else if cst_strcmp (buf r) m "H" "E" "A" "D" then set_method HTTP_HEAD r
    else r
  else set_method HTTP_UNKNOWN r.

Definition not_method_char (ch : ascii) : bool :=
  (ch_lt ch "A" || ch_gt ch "Z") && negb (ch_eq ch "_").

Definition not_digit (ch : ascii) : bool := ch_lt ch "0" || ch_gt ch "9".

(** The body of the [for] loop: the [switch (state)] on byte [ch] at [p]. *)
Definition step (st : state_t) (r : http_request_t) (p : ptr) (ch : ascii)
    : flow state_t :=
  match st with
  | s_start =>
      let r := set_request_start p r in
      if ch_eq ch CR || ch_eq ch LF then Break s_start r
      else if not_method_char ch then Return HTTP_PARSER_INVALID_METHOD r
      else Break s_method r
  | s_method =>
      if ch_eq ch " " then Break s_spaces_before_uri (classify_method r p)
      else if not_method_char ch then Return HTTP_PARSER_INVALID_METHOD r
      else Break s_method r
  | s_spaces_before_uri =>
      if ch_eq ch "/" then Break s_after_slash_in_uri (set_uri_start p r)
      else if ch_eq ch " " then Break s_spaces_before_uri r
      else Return HTTP_PARSER_INVALID_REQUEST r
  | s_after_slash_in_uri =>
      if ch_eq ch " " then Break s_http (set_uri_end p r)
      else Break s_after_slash_in_uri r
  | s_http =>
      if ch_eq ch " " then Break s_http r
      else if ch_eq ch "H" then Break s_http_H r
      else Return HTTP_PARSER_INVALID_REQUEST r
  | s_http_H =>
      if ch_eq ch "T" then Break s_http_HT r
      else Return HTTP_PARSER_INVALID_REQUEST r
  | s_http_HT =>
      if ch_eq ch "T" then Break s_http_HTT r
      else Return HTTP_PARSER_INVALID_REQUEST r
  | s_http_HTT =>
      if ch_eq ch "P" then Break s_http_HTTP r
      else Return HTTP_PARSER_INVALID_REQUEST r
  | s_http_HTTP =>
      if ch_eq ch "/" then Break s_first_major_digit r
      else Return HTTP_PARSER_INVALID_REQUEST r
  | s_first_major_digit =>
      if ch_lt ch "1" || ch_gt ch "9" then Return HTTP_PARSER_INVALID_REQUEST r
      else Break s_major_digit (set_http_major (u8 ch - u8 "0") r)
  | s_major_digit =>
      if ch_eq ch "." then Break s_first_minor_digit r
      else if not_digit ch then Return HTTP_PARSER_INVALID_REQUEST r
      else
        Break s_major_digit
          (set_http_major
             (int_wrap (int_wrap (http_major r * 10 + u8 ch) - u8 "0")) r)
  | s_first_minor_digit =>
      if not_digit ch then Return HTTP_PARSER_INVALID_REQUEST r
      else Break s_minor_digit (set_http_minor (u8 ch - u8 "0") r)
  | s_minor_digit =>
      if ch_eq ch CR then Break s_almost_done r
      else if ch_eq ch LF then GotoDone r
      else if ch_eq ch " " then Break s_spaces_after_digit r
      else if not_digit ch then Return HTTP_PARSER_INVALID_REQUEST r
      else
        Break s_minor_digit
          (set_http_minor
             (int_wrap (int_wrap (http_minor r * 10 + u8 ch) - u8 "0")) r)
  | s_spaces_after_digit =>
      if ch_eq ch " " then Break s_spaces_after_digit r
      else if ch_eq ch CR then Break s_almost_done r
      else if ch_eq ch LF then GotoDone r
      else Return HTTP_PARSER_INVALID_REQUEST r
  | s_almost_done =>
      let r := set_request_end (Some (p - 1)) r in
      if ch_eq ch LF then GotoDone r
      else Return HTTP_PARSER_INVALID_REQUEST r
  end.

(** The label [done]. *)
Definition done (r : http_request_t) (pi : Z) (p : ptr) : http_request_t :=
  let r := set_pos (pi + 1) r in
  let r :=
    match request_end r with
    | None => set_request_end (Some p) r
    | Some _ => r
    end in
  set_state (to_int s_start) r.

(** The function from its first statement to each of its [return]s: the
    loop, then [r->pos = pi; r->state = state; return EAGAIN], or the code
    at [done], or the [return] taken inside the [switch]. *)
Definition run (r : http_request_t) : outcome * http_request_t :=
  match
    for_loop of_int to_int step (Z.to_nat (last r - pos r)) (state r) (pos r) r
  with
  | Exhausted st pi r' => (Again, set_state st (set_pos pi r'))
  | JumpDone pi p r' => (Done, done r' pi p)
  | Returned code r' => (Failed code, r')
  end.

End RequestLine.

Definition http_parse_request_line (r : http_request_t)
    : Z * http_request_t :=
  let (o, r') := RequestLine.run r in (retcode o, r').

Module RequestBody.

Inductive state_t : Type :=
| s_start
| s_key
| s_spaces_before_colon
| s_spaces_after_colon
| s_value
| s_cr
| s_crlf
| s_crlfcr.

Definition to_int (s : state_t) : Z :=
  match s with
  | s_start => 0
  | s_key => 1
  | s_spaces_before_colon => 2
  | s_spaces_after_colon => 3
  | s_value => 4
  | s_cr => 5
  | s_crlf => 6
  | s_crlfcr => 7
  end.

Definition all_states : list state_t :=
  [s_start; s_key; s_spaces_before_colon; s_spaces_after_colon; s_value;
   s_cr; s_crlf; s_crlfcr].

Definition of_int (z : Z) : option state_t :=
  find (fun s => to_int s =? z) all_states.

(** The header saved in [s_cr]: [malloc], four assignments, [list_add]
    (insertion right after the list head, that is at the front). *)
Definition save_header (r : http_request_t) : http_request_t :=
  let hd :=
    {| key_start := cur_header_key_start r;
       key_end := cur_header_key_end r;
       value_start := cur_header_value_start r;
       value_end := cur_header_value_end r |} in
  set_hdr_list (hd :: hdr_list r) r.

Definition step (st : state_t) (r : http_request_t) (p : ptr) (ch : ascii)
    : flow state_t :=
  match st with
  | s_start =>
      if ch_eq ch CR || ch_eq ch LF then Break s_start r
      else Break s_key (set_cur_header_key_start p r)
  | s_key =>
      if ch_eq ch " " then
        Break s_spaces_before_colon (set_cur_header_key_end p r)
      else if ch_eq ch ":" then
        Break s_spaces_after_colon (set_cur_header_key_end p r)
      else Break s_key r
  | s_spaces_before_colon =>
      if ch_eq ch " " then Break s_spaces_before_colon r
      else if ch_eq ch ":" then Break s_spaces_after_colon r
      else Return HTTP_PARSER_INVALID_HEADER r
  | s_spaces_after_colon =>
      if ch_eq ch " " then Break s_spaces_after_colon r
      else Break s_value (set_cur_header_value_start p r)
  | s_value =>
      if ch_eq ch CR then Break s_cr (set_cur_header_value_end p r)
      else if ch_eq ch LF then Break s_crlf (set_cur_header_value_end p r)
      else Break s_value r
  | s_cr =>
      if ch_eq ch LF then Break s_crlf (save_header r)
      else Return HTTP_PARSER_INVALID_HEADER r
  | s_crlf =>
      if ch_eq ch CR then Break s_crlfcr r
      else Break s_key (set_cur_header_key_start p r)
  | s_crlfcr =>
      if ch_eq ch LF then GotoDone r
      else Return HTTP_PARSER_INVALID_HEADER r
  end.

Definition done (r : http_request_t) (pi : Z) : http_request_t :=
  set_state (to_int s_start) (set_pos (pi + 1) r).

Definition run (r : http_request_t) : outcome * http_request_t :=
  match
    for_loop of_int to_int step (Z.to_nat (last r - pos r)) (state r) (pos r) r
  with
  | Exhausted st pi r' => (Again, set_state st (set_pos pi r'))
  | JumpDone pi _ r' => (Done, done r' pi)
  | Returned code r' => (Failed code, r')
  end.

End RequestBody.

Definition http_parse_request_body (r : http_request_t)
    : Z * http_request_t :=
  let (o, r') := RequestBody.run r in (retcode o, r').

(** ** Connections for examples *)

(** A block of memory as [malloc] could return it, here all zero. *)
Definition blank : http_request_t :=
  {| root := ""; fd := 0; epfd := 0; buf := fun _ => zero; pos := 0;
     last := 0; state := 0; request_start := 0; method := 0; uri_start := 0;
     uri_end := 0; http_major := 0; http_minor := 0; request_end := None;
     hdr_list := []; cur_header_key_start := 0; cur_header_key_end := 0;
     cur_header_value_start := 0; cur_header_value_end := 0;
     timer := None |}.

(** Memory holding the bytes of [s] from offset [0] on, zero elsewhere. *)
Definition mem_of_string (s : string) : Z -> ascii :=
  fun i => if i <? 0 then zero else nth (Z.to_nat i) (list_ascii_of_string s) zero.

(** A fresh connection whose buffer has received the bytes of [s]. *)
Definition conn_of_string (s : string) : http_request_t :=
  set_last (Z.of_nat (String.length s))
    (set_buf (mem_of_string s) (init_http_request blank 5 3 "./www")).

Definition CRLF : string := String CR (String LF EmptyString).

(** ** C strings *)

(** [tolower] in the C locale (the server never calls [setlocale]). *)
Definition tolower (c : ascii) : ascii :=
  if (u8 "A" <=? u8 c) && (u8 c <=? u8 "Z") then
    ascii_of_N (Z.to_N (u8 c + 32))
  else c.

(** Comparison of the C string at [p] in memory with the C string [lit]
    (a literal, its terminating NUL implied), over at most [n] bytes and
    after mapping each byte through [fold]: the difference of the first pair
    of bytes that differ, [0] when there is none before [n] bytes or the
    common NUL. *)
Fixpoint strn_cmp (fold : ascii -> ascii) (mem : Z -> ascii) (p : ptr)
    (lit : string) (n : Z) : Z :=
  if n <=? 0 then 0
  else
    match lit with
    | EmptyString => u8 (fold (mem p))
    | String c lit' =>
        if ch_eq (fold (mem p)) (fold c) then
          strn_cmp fold mem (p + 1) lit' (n - 1)
        else u8 (fold (mem p)) - u8 (fold c)
    end.

(** [strncmp(p, lit, n)]. *)
Definition strncmp (mem : Z -> ascii) (p : ptr) (lit : string) (n : Z) : Z :=
  strn_cmp (fun c => c) mem p lit n.

(** [strncasecmp(lit, p, n)]. *)
Definition strncasecmp (lit : string) (mem : Z -> ascii) (p : ptr) (n : Z)
    : Z :=
  - strn_cmp tolower mem p lit n.

(** ** http_request.c *)

Definition handler_t : Type :=
  http_request_t -> http_out_t -> ptr -> Z -> Z * http_out_t.

Record http_header_handle_t : Type := {
  name : string;
  handler : handler_t
}.

Definition set_keep_alive (v : bool) (o : http_out_t) : http_out_t :=
  {| out_fd := out_fd o; keep_alive := v; mtime := mtime o;
     modified := modified o; status := status o |}.

Definition set_mtime (v : Z) (o : http_out_t) : http_out_t :=
  {| out_fd := out_fd o; keep_alive := keep_alive o; mtime := v;
     modified := modified o; status := status o |}.

Definition set_modified (v : bool) (o : http_out_t) : http_out_t :=
  {| out_fd := out_fd o; keep_alive := keep_alive o; mtime := mtime o;
     modified := v; status := status o |}.

Definition set_status (v : Z) (o : http_out_t) : http_out_t :=
  {| out_fd := out_fd o; keep_alive := keep_alive o; mtime := mtime o;
     modified := modified o; status := v |}.

Definition http_process_ignore : handler_t :=
  fun _ out _ _ => (0, out).

Definition http_process_connection : handler_t :=
  fun r out data len =>
    if strncasecmp "keep-alive" (buf r) data (size_of_int len) =? 0 then
      (0, set_keep_alive true out)
    else (0, out).

Section Dispatch.

(** The C library's part of the [If-Modified-Since] handler:
    [strptime(data, "%a, %d %b %Y %H:%M:%S GMT", &tm)] followed by
    [mktime(&tm)], as the calendar time of the C string at [data]; [None]
    when [strptime] returns a null pointer. *)
Variable strptime_mktime : (Z -> ascii) -> ptr -> option Z.

(** [difftime] of two calendar times is the double nearest to their
    difference, which lies within [1e-6] of zero exactly when the times are
    equal. *)
Definition http_process_if_modified_since : handler_t :=
  fun r out data _ =>
    match strptime_mktime (buf r) data with
    | None => (0, out)
    | Some client_time =>
        if mtime out =? client_time then
          (0, set_status HTTP_NOT_MODIFIED (set_modified false out))
        else (0, out)
    end.

Definition http_headers_in : list http_header_handle_t :=
  [ {| name := "Host"; handler := http_process_ignore |};
    {| name := "Connection"; handler := http_process_connection |};
    {| name := "If-Modified-Since";
       handler := http_process_if_modified_since |};
    {| name := ""; handler := http_process_ignore |} ].

(** The inner [for] of [http_handle_header]: the handler of the first
    table entry, before the entry with the empty name, whose name [strncmp]
    finds equal to the key over [key_end - key_start] bytes. *)
Fixpoint find_handler (table : list http_header_handle_t) (mem : Z -> ascii)
    (header : http_header_t) : option handler_t :=
  match table with
  | [] => None
  | header_in :: table' =>
      if Z.of_nat (String.length (name header_in)) >? 0 then
        if strncmp mem (key_start header) (name header_in)
             (size_wrap (key_end header - key_start header)) =? 0
        then Some (handler header_in)
        else find_handler table' mem header
      else None
  end.

(** One turn of [list_for_each_safe]: dispatch, then [list_del] and [free];
    the list of [r] still holds the header while its handler runs. *)
Definition handle_one (r : http_request_t) (o : http_out_t)
    (header : http_header_t) : http_out_t :=
  match find_handler http_headers_in (buf r) header with
  | Some h =>
      let len := int_wrap (value_end header - value_start header) in
      snd (h r o (value_start header) len)
  | None => o
  end.

Fixpoint handle_all (hs : list http_header_t) (r : http_request_t)
    (o : http_out_t) : http_out_t :=
  match hs with
  | [] => o
  | header :: hs' =>
      handle_all hs' r (handle_one (set_hdr_list hs r) o header)
  end.

Definition http_handle_header (r : http_request_t) (o : http_out_t)
    : http_request_t * http_out_t :=
  (set_hdr_list [] r, handle_all (hdr_list r) r o).

End Dispatch.

(** ** http.c *)

Definition MAXLINE : Z := 8192.
Definition SHORTLINE : Z := 512.
Definition TIMEOUT_DEFAULT : Z := 500.

Definition NL : string := String LF EmptyString.

Definition MIN (a b : Z) : Z := if a <? b then a else b.

(** [sprintf] with [%d] and [%zu]. *)
Definition dec (z : Z) : string :=
  DecimalString.NilZero.string_of_int (Z.to_int z).

(** The C string at [p]: the bytes before the first NUL, which the caller
    knows to lie within [n] bytes. *)
Fixpoint c_string (mem : Z -> ascii) (p : ptr) (n : nat) : string :=
  match n with
  | O => EmptyString
  | S n' =>
      if ch_eq (mem p) zero then EmptyString
      else String (mem p) (c_string mem (p + 1) n')
  end.

Definition store (mem : Z -> ascii) (p : ptr) (c : ascii) : Z -> ascii :=
  fun i => if i =? p then c else mem i.

(** [strchr(s, c)] as the index of the first [c]. *)
Fixpoint strchr (s : string) (c : ascii) : option nat :=
  match s with
  | EmptyString => None
  | String a s' =>
      if ch_eq a c then Some O
      else match strchr s' c with Some i => Some (S i) | None => None end
  end.

(** [strrchr(s, c)] as the suffix of [s] that starts at the last [c]. *)
Fixpoint strrchr (s : string) (c : ascii) : option string :=
  match s with
  | EmptyString => None
  | String a s' =>
      match strrchr s' c with
      | Some t => Some t
      | None => if ch_eq a c then Some s else None
      end
  end.

(** [s[strlen(s) - 1]] of a string that is not empty. *)
Fixpoint last_char (s : string) : ascii :=
  match s with
  | EmptyString => zero
  | String a EmptyString => a
  | String _ s' => last_char s'
  end.

Inductive uri_result : Type :=
| UriTooLong
| Resolved (filename : string)
| Undefined.

(** [parse_uri(uri, uri_length, filename)] with the file-scope [webroot].
    The result is the memory after the store of the NUL and what became of
    [filename]: left untouched after "uri too long", or written.
    [Undefined] stands for the executions C gives no meaning to or that are
    not modelled: [strrchr] on the null [last_comp], a path that does not
    fit [filename[SHORTLINE]], a negative [uri_length]. *)
Definition parse_uri (webroot : string) (mem : Z -> ascii) (uri : ptr)
    (uri_length : Z) : (Z -> ascii) * uri_result :=
  let mem := store mem (uri + uri_length) zero in
  if uri_length <? 0 then (mem, Undefined)
  else
    let s := c_string mem uri (Z.to_nat uri_length) in
    let file_length :=
      match strchr s "?" with
      | Some i => Z.of_nat i
      | None => uri_length
      end in
    if uri_length >? Z.shiftr SHORTLINE 1 then (mem, UriTooLong)
    else
      let filename := (webroot ++ substring 0 (Z.to_nat file_length) s) in
      match strrchr filename "/" with
      | None => (mem, Undefined)
      | Some last_comp =>
          let filename :=
            match strrchr last_comp "." with
            | None =>
                if negb (ch_eq (last_char filename) "/") then
                  (filename ++ "/")
                else filename
            | Some _ => filename
            end in
          let filename :=
            if ch_eq (last_char filename) "/" then
              (filename ++ "index.html")
            else filename in
          if Z.of_nat (String.length filename) <? SHORTLINE then
            (mem, Resolved filename)
          else (mem, Undefined)
      end.

Record mime_type_t : Type := {
  type : option string;
  value : string
}.

Definition mime : list mime_type_t :=
  [ {| type := Some ".html"; value := "text/html" |};
    {| type := Some ".xml"; value := "text/xml" |};
    {| type := Some ".xhtml"; value := "application/xhtml+xml" |};
    {| type := Some ".txt"; value := "text/plain" |};
    {| type := Some ".pdf"; value := "application/pdf" |};
    {| type := Some ".png"; value := "image/png" |};
    {| type := Some ".gif"; value := "image/gif" |};
    {| type := Some ".jpg"; value := "image/jpeg" |};
    {| type := Some ".css"; value := "text/css" |};
    {| type := None; value := "text/plain" |} ].

Fixpoint get_file_type_from (table : list mime_type_t) (t : string)
    : string :=
  match table with
  | [] => EmptyString
  | e :: table' =>
      match type e with
      | None => value e
      | Some t' =>
          if String.eqb t t' then value e else get_file_type_from table' t
      end
  end.

Definition get_file_type (t : option string) : string :=
  match t with
  | None => "text/plain"
  | Some t => get_file_type_from mime t
  end.

Definition get_msg_from_status (status_code : Z) : string :=
  if status_code =? HTTP_OK then "OK"
  else if status_code =? HTTP_NOT_MODIFIED then "Not Modified"
  else if status_code =? HTTP_NOT_FOUND then "Not Found"
  else "Unknown".

(** The bytes [do_error] writes: the header, then the body. *)
Definition do_error (cause errnum shortmsg longmsg : string) : string :=
  let body :=
    ("<html><title>Server Error</title><body>" ++ NL ++ errnum ++ ": "
     ++ shortmsg ++ NL ++ "<p>" ++ longmsg ++ ": " ++ cause ++ NL
     ++ "</p><hr><em>web server</em>" ++ NL ++ "</body></html>") in
  let header :=
    ("HTTP/1.1 " ++ errnum ++ " " ++ shortmsg ++ CRLF
     ++ "Server: seHTTPd" ++ CRLF
     ++ "Content-type: text/html" ++ CRLF
     ++ "Connection: close" ++ CRLF
     ++ "Content-length: " ++ dec (Z.of_nat (String.length body))
     ++ CRLF ++ CRLF) in
  (header ++ body).

Definition init_http_out (o : http_out_t) (fd0 : Z) : http_out_t :=
  {| out_fd := fd0; keep_alive := false; mtime := mtime o; modified := true;
     status := 0 |}.

Section Server.

Variable strptime_mktime : (Z -> ascii) -> ptr -> option Z.

(** [localtime_r] followed by [strftime(buf, SHORTLINE,
    "%a, %d %b %Y %H:%M:%S GMT", &tm)]: the text left in [buf]. *)
Variable strftime_local : Z -> string.

(** The header block [serve_static] builds in [header]; every [sprintf]
    appends at [header + offset]. *)
Definition serve_static_header (filename : string) (filesize : Z)
    (out : http_out_t) : string :=
  let dot_pos := strrchr filename "." in
  let file_type := get_file_type dot_pos in
  let header :=
    ("HTTP/1.1 " ++ dec (status out) ++ " "
     ++ get_msg_from_status (status out) ++ CRLF) in
  let header :=
    if keep_alive out then
      ((header ++ "Connection: keep-alive" ++ CRLF)
       ++ "Keep-Alive: timeout=" ++ dec TIMEOUT_DEFAULT ++ CRLF)
    else header in
  let header :=
    if modified out then
      (((header ++ "Content-type: " ++ file_type ++ CRLF)
        ++ "Content-length: " ++ dec filesize ++ CRLF)
       ++ "Last-Modified: " ++ strftime_local (mtime out) ++ CRLF)
    else header in
  (header ++ "Server: seHTTPd" ++ CRLF ++ CRLF).

(** The bytes [serve_static] writes when every [write] succeeds: the header
    block and, unless the answer is 304, the [filesize] bytes mapped from the
    file. *)
Definition serve_static (contents : string) (filename : string)
    (filesize : Z) (out : http_out_t) : string :=
  let header := serve_static_header filename filesize out in
  if negb (modified out) then header
  else (header ++ substring 0 (Z.to_nat filesize) contents).

End Server.

(** *** The connection driver [do_request] *)

(** What a [read] on the socket meets: bytes ready to be read, the end of
    the stream, or an error with its [errno]. *)
Inductive sock_read : Type :=
| SockData (avail : list ascii)
| SockEOF
| SockErr (errno : Z).

(** The part of [struct stat] the driver looks at: [S_ISREG(st_mode)],
    [S_IRUSR & st_mode], [st_size], [st_mtime]. *)
Record stat_t : Type := {
  st_isreg : bool;
  st_irusr : bool;
  st_size : Z;
  st_mtime : Z
}.

(** [remain_size], in the arithmetic of [size_t]. *)
Definition remain_size (r : http_request_t) : Z :=
  MIN (size_wrap (size_wrap (MAX_BUF - size_wrap (last r - pos r)) - 1))
      (size_wrap (MAX_BUF - last r mod MAX_BUF)).

(** Memory after [read] has stored [data] at [p]. *)
Definition store_bytes (mem : Z -> ascii) (p : ptr) (data : list ascii)
    : Z -> ascii :=
  fun i =>
    if (p <=? i) && (i <? p + Z.of_nat (List.length data)) then
      nth (Z.to_nat (i - p)) data zero
    else mem i.

(** The [read] of an iteration and [r->last += n]: the kernel hands over at
    most [remain_size] of the bytes ready. *)
Definition read_into (r : http_request_t) (avail : list ascii)
    : Z * http_request_t :=
  let plast := last r mod MAX_BUF in
  let data := firstn (Z.to_nat (remain_size r)) avail in
  let n := Z.of_nat (List.length data) in
  (n, set_last (size_wrap (last r + n))
        (set_buf (store_bytes (buf r) plast data) r)).

(** How one iteration of the [for (;;)] ends. *)
Inductive iter_result : Type :=
| Close (sent : string)
| Rearm
| Continue (r : http_request_t) (filename : string) (sent : string)
| Stuck.

Section Driver.

Variable strptime_mktime : (Z -> ascii) -> ptr -> option Z.
Variable strftime_local : Z -> string.

(** The file system: [stat(filename, &sbuf)], [None] when it fails, and the
    bytes [mmap] maps from the file. *)
Variable stat : string -> option stat_t.
Variable contents : string -> string.

(** One iteration of the loop of [do_request].  [filename] is the local
    array, which lives across iterations; [o0] is the block [malloc] returns
    for [out]; [rd] is what the [read] meets; [sent] in the result is what
    the iteration writes to the socket.  The timer calls ([del_timer],
    [add_timer]) are outside the loop. *)
Definition do_request_iter (r : http_request_t) (filename : string)
    (o0 : http_out_t) (rd : sock_read) : iter_result :=
  match rd with
  | SockEOF => Close ""
  | SockErr errno => if negb (errno =? EAGAIN) then Close "" else Rearm
  | SockData avail =>
      let (n, r) := read_into r avail in
      if n =? 0 then Close ""
      else
        let (rc, r) := http_parse_request_line r in
        if rc =? EAGAIN then Continue r filename ""
        else if negb (rc =? 0) then Close ""
        else
          let (rc, r) := http_parse_request_body r in
          if rc =? EAGAIN then Continue r filename ""
          else if negb (rc =? 0) then Close ""
          else
            let out := init_http_out o0 (fd r) in
            let (mem, res) :=
              parse_uri (root r) (buf r) (uri_start r)
                (int_wrap (uri_end r - uri_start r)) in
            let r := set_buf mem r in
            let written :=
              match res with
              | UriTooLong => Some filename
              | Resolved f => Some f
              | Undefined => None
              end in
            match written with
            | None => Stuck
            | Some filename =>
                match stat filename with
                | None =>
                    Continue r filename
                      (do_error filename "404" "Not Found"
                         "Can't find the file")
                | Some sbuf =>
                    if negb (st_isreg sbuf) || negb (st_irusr sbuf) then
                      Continue r filename
                        (do_error filename "403" "Forbidden"
                           "Can't read the file")
                    else
                      let out := set_mtime (st_mtime sbuf) out in
                      let (r, out) :=
                        http_handle_header strptime_mktime r out in
                      let out :=
                        if status out =? 0 then set_status HTTP_OK out
                        else out in
                      let sent :=
                        serve_static strftime_local (contents filename)
                          filename (st_size sbuf) out in
                      if negb (keep_alive out) then Close sent
                      else Continue r filename sent
                end
            end
  end.

(** The connections the driver can hold at the top of its loop: a
    connection as [init_http_request] leaves it, and whatever an iteration
    that ends in [continue] makes of one. *)
Inductive driver_reaches : http_request_t -> Prop :=
| reach_init : forall r0 fd0 epfd0 root0,
    driver_reaches (init_http_request r0 fd0 epfd0 root0)
| reach_iter : forall r filename o0 rd r' filename' sent,
    driver_reaches r ->
    do_request_iter r filename o0 rd = Continue r' filename' sent ->
    driver_reaches r'.

End Driver.

(** ** mainloop.c *)

Definition DEFAULT_PORT : Z := 8081.
Definition DEFAULT_WEBROOT : string := "./www".
Definition EXIT_FAILURE : Z := 1.
Definition LONG_MAX : Z := 2 ^ 63 - 1.
Definition LONG_MIN : Z := - 2 ^ 63.

Record runtime_conf : Type := {
  port : Z;
  web_root : string
}.

Definition is_space (c : ascii) : bool :=
  ch_eq c " " || ((9 <=? u8 c) && (u8 c <=? 13)).

Definition is_digit (c : ascii) : bool := (u8 "0" <=? u8 c) && (u8 c <=? u8 "9").

Fixpoint skip_spaces (s : string) : string :=
  match s with
  | String c s' => if is_space c then skip_spaces s' else s
  | EmptyString => s
  end.

(** Value of the leading decimal digits of [s], with their number. *)
Fixpoint digits (s : string) (acc : Z) (count : nat) : Z * nat :=
  match s with
  | String c s' =>
      if is_digit c then digits s' (acc * 10 + (u8 c - u8 "0")) (S count)
      else (acc, count)
  | EmptyString => (acc, count)
  end.

(** [strtol(s, &endptr, 10)]: the value returned, whether [endptr] moved
    off [s], and whether [errno] was set to [ERANGE]. *)
Definition strtol (s : string) : Z * bool * bool :=
  let s := skip_spaces s in
  let (neg, s) :=
    match s with
    | String "-" s' => (true, s')
    | String "+" s' => (false, s')
    | _ => (false, s)
    end in
  let (v, count) := digits s 0 O in
  let v := if neg then - v else v in
  let moved := negb (Nat.eqb count O) in
  if v >? LONG_MAX then (LONG_MAX, moved, true)
  else if v <? LONG_MIN then (LONG_MIN, moved, true)
  else (v, moved, false).

(** [cmd_get_port]; [None] is [exit(EXIT_FAILURE)].  [errno] is zero when
    the function is entered. *)
Definition cmd_get_port (arg_port : string) : option Z :=
  let '(ret, moved, erange) := strtol arg_port in
  if (erange && ((ret =? LONG_MAX) || (ret =? LONG_MIN)))
     || (erange && (ret =? 0)) then None
  else if negb moved then None
  else if (ret <=? 0) || (ret >? 65535) then Some DEFAULT_PORT
  else Some (int_wrap ret).

(** *** getopt(3) *)

(** What one call of [getopt] hands to its caller: the value returned,
    [optarg] and [optopt]. *)
Record getopt_t : Type := {
  opt : ascii;
  optarg : string;
  optopt : ascii
}.

(** Whether [c] is an option character of [optstring] and, if so, whether
    it takes an argument. *)
Fixpoint opt_lookup (optstring : string) (c : ascii) : option bool :=
  match optstring with
  | EmptyString => None
  | String a rest =>
      if ch_eq a c && negb (ch_eq c ":") then
        Some match rest with String ":" _ => true | _ => false end
      else opt_lookup rest c
  end.

(** The calls of [getopt] that consume the option characters [cur] of one
    element of [argv]; [next] is the element after it.  The flag tells
    whether [next] was taken as an argument. *)
Fixpoint scan_element (optstring : string) (cur : string)
    (next : option string) : list getopt_t * bool :=
  match cur with
  | EmptyString => ([], false)
  | String c cur' =>
      match opt_lookup optstring c with
      | None =>
          let (l, used) := scan_element optstring cur' next in
          ({| opt := "?"; optarg := ""; optopt := c |} :: l, used)
      | Some false =>
          let (l, used) := scan_element optstring cur' next in
          ({| opt := c; optarg := ""; optopt := zero |} :: l, used)
      | Some true =>
          match cur', next with
          | EmptyString, Some a =>
              ([ {| opt := c; optarg := a; optopt := zero |} ], true)
          | EmptyString, None =>
              ([ {| opt := "?"; optarg := ""; optopt := c |} ], false)
          | _, _ =>
              ([ {| opt := c; optarg := cur'; optopt := zero |} ], false)
          end
      end
  end.

(** The option characters of an element of [argv]: what follows its ['-'],
    when that is not empty. *)
Definition option_chars (a : string) : option string :=
  match a with
  | String "-" (String c cur) => Some (String c cur)
  | _ => None
  end.

(** The values the successive calls of [getopt(argc, argv, optstring)]
    return until [-1], for the elements [args] of [argv]; [skip] says that
    the first of them is not to be scanned (it is [argv[0]] or was taken as
    an argument).  An element that is no option is passed over, as GNU
    [getopt] does by permuting [argv]; ["--"] ends the options. *)
Fixpoint getopt_from (optstring : string) (skip : bool) (args : list string)
    : list getopt_t :=
  match args with
  | [] => []
  | a :: rest =>
      if skip then getopt_from optstring false rest
      else if String.eqb a "--" then []
      else
        match option_chars a with
        | Some cur =>
            let (l, used) := scan_element optstring cur (hd_error rest) in
            (l ++ getopt_from optstring used rest)%list
        | None => getopt_from optstring false rest
        end
  end.

Inductive cmd_result : Type :=
| Config (cfg : runtime_conf)
| Exit (status : Z).

(** The [while] loop of [parse_cmd] over the values [getopt] returns. *)
Fixpoint parse_opts (rets : list getopt_t) (cfg : runtime_conf)
    : cmd_result :=
  match rets with
  | [] => Config cfg
  | g :: rets' =>
      if ch_eq (opt g) "p" then
        match cmd_get_port (optarg g) with
        | Some p => parse_opts rets' {| port := p; web_root := web_root cfg |}
        | None => Exit EXIT_FAILURE
        end
      else if ch_eq (opt g) "w" then
        parse_opts rets' {| port := port cfg; web_root := optarg g |}
      else if ch_eq (opt g) "?" then Exit EXIT_FAILURE
      else parse_opts rets' cfg
  end.

Definition parse_cmd (argv : list string) : cmd_result :=
  parse_opts (getopt_from "p:r:" true argv)
    {| port := DEFAULT_PORT; web_root := DEFAULT_WEBROOT |}.


(** ** Definitions for the statements *)

(** The difference [a - b] of two [size_t], as [r->last - r->pos] is
    evaluated. *)
Definition size_sub (a b : Z) : Z := size_wrap (a - b).

(** The ring-buffer invariant, as the driver's
    [assert(r->last - r->pos < MAX_BUF)] writes it. *)
Definition ring_invariant (r : http_request_t) : Prop :=
  0 <= size_sub (last r) (pos r) < MAX_BUF.

(** [n] calls of a parser in a row, each on the connection the call before
    left. *)
Definition call_again (parse : http_request_t -> Z * http_request_t)
    (n : nat) (r : http_request_t) : http_request_t :=
  Nat.iter n (fun x => snd (parse x)) r.

(** A URI of [n] bytes: a slash and [n - 1] letters. *)
Definition long_uri (n : nat) : string :=
  String "/" (string_of_list_ascii (repeat "a"%char (n - 1))).

(** [getopt] returns ['?'] or an option character of [optstring]. *)
Definition known_opt (optstring : string) (g : getopt_t) : Prop :=
  opt g = "?"%char \/ opt_lookup optstring (opt g) <> None.

(** The [n] bytes of memory from [p] on. *)
Fixpoint bytes_at (mem : Z -> ascii) (p : ptr) (n : nat) : string :=
  match n with
  | O => EmptyString
  | S n' => String (mem p) (bytes_at mem (p + 1) n')
  end.

(** [v] is a prefix of [lit] when letters are compared without regard to
    their case. *)
Fixpoint ci_prefix (v lit : string) : bool :=
  match v, lit with
  | EmptyString, _ => true
  | String a v', String b lit' =>
      ch_eq (tolower a) (tolower b) && ci_prefix v' lit'
  | String _ _, EmptyString => false
  end.


(** The byte of the C string [lit] at index [i], its terminating NUL
    included. *)
Definition c_byte (lit : string) (i : nat) : ascii :=
  nth i (list_ascii_of_string lit) zero.

(** The key of [header] in memory. *)
Definition key_of (mem : Z -> ascii) (header : http_header_t) : string :=
  bytes_at mem (key_start header)
    (Z.to_nat (key_end header - key_start header)).


(** A response state as [init_http_out] leaves it on a zeroed block. *)
Definition fresh_out : http_out_t :=
  init_http_out
    {| out_fd := 0; keep_alive := false; mtime := 0; modified := false;
       status := 0 |} 5.

(** A C library whose [strptime] rejects every date. *)
Definition no_date : (Z -> ascii) -> ptr -> option Z := fun _ _ => None.



(** The lines of a text: the pieces that end with a line feed, and what
    follows the last line feed if anything does. *)
Fixpoint lines_of (s : string) : list string :=
  match s with
  | EmptyString => []
  | String c s' =>
      if ch_eq c LF then String c EmptyString :: lines_of s'
      else
        match lines_of s' with
        | [] => [String c EmptyString]
        | l :: ls => String c l :: ls
        end
  end.

(** No byte of [s] is a line feed. *)
Fixpoint no_lf (s : string) : bool :=
  match s with
  | EmptyString => true
  | String c s' => negb (ch_eq c LF) && no_lf s'
  end.

(** The text made of the [contents], each followed by CR LF. *)
Fixpoint crlf_lines (contents : list string) : string :=
  match contents with
  | [] => EmptyString
  | c :: contents' => c ++ CRLF ++ crlf_lines contents'
  end.

(** A C library whose [strftime] always writes the same date. *)
Definition epoch_date : Z -> string :=
  fun _ => "Thu, 01 Jan 1970 00:00:00 GMT".

(** What the lines of the header block of [serve_static] hold, in order; the
    last one is the blank line. *)
Definition header_contents (sl : Z -> string) (filename : string)
    (filesize : Z) (out : http_out_t) : list string :=
  List.app
    (("HTTP/1.1 " ++ dec (status out) ++ " "
      ++ get_msg_from_status (status out))
     :: (if keep_alive out
         then ["Connection: keep-alive"; "Keep-Alive: timeout=500"]
         else []))
    (List.app
       (if modified out
        then ["Content-type: " ++ get_file_type (strrchr filename ".");
              "Content-length: " ++ dec filesize;
              "Last-Modified: " ++ sl (mtime out)]
        else [])
       ["Server: seHTTPd"; ""]).

(** ** Definitions for the proofs *)

(** Splits every [if] of the goal. *)
Ltac split_ifs :=
  repeat match goal with
         | |- context [if ?b then _ else _] => destruct b eqn:?
         end.

(** Two connections with the same [pos], [last], [state] and buffer: what
    the [switch] of a parser never assigns. *)
Definition frame_eq (a b : http_request_t) : Prop :=
  pos a = pos b /\ last a = last b /\ state a = state b /\ buf a = buf b.

Definition flow_frame {St : Type} (r : http_request_t) (f : flow St) : Prop :=
  match f with
  | Break _ r' | GotoDone r' | Return _ r' => frame_eq r' r
  end.

(** The counters of a connection hold values of [size_t]. *)
Definition size_ok (r : http_request_t) : Prop :=
  0 <= pos r < 2 ^ 64 /\ 0 <= last r < 2 ^ 64.

(** Where a parser may leave [pos]: where it was, or further on, at most at
    [last]. *)
Definition pos_moved (r r' : http_request_t) : Prop :=
  last r' = last r /\ buf r' = buf r /\
  (pos r' = pos r \/ pos r < pos r' <= last r).

(** A file system without files. *)
Definition no_file : string -> option stat_t := fun _ => None.
Definition no_contents : string -> string := fun _ => EmptyString.

(** The connection after a first iteration of the driver in which [read]
    delivered the two bytes [GE]. *)
Definition after_first_read : http_request_t :=
  match
    do_request_iter no_date epoch_date no_file no_contents
      (init_http_request blank 5 3 "./www") "" fresh_out
      (SockData (list_ascii_of_string "GE"))
  with
  | Continue r _ _ => r
  | _ => blank
  end.

(** The bytes a second [read] finds. *)
Definition second_read : list ascii :=
  list_ascii_of_string ("T / HTTP/1.0" ++ CRLF ++ CRLF).

(** Splits every [if] of the hypothesis [H]. *)
Ltac split_ifs_in H :=
  repeat match type of H with
         | context [if ?b then _ else _] => destruct b eqn:?
         end.



(** ** Feeding a parser in chunks *)

(** The fields of a connection that the parsers fill in. *)
Definition parsed (r : http_request_t) :=
  (request_start r, method r, uri_start r, uri_end r, http_major r,
   http_minor r, request_end r, hdr_list r,
   (cur_header_key_start r, cur_header_key_end r,
    cur_header_value_start r, cur_header_value_end r)).

(** One more byte received: stored at [last % MAX_BUF], and [last]
    advanced. *)
Definition push (r : http_request_t) (c : ascii) : http_request_t :=
  set_last (last r + 1) (set_buf (store (buf r) (last r mod MAX_BUF) c) r).

(** The bytes [data] received into the ring. *)
Definition refill (r : http_request_t) (data : list ascii) : http_request_t :=
  fold_left push data r.

(** The stream arrives in [chunks]: each chunk is received and the parser
    called; after [EAGAIN] from the exhausted input the next chunk follows
    on the connection as the call left it, [pos] and [state] saved; the
    first call that ends otherwise, or the call after the last chunk, gives
    the result. *)
Fixpoint feed (parse : http_request_t -> outcome * http_request_t)
    (chunks : list (list ascii)) (r : http_request_t)
    : outcome * http_request_t :=
  match chunks with
  | [] => parse r
  | c :: rest =>
      let (o, r') := parse (refill r c) in
      match o, rest with
      | Again, _ :: _ => feed parse rest r'
      | _, _ => (o, r')
      end
  end.

(** Two results of a parser agree: the same exit, the same parsed fields
    and, unless the exit is an error, the same [pos] and [state]. *)
Definition same_result (x y : outcome * http_request_t) : Prop :=
  fst x = fst y /\
  parsed (snd x) = parsed (snd y) /\
  match fst y with
  | Failed _ => True
  | _ => pos (snd x) = pos (snd y) /\ state (snd x) = state (snd y)
  end.

(** A parser as a loop and the code after it, [done] being what the label
    [done] does. *)
Definition run_with {St : Type} (of_int : Z -> option St) (to_int : St -> Z)
    (step : St -> http_request_t -> ptr -> ascii -> flow St)
    (done : http_request_t -> Z -> ptr -> http_request_t)
    (r : http_request_t) : outcome * http_request_t :=
  match
    for_loop of_int to_int step (Z.to_nat (last r - pos r)) (state r) (pos r) r
  with
  | Exhausted st pi r' => (Again, set_state st (set_pos pi r'))
  | JumpDone pi p r' => (Done, done r' pi p)
  | Returned code r' => (Failed code, r')
  end.

(** How the [switch] on two connections compares. *)
Definition flow_sim {St : Type} (P : St -> http_request_t -> Prop)
    (f g : flow St) : Prop :=
  match f, g with
  | Break s1 a, Break s2 b => s1 = s2 /\ parsed a = parsed b /\ P s1 a
  | GotoDone a, GotoDone b => parsed a = parsed b
  | Return c1 a, Return c2 b => c1 = c2 /\ parsed a = parsed b
  | _, _ => False
  end.

(** How the loop on two connections compares. *)
Definition exit_sim (P : Z -> Z -> http_request_t -> Prop)
    (e f : loop_exit) : Prop :=
  match e, f with
  | Exhausted s1 p1 a, Exhausted s2 p2 b =>
      s1 = s2 /\ p1 = p2 /\ parsed a = parsed b /\ P s1 p1 a
  | JumpDone p1 q1 a, JumpDone p2 q2 b =>
      p1 = p2 /\ q1 = q2 /\ parsed a = parsed b
  | Returned c1 a, Returned c2 b => c1 = c2 /\ parsed a = parsed b
  | _, _ => False
  end.

(** While the request-line parser is in [s_method], [request_start] is the
    place in the ring of a byte it has read since index [lo]. *)
Definition method_start_inv (lo st pi : Z) (r : http_request_t) : Prop :=
  st = RequestLine.to_int RequestLine.s_method ->
  exists k, 1 <= k /\ lo <= pi - k /\
            request_start r = (pi - k) mod MAX_BUF.

Definition no_inv (lo st pi : Z) (r : http_request_t) : Prop := True.

(** ** Definitions for further properties *)

(** The fields of a connection the request-line parser fills in, those the
    header parser fills in, and those neither is to touch. *)
Definition line_fields (r : http_request_t) :=
  (request_start r, method r, uri_start r, uri_end r, http_major r,
   http_minor r, request_end r).

Definition header_fields (r : http_request_t) :=
  (hdr_list r, cur_header_key_start r, cur_header_key_end r,
   cur_header_value_start r, cur_header_value_end r).

Definition conn_fields (r : http_request_t) :=
  (root r, fd r, epfd r, buf r, last r, timer r).

(** The [switch] leaves the part [F] of the connection as it was. *)
Definition flow_keeps {St T : Type} (F : http_request_t -> T)
    (r : http_request_t) (f : flow St) : Prop :=
  match f with
  | Break _ r' | GotoDone r' | Return _ r' => F r' = F r
  end.

(** The byte of the ring at index [i]. *)
Definition byte_at (r : http_request_t) (i : Z) : ascii :=
  buf r (i mod MAX_BUF).

(** What holds at the head of every iteration of the header parser called
    on [r]: the buffer is that of [r] and [s_crlfcr] is entered on a CR. *)
Definition body_inv (r : http_request_t) (st pi : Z) (rc : http_request_t)
    : Prop :=
  buf rc = buf r /\ pos r <= pi /\
  (pos r < pi -> st = RequestBody.to_int RequestBody.s_crlfcr ->
   byte_at r (pi - 1) = CR).

(** The four bytes [cst_strcmp] compares against, as a string. *)
Definition four (c0 c1 c2 c3 : ascii) : string :=
  String c0 (String c1 (String c2 (String c3 EmptyString))).










(** What the handlers may do to the response state: they leave [fd] and
    [mtime] alone, never clear [keep_alive], and either leave [modified]
    and [status] alone or record 304 Not Modified. *)
Definition out_raised (o o' : http_out_t) : Prop :=
  out_fd o' = out_fd o /\ mtime o' = mtime o /\
  (keep_alive o = true -> keep_alive o' = true) /\
  ((modified o' = modified o /\ status o' = status o) \/
   (modified o' = false /\ status o' = HTTP_NOT_MODIFIED)).

(** A C library whose [strptime] accepts every date and whose [mktime]
    gives the time [t] for it. *)
Definition const_date (t : Z) : (Z -> ascii) -> ptr -> option Z :=
  fun _ _ => Some t.

(** The connection after the header parser has read a header line whose name
    is a prefix of [Connection], and the blank line. *)
Definition short_name_connection : http_request_t :=
  snd (http_parse_request_body
         (conn_of_string ("Con: keep-alive" ++ CRLF ++ CRLF))).

(** The connection after the header parser has read a header line whose name
    is in no table entry, and the blank line. *)
Definition unknown_name_connection : http_request_t :=
  snd (http_parse_request_body
         (conn_of_string ("Accept: keep-alive" ++ CRLF ++ CRLF))).

(** The connection after the header parser has read an [If-Modified-Since]
    line and the blank line. *)
Definition dated_connection : http_request_t :=
  snd (http_parse_request_body
         (conn_of_string ("If-Modified-Since: x" ++ CRLF ++ CRLF))).

(** [p] is the beginning of [s]. *)
Definition starts_with (p s : string) : Prop := String.prefix p s = true.




(** The bytes of a request for a file, with one header. *)
Definition one_request : list ascii :=
  list_ascii_of_string
    ("GET /a.css HTTP/1.1" ++ CRLF ++ "Host: x" ++ CRLF ++ CRLF).

(** The connection after a first iteration of the driver in which [read]
    delivered a request line and the beginning of a header. *)
Definition after_split_header : http_request_t :=
  match
    do_request_iter no_date epoch_date no_file no_contents
      (init_http_request blank 5 3 "./www") "" fresh_out
      (SockData (list_ascii_of_string ("GET / HTTP/1.1" ++ CRLF ++ "Host: exa")))
  with
  | Continue r _ _ => r
  | _ => blank
  end.

(** Every byte of [s] is a decimal digit. *)
Fixpoint all_digits (s : string) : bool :=
  match s with
  | EmptyString => true
  | String c s' => is_digit c && all_digits s'
  end.

(** [s] does not begin with a decimal digit. *)
Definition no_leading_digit (s : string) : bool :=
  match s with
  | EmptyString => true
  | String c _ => negb (is_digit c)
  end.

(** ** [writen] *)

(** [EINTR] of <errno.h> on Linux. *)
Definition EINTR : Z := 4.

(** What a call of [write] meets: a socket that takes up to [cap] bytes of
    those offered, the call returning their number and leaving [errno]
    alone, or a failure, the call returning [-1] with [errno] set. *)
Inductive write_t : Type :=
| Wrote (cap : Z)
| WriteErr (errno : Z).

(** The loop of [writen(fd, usrbuf, n)] against the calls of [write] that
    [script] lists; [bufp] holds the bytes from the pointer of that name on,
    [sent] what the socket has taken.  The result is the value returned,
    what was sent and [errno]; [None] when the script ends before the loop
    does.  [n] is below [2 ^ 63], so that the conversion to [ssize_t] of the
    value returned keeps it. *)
Fixpoint writen_loop (script : list write_t) (errno : Z) (bufp : list ascii)
    (nleft : Z) (sent : list ascii) (n : Z)
    : option (Z * list ascii * Z) :=
  if nleft >? 0 then
    match script with
    | [] => None
    | w :: script' =>
        let '(nwritten, errno) :=
          match w with
          | Wrote cap => (MIN cap nleft, errno)
          | WriteErr e => (-1, e)
          end in
        if nwritten <=? 0 then
          if errno =? EINTR then
            writen_loop script' errno bufp (size_wrap (nleft - 0)) sent n
          else Some (-1, sent, errno)
        else
          writen_loop script' errno (skipn (Z.to_nat nwritten) bufp)
            (size_wrap (nleft - nwritten))
            (sent ++ firstn (Z.to_nat nwritten) bufp)%list n
    end
  else Some (n, sent, errno).

Definition writen (script : list write_t) (errno : Z) (usrbuf : list ascii)
    (n : Z) : option (Z * list ascii * Z) :=
  writen_loop script errno usrbuf n [] n.

(** A call of [write] that takes at least one byte. *)
Definition takes_bytes (w : write_t) : Prop :=
  match w with
  | Wrote cap => 1 <= cap
  | WriteErr _ => False
  end.

(** ** list.h *)

Module ListH.

(** [struct list_head]; a node is known by its address. *)
Record list_head : Type := {
  prev : ptr;
  next : ptr
}.

(** The nodes in memory. *)
Definition heap : Type := ptr -> list_head.

(** [p->next = v] and [p->prev = v]. *)
Definition set_next (p v : ptr) (h : heap) : heap :=
  fun q => if q =? p then {| prev := prev (h q); next := v |} else h q.

Definition set_prev (p v : ptr) (h : heap) : heap :=
  fun q => if q =? p then {| prev := v; next := next (h q) |} else h q.

Definition INIT_LIST_HEAD (p : ptr) (h : heap) : heap :=
  set_prev p p (set_next p p h).

Definition __list_add (_new prev next : ptr) (h : heap) : heap :=
  set_prev _new prev (set_next prev _new (set_prev next _new
    (set_next _new next h))).

Definition list_add (_new head : ptr) (h : heap) : heap :=
  __list_add _new head (next (h head)) h.

Definition list_add_tail (_new head : ptr) (h : heap) : heap :=
  __list_add _new (prev (h head)) head h.

Definition __list_del (prev next : ptr) (h : heap) : heap :=
  set_prev next prev (set_next prev next h).

Definition list_del (entry : ptr) (h : heap) : heap :=
  __list_del (prev (h entry)) (next (h entry)) h.

Definition list_empty (head : ptr) (h : heap) : bool :=
  (next (h head) =? head) && (prev (h head) =? head).

(** [list_for_each_safe (pos, n, head)] with a body that ends in
    [list_del(pos)], as the loop of [http_handle_header] does: the entries
    visited, in order, and the nodes afterwards.  [fuel] bounds the number
    of turns. *)
Fixpoint for_each_safe_del (fuel : nat) (head pos n : ptr) (h : heap)
    (seen : list ptr) : option (list ptr * heap) :=
  if pos =? head then Some (rev seen, h)
  else
    match fuel with
    | O => None
    | S fuel' =>
        let h := list_del pos h in
        for_each_safe_del fuel' head n (next (h n)) h (pos :: seen)
    end.

Definition list_for_each_safe_del (fuel : nat) (head : ptr) (h : heap)
    : option (list ptr * heap) :=
  let pos := next (h head) in
  for_each_safe_del fuel head pos (next (h pos)) h [].

(** From [a] the [next] pointers lead through the nodes [l] to [b], and
    the [prev] pointers lead back. *)
Fixpoint chain (h : heap) (a : ptr) (l : list ptr) (b : ptr) : Prop :=
  match l with
  | [] => next (h a) = b /\ prev (h b) = a
  | x :: l' => next (h a) = x /\ prev (h x) = a /\ chain h x l' b
  end.

(** The nodes form the circular list with head [head] and entries [l], in
    this order. *)
Definition dll (h : heap) (head : ptr) (l : list ptr) : Prop :=
  NoDup (head :: l) /\ chain h head l head.

(** Memory with every pointer null. *)
Definition null_heap : heap := fun _ => {| prev := 0; next := 0 |}.

(** Decides an equation between pointers read from nodes after stores, by
    cases on which nodes the stores hit. *)
Ltac heap_eq :=
  unfold list_add, list_add_tail, list_del, __list_add, __list_del,
    INIT_LIST_HEAD, set_next, set_prev;
  cbv beta;
  repeat (match goal with
          | |- context [if ?a =? ?b then _ else _] =>
              destruct (Z.eqb_spec a b)
          end; cbn [next prev]);
  cbn [next prev]; try congruence.

End ListH.

(** * Properties *)

(** ** Calls without input *)

Lemma set_state_pos_same : forall r,
  set_state (state r) (set_pos (pos r) r) = r.
Proof. intros []; reflexivity. Qed.

Lemma line_run_no_input : forall r,
  pos r = last r -> RequestLine.run r = (Again, r).
Proof.
  intros r H. unfold RequestLine.run. rewrite H, Z.sub_diag. simpl.
  now rewrite <- H, set_state_pos_same.
Qed.

Lemma body_run_no_input : forall r,
  pos r = last r -> RequestBody.run r = (Again, r).
Proof.
  intros r H. unfold RequestBody.run. rewrite H, Z.sub_diag. simpl.
  now rewrite <- H, set_state_pos_same.
Qed.

(** C9. A call of either parser on a connection with no unread byte
    ([pos = last]) returns [EAGAIN] and leaves the connection as it was, all
    of its fields included; so does any number of such calls in a row. *)
Theorem parsers_idle_without_input : forall r,
  pos r = last r ->
  http_parse_request_line r = (EAGAIN, r) /\
  http_parse_request_body r = (EAGAIN, r) /\
  (forall n, call_again http_parse_request_line n r = r) /\
  (forall n, call_again http_parse_request_body n r = r).
Proof.
  intros r H.
  assert (L : http_parse_request_line r = (EAGAIN, r)).
  { unfold http_parse_request_line. now rewrite line_run_no_input. }
  assert (B : http_parse_request_body r = (EAGAIN, r)).
  { unfold http_parse_request_body. now rewrite body_run_no_input. }
  repeat split; trivial.
  - induction n as [|n IH]; unfold call_again in *; simpl; trivial.
    now rewrite IH, L.
  - induction n as [|n IH]; unfold call_again in *; simpl; trivial.
    now rewrite IH, B.
Qed.

(** The property at a connection stopped in the middle of a header. *)
Lemma parsers_idle_without_input_witness :
  let r := set_state 4 (set_pos 7 (conn_of_string "Host: x")) in
  pos r = last r /\
  http_parse_request_line r = (EAGAIN, r) /\
  http_parse_request_body r = (EAGAIN, r).
Proof.
  intro r.
  assert (H : pos r = last r) by reflexivity.
  destruct (parsers_idle_without_input r H) as (L & B & _).
  exact (conj H (conj L B)).
Defined.

(** ** URI length at resolution *)

Lemma shortline_half : Z.shiftr SHORTLINE 1 = 256.
Proof. reflexivity. Qed.

(** C5, as the code has it.  [parse_uri] gives up with "uri too long"
    exactly when [uri_length] exceeds [SHORTLINE >> 1 = 256]: a URI of 257
    bytes or more is rejected, one of 256 bytes or fewer passes the check. *)
Theorem parse_uri_too_long_iff : forall webroot mem uri uri_length,
  snd (parse_uri webroot mem uri uri_length) = UriTooLong <->
  uri_length > 256.
Proof.
  intros webroot mem uri len. unfold parse_uri.
  destruct (len <? 0) eqn:Hneg; simpl.
  - apply Z.ltb_lt in Hneg. split; [discriminate | lia].
  - rewrite shortline_half.
    destruct (len >? 256) eqn:Hgt; simpl.
    + split; trivial. intros _. now apply Z.gtb_gt.
    + assert (~ len > 256) by (rewrite Z.gtb_ltb in Hgt; apply Z.ltb_ge in Hgt; lia).
      split; [|tauto]. intro E. exfalso.
      destruct (strrchr _ "/"); simpl in E; try discriminate.
      destruct (Z.of_nat _ <? SHORTLINE); discriminate.
Qed.

(** C5 as stated fails: a URI of exactly 256 bytes is resolved, not
    rejected. *)
Lemma uri_of_256_bytes_is_resolved :
  String.length (long_uri 256) = 256%nat /\
  snd (parse_uri "./www" (mem_of_string (long_uri 256)) 0 256) <> UriTooLong /\
  snd (parse_uri "./www" (mem_of_string (long_uri 256)) 0 256) =
    Resolved ("./www" ++ long_uri 256 ++ "/index.html").
Proof.
  split; [reflexivity|].
  assert (E : snd (parse_uri "./www" (mem_of_string (long_uri 256)) 0 256) =
              Resolved ("./www" ++ long_uri 256 ++ "/index.html"))
    by (vm_compute; reflexivity).
  split; [rewrite E; discriminate | exact E].
Qed.

Example uri_of_255_bytes_is_resolved :
  snd (parse_uri "./www" (mem_of_string (long_uri 255)) 0 255) =
    Resolved ("./www" ++ long_uri 255 ++ "/index.html").
Proof. vm_compute. reflexivity. Qed.

Example uri_of_257_bytes_is_rejected :
  snd (parse_uri "./www" (mem_of_string (long_uri 257)) 0 257) = UriTooLong.
Proof. vm_compute. reflexivity. Qed.

(** ** The web root of the command line *)

Lemma ch_eq_true : forall a b, ch_eq a b = true -> a = b.
Proof. intros a b. apply Ascii.eqb_eq. Qed.

Lemma ch_eq_refl : forall a, ch_eq a a = true.
Proof. intro a. apply Ascii.eqb_refl. Qed.


Lemma scan_element_known : forall optstring cur next l used,
  scan_element optstring cur next = (l, used) ->
  Forall (known_opt optstring) l.
Proof.
  intros optstring cur next. induction cur as [|c cur IH]; simpl; intros l used E.
  - inversion E. constructor.
  - destruct (opt_lookup optstring c) as [[|]|] eqn:Hc.
    + destruct cur as [|c' cur'].
      * destruct next; inversion E; subst; (constructor; [|constructor]);
          [right; simpl; congruence | now left].
      * inversion E; subst. constructor; [|constructor].
        right; simpl; congruence.
    + destruct (scan_element optstring cur next) as [l' used'].
      inversion E; subst. constructor; [right; simpl; congruence|].
      eapply IH; reflexivity.
    + destruct (scan_element optstring cur next) as [l' used'].
      inversion E; subst. constructor; [now left|].
      eapply IH; reflexivity.
Qed.

Lemma getopt_from_known : forall optstring args skip,
  Forall (known_opt optstring) (getopt_from optstring skip args).
Proof.
  intros optstring args. induction args as [|a rest IH]; intro skip; simpl.
  - constructor.
  - destruct skip; [apply IH|].
    destruct (String.eqb a "--"); [constructor|].
    destruct (option_chars a) as [cur|]; [|apply IH].
    destruct (scan_element optstring cur (hd_error rest)) as [l used] eqn:E.
    apply Forall_app. split; [eapply scan_element_known; eassumption | apply IH].
Qed.

(** The [switch] of [parse_cmd] assigns [web_root] only under ['w']. *)
Lemma parse_opts_web_root : forall rets cfg cfg',
  Forall (fun g => ch_eq (opt g) "w" = false) rets ->
  parse_opts rets cfg = Config cfg' ->
  web_root cfg' = web_root cfg.
Proof.
  induction rets as [|g rets IH]; simpl; intros cfg cfg' F E.
  - now inversion E.
  - inversion F as [|? ? Hg F']; subst. rewrite Hg in E.
    destruct (ch_eq (opt g) "p").
    + destruct (cmd_get_port (optarg g)); [|discriminate].
      now rewrite (IH _ _ F' E).
    + destruct (ch_eq (opt g) "?"); [discriminate|]. now apply IH.
Qed.

(** With the option string ["p:r:"], [getopt] never returns ['w']: whatever
    the command line, a configuration that [parse_cmd] returns has the
    default web root. *)
Lemma parse_cmd_web_root_is_default : forall argv cfg,
  parse_cmd argv = Config cfg -> web_root cfg = DEFAULT_WEBROOT.
Proof.
  intros argv cfg E. unfold parse_cmd in E.
  apply parse_opts_web_root in E; [exact E|].
  eapply Forall_impl; [|apply getopt_from_known].
  intros g [Hq|Hk].
  - now rewrite Hq.
  - destruct (ch_eq (opt g) "w") eqn:W; trivial.
    apply ch_eq_true in W. rewrite W in Hk. now elim Hk.
Qed.

(** C8 on the code: [-r /srv/site] leaves the web root at ["./www"]. *)
Theorem parse_cmd_drops_option_r :
  getopt_from "p:r:" true ["sehttpd"; "-r"; "/srv/site"] =
    [ {| opt := "r"; optarg := "/srv/site"; optopt := zero |} ] /\
  parse_cmd ["sehttpd"; "-r"; "/srv/site"] =
    Config {| port := DEFAULT_PORT; web_root := "./www" |}.
Proof. split; reflexivity. Qed.

(** ** The method of a request line *)

(** C2 on the code: the request line [PUT / HTTP/1.1] is accepted and the
    field [method] keeps whatever value [m0] it held before the call; no
    case of the [switch (p - m)] stores [HTTP_UNKNOWN] for a token of three
    or four bytes. *)
Theorem three_byte_method_keeps_stale_method : forall m0,
  let r := set_method m0 (conn_of_string ("PUT / HTTP/1.1" ++ CRLF)) in
  fst (http_parse_request_line r) = 0 /\
  method (snd (http_parse_request_line r)) = m0.
Proof. intros m0 r. split; vm_compute; reflexivity. Qed.

Example four_byte_method_keeps_stale_method :
  let r := set_method HTTP_GET (conn_of_string ("LOCK / HTTP/1.1" ++ CRLF)) in
  http_parse_request_line r = (0, snd (http_parse_request_line r)) /\
  method (snd (http_parse_request_line r)) = HTTP_GET.
Proof. split; vm_compute; reflexivity. Qed.

Example methods_recognised :
  method (snd (http_parse_request_line (conn_of_string ("GET / HTTP/1.1" ++ CRLF)))) = HTTP_GET /\
  method (snd (http_parse_request_line (conn_of_string ("POST / HTTP/1.1" ++ CRLF)))) = HTTP_POST /\
  method (snd (http_parse_request_line (conn_of_string ("HEAD / HTTP/1.1" ++ CRLF)))) = HTTP_HEAD /\
  method (snd (http_parse_request_line (conn_of_string ("DELETE / HTTP/1.1" ++ CRLF)))) = HTTP_UNKNOWN.
Proof. repeat split; vm_compute; reflexivity. Qed.

(** ** Comparison of C strings *)

Lemma u8_inj : forall a b, u8 a = u8 b -> a = b.
Proof.
  intros a b H. unfold u8 in H. apply N2Z.inj in H.
  rewrite <- (ascii_N_embedding a), <- (ascii_N_embedding b). now rewrite H.
Qed.

Lemma u8_zero : forall a, u8 a = 0 -> a = zero.
Proof. intros a H. apply u8_inj. exact H. Qed.

Lemma ch_eq_false : forall a b, ch_eq a b = false -> a <> b.
Proof. intros a b. apply Ascii.eqb_neq. Qed.

(** [strn_cmp] is zero exactly when the folded bytes agree at every index
    below [n] up to and including the NUL of the literal. *)
Lemma strn_cmp_zero : forall fold, fold zero = zero ->
  forall lit mem p n,
  strn_cmp fold mem p lit n = 0 <->
  (forall i : nat, Z.of_nat i < n -> (i <= String.length lit)%nat ->
     fold (mem (p + Z.of_nat i)) = fold (c_byte lit i)).
Proof.
  intros fold F0. induction lit as [|c lit IH]; intros mem p n; simpl.
  - destruct (n <=? 0) eqn:Hn.
    + apply Z.leb_le in Hn. split; trivial. intros _ i Hi. lia.
    + apply Z.leb_gt in Hn. split.
      * intros H i Hi Hl. assert (i = O) by lia. subst i.
        rewrite Z.add_0_r. unfold c_byte. simpl. rewrite F0. now apply u8_zero.
      * intro H. specialize (H O). rewrite Z.add_0_r in H.
        unfold c_byte in H. simpl in H. rewrite H, F0 by (simpl; lia).
        reflexivity.
  - destruct (n <=? 0) eqn:Hn.
    + apply Z.leb_le in Hn. split; trivial. intros _ i Hi. lia.
    + apply Z.leb_gt in Hn.
      destruct (ch_eq (fold (mem p)) (fold c)) eqn:Hc.
      * apply ch_eq_true in Hc. rewrite IH. split.
        -- intros H [|i] Hi Hl.
           ++ now rewrite Z.add_0_r.
           ++ replace (p + Z.of_nat (S i)) with (p + 1 + Z.of_nat i) by lia.
              apply H; lia.
        -- intros H i Hi Hl.
           replace (p + 1 + Z.of_nat i) with (p + Z.of_nat (S i)) by lia.
           apply (H (S i)); lia.
      * apply ch_eq_false in Hc. split.
        -- intro H. exfalso. apply Hc. apply u8_inj. lia.
        -- intro H. exfalso. apply Hc. specialize (H O).
           rewrite Z.add_0_r in H. apply H; simpl; lia.
Qed.

Lemma tolower_zero : tolower zero = zero.
Proof. reflexivity. Qed.

Lemma ci_prefix_bytes : forall lit mem p n,
  ci_prefix (bytes_at mem p n) lit = true ->
  (n <= String.length lit)%nat /\
  forall i : nat, (i < n)%nat ->
    tolower (mem (p + Z.of_nat i)) = tolower (c_byte lit i).
Proof.
  induction lit as [|c lit IH]; intros mem p [|n]; simpl; intro H.
  - split; [lia|]. intros i Hi. lia.
  - discriminate.
  - split; [lia|]. intros i Hi. lia.
  - apply andb_true_iff in H as [Hc H]. apply ch_eq_true in Hc.
    destruct (IH _ _ _ H) as [Hn Hb]. split; [lia|].
    intros [|i] Hi.
    + now rewrite Z.add_0_r.
    + replace (p + Z.of_nat (S i)) with (p + 1 + Z.of_nat i) by lia.
      apply Hb. lia.
Qed.

Lemma size_of_int_small : forall z, 0 <= z < 2 ^ 31 -> size_of_int z = z.
Proof. intros z H. unfold size_of_int. apply Z.mod_small. lia. Qed.

(** ** The Connection handler *)

(** C10. [http_process_connection] compares only [len] bytes: a value that
    is a prefix of ["keep-alive"], letters compared without regard to case,
    sets [keep_alive], the empty value included; a value that differs from
    ["keep-alive"] at one of its first [len] bytes (the NUL that ends
    ["keep-alive"] counting as its eleventh byte) leaves [out] as it was. *)
Theorem connection_handler_matches_prefix : forall r out data len,
  0 <= len < 2 ^ 31 ->
  (ci_prefix (bytes_at (buf r) data (Z.to_nat len)) "keep-alive" = true ->
   http_process_connection r out data len = (0, set_keep_alive true out)) /\
  ((exists i : nat, Z.of_nat i < len /\ (i <= 10)%nat /\
      tolower (buf r (data + Z.of_nat i)) <> tolower (c_byte "keep-alive" i)) ->
   http_process_connection r out data len = (0, out)).
Proof.
  intros r out data len Hlen. unfold http_process_connection, strncasecmp.
  rewrite size_of_int_small by exact Hlen.
  pose proof (strn_cmp_zero tolower tolower_zero "keep-alive" (buf r) data len)
    as Z0.
  split.
  - intro Hp. apply ci_prefix_bytes in Hp as [Hn Hb].
    assert (E : strn_cmp tolower (buf r) data "keep-alive" len = 0).
    { apply Z0. intros i Hi _. apply Hb. lia. }
    rewrite E. reflexivity.
  - intros (i & Hi & Hl & Hd).
    destruct (- strn_cmp tolower (buf r) data "keep-alive" len =? 0) eqn:E;
      trivial.
    apply Z.eqb_eq in E. exfalso. apply Hd.
    apply Z0; [lia | lia | exact Hl].
Qed.

(** The values of the claim: "keep", "K" and the empty value switch
    keep-alive on; "close" does not. *)
Lemma connection_handler_matches_prefix_witness :
  let r := conn_of_string "keep K close" in
  let out := init_http_out {| out_fd := 0; keep_alive := false; mtime := 0;
                              modified := true; status := 0 |} 5 in
  http_process_connection r out 0 4 = (0, set_keep_alive true out) /\
  http_process_connection r out 5 1 = (0, set_keep_alive true out) /\
  http_process_connection r out 7 0 = (0, set_keep_alive true out) /\
  http_process_connection r out 7 5 = (0, out).
Proof.
  intros r out.
  assert (R : forall len, 0 <= len < 10 -> 0 <= len < 2 ^ 31) by (intros; lia).
  split; [|split; [|split]].
  - apply (connection_handler_matches_prefix r out 0 4 (R 4 ltac:(lia))).
    reflexivity.
  - apply (connection_handler_matches_prefix r out 5 1 (R 1 ltac:(lia))).
    reflexivity.
  - apply (connection_handler_matches_prefix r out 7 0 (R 0 ltac:(lia))).
    reflexivity.
  - apply (connection_handler_matches_prefix r out 7 5 (R 5 ltac:(lia))).
    exists O. split; [lia|]. split; [lia|]. vm_compute. discriminate.
Defined.

(** ** Header dispatch *)




(** A key whose first byte is not that of [lit] does not. *)
Lemma strncmp_first_byte : forall mem p c lit n,
  mem p <> c -> 0 < n -> strncmp mem p (String c lit) n <> 0.
Proof.
  intros mem p c lit n H Hn E. unfold strncmp in E.
  pose proof (proj1 (strn_cmp_zero (fun c => c) eq_refl _ _ _ _) E O) as E0.
  rewrite Z.add_0_r in E0. apply H, E0; simpl; lia.
Qed.

Lemma size_wrap_small : forall z, 0 <= z < 2 ^ 64 -> size_wrap z = z.
Proof. intros z H. apply Z.mod_small. exact H. Qed.



Lemma find_handler_hit : forall e table mem h,
  name e <> "" ->
  strncmp mem (key_start h) (name e)
    (size_wrap (key_end h - key_start h)) = 0 ->
  find_handler (e :: table) mem h = Some (handler e).
Proof.
  intros e table mem h Hne E. simpl. rewrite E. simpl.
  destruct (name e); [now elim Hne | reflexivity].
Qed.

Lemma find_handler_miss : forall e table mem h c lit,
  name e = String c lit ->
  mem (key_start h) <> c ->
  0 < size_wrap (key_end h - key_start h) ->
  find_handler (e :: table) mem h = find_handler table mem h.
Proof.
  intros e table mem h c lit Hn Hc Hpos. simpl. rewrite Hn.
  destruct (strncmp mem (key_start h) (String c lit) _ =? 0) eqn:E.
  - apply Z.eqb_eq in E. exfalso. revert E. now apply strncmp_first_byte.
  - reflexivity.
Qed.





(** ** The header block of a static response *)

Lemma str_app_assoc : forall a b c : string, (a ++ b) ++ c = a ++ b ++ c.
Proof. induction a as [|x a IH]; intros; simpl; [|rewrite IH]; reflexivity. Qed.

Lemma str_app_nil_r : forall a : string, a ++ "" = a.
Proof. induction a as [|x a IH]; simpl; [|rewrite IH]; reflexivity. Qed.

Lemma no_lf_app : forall a b, no_lf (a ++ b) = no_lf a && no_lf b.
Proof.
  induction a as [|x a IH]; intro b; simpl; trivial.
  now rewrite IH, andb_assoc.
Qed.

Lemma no_lf_uint : forall d, no_lf (NilEmpty.string_of_uint d) = true.
Proof. induction d; simpl; trivial. Qed.

Lemma no_lf_dec : forall z, no_lf (dec z) = true.
Proof.
  intro z. unfold dec, NilZero.string_of_int, NilZero.string_of_uint.
  destruct (Z.to_int z) as [d|d]; destruct d; simpl; trivial;
    apply no_lf_uint.
Qed.

Lemma no_lf_msg : forall s, no_lf (get_msg_from_status s) = true.
Proof.
  intro s. unfold get_msg_from_status.
  repeat match goal with |- context [if ?b then _ else _] => destruct b end;
    reflexivity.
Qed.

Lemma no_lf_file_type : forall t, no_lf (get_file_type t) = true.
Proof.
  intros [t|]; [|reflexivity]. unfold get_file_type, mime. simpl.
  repeat match goal with |- context [if ?b then _ else _] => destruct b end;
    reflexivity.
Qed.

(** A piece without line feed, then a line feed: one line. *)
Lemma lines_of_line : forall l rest,
  no_lf l = true ->
  lines_of (l ++ String LF rest) = (l ++ String LF "") :: lines_of rest.
Proof.
  induction l as [|c l IH]; intros rest H; simpl in *.
  - reflexivity.
  - apply andb_true_iff in H as [Hc Hl].
    destruct (ch_eq c LF); [discriminate|]. now rewrite IH.
Qed.

Lemma crlf_split : forall c x : string,
  c ++ CRLF ++ x = (c ++ String CR "") ++ String LF x.
Proof. intros c x. rewrite str_app_assoc. reflexivity. Qed.

Lemma crlf_line : forall c : string, (c ++ String CR "") ++ String LF "" = c ++ CRLF.
Proof. intro c. rewrite str_app_assoc. reflexivity. Qed.

Lemma lines_of_crlf_lines : forall contents,
  Forall (fun c => no_lf c = true) contents ->
  lines_of (crlf_lines contents) = map (fun c => c ++ CRLF) contents.
Proof.
  induction contents as [|c contents IH]; intro F; trivial.
  inversion F as [|? ? Hc F']; subst.
  cbn [crlf_lines map]. rewrite crlf_split.
  rewrite lines_of_line by (rewrite no_lf_app, Hc; reflexivity).
  rewrite crlf_line, IH by assumption. reflexivity.
Qed.

(** The header block is made of these lines. *)
Lemma serve_static_header_lines : forall sl filename filesize out,
  serve_static_header sl filename filesize out =
  crlf_lines (header_contents sl filename filesize out).
Proof.
  intros sl filename filesize out.
  unfold serve_static_header, header_contents.
  change (dec TIMEOUT_DEFAULT) with "500".
  destruct (keep_alive out), (modified out); simpl;
    repeat rewrite str_app_assoc; simpl; repeat rewrite str_app_assoc;
    reflexivity.
Qed.

Lemma str_app_inv_tail : forall a b c : string, a ++ c = b ++ c -> a = b.
Proof.
  intros a b c H.
  assert (L : forall x y : string,
             list_ascii_of_string (x ++ y) =
             (list_ascii_of_string x ++ list_ascii_of_string y)%list).
  { induction x as [|h x IH]; intro y; simpl; [|rewrite IH]; reflexivity. }
  apply (f_equal list_ascii_of_string) in H. rewrite !L in H.
  apply app_inv_tail in H.
  rewrite <- (string_of_list_ascii_of_string a),
          <- (string_of_list_ascii_of_string b).
  now rewrite H.
Qed.

(** C7. The header block [serve_static] builds has the lines
    [Connection: keep-alive] and [Keep-Alive: timeout=500], each with its
    CR LF, when [keep_alive] is set; when it is not set, and [strftime]
    writes no line feed into the date, it has neither.  The block is the
    beginning of what [serve_static] writes. *)
Theorem serve_static_keep_alive_lines :
  forall sl contents filename filesize out,
  let header := serve_static_header sl filename filesize out in
  (exists body, serve_static sl contents filename filesize out = header ++ body) /\
  (keep_alive out = true ->
   In ("Connection: keep-alive" ++ CRLF) (lines_of header) /\
   In ("Keep-Alive: timeout=" ++ dec TIMEOUT_DEFAULT ++ CRLF) (lines_of header)) /\
  (keep_alive out = false ->
   (forall t, no_lf (sl t) = true) ->
   ~ In ("Connection: keep-alive" ++ CRLF) (lines_of header) /\
   ~ In ("Keep-Alive: timeout=" ++ dec TIMEOUT_DEFAULT ++ CRLF) (lines_of header)).
Proof.
  intros sl contents filename filesize out header.
  split.
  { unfold serve_static. fold header.
    destruct (negb (modified out));
      [exists ""; now rewrite str_app_nil_r | eexists; reflexivity]. }
  assert (Hst : no_lf ("HTTP/1.1 " ++ dec (status out) ++ " "
                       ++ get_msg_from_status (status out)) = true).
  { rewrite !no_lf_app, no_lf_dec, no_lf_msg. reflexivity. }
  unfold header. rewrite serve_static_header_lines.
  change ("Keep-Alive: timeout=" ++ dec TIMEOUT_DEFAULT ++ CRLF)
    with ("Keep-Alive: timeout=500" ++ CRLF).
  split.
  - intros Hk. unfold header_contents. rewrite Hk.
    cbn [List.app crlf_lines]. rewrite crlf_split.
    rewrite lines_of_line by (rewrite no_lf_app, Hst; reflexivity).
    rewrite crlf_split, lines_of_line by reflexivity.
    rewrite crlf_split, lines_of_line by reflexivity.
    split.
    + right. left. reflexivity.
    + right. right. left. reflexivity.
  - intros Hk Hsl. unfold header_contents. rewrite Hk.
    rewrite lines_of_crlf_lines.
    + split; intro Hin; apply in_map_iff in Hin as (c & Hc & Hin);
        apply str_app_inv_tail in Hc; subst c;
        simpl in Hin; destruct (modified out); simpl in Hin;
        repeat (destruct Hin as [Hin|Hin]; [discriminate Hin|]);
        exact Hin.
    + apply Forall_cons; [exact Hst|]. cbn [List.app].
      destruct (modified out); cbn [List.app];
        repeat (apply Forall_cons;
                [rewrite ?no_lf_app, ?no_lf_file_type, ?no_lf_dec, ?Hsl;
                 reflexivity|]);
        apply Forall_nil.
Qed.

(** The response of the third scenario of the specification: status 200
    with [keep_alive] set; and the same without keep-alive. *)
Lemma serve_static_keep_alive_lines_witness :
  let on := set_status HTTP_OK (set_keep_alive true fresh_out) in
  let off := set_status HTTP_OK fresh_out in
  (In ("Connection: keep-alive" ++ CRLF)
      (lines_of (serve_static_header epoch_date "./www/a.css" 120 on)) /\
   In ("Keep-Alive: timeout=" ++ dec TIMEOUT_DEFAULT ++ CRLF)
      (lines_of (serve_static_header epoch_date "./www/a.css" 120 on))) /\
  (~ In ("Connection: keep-alive" ++ CRLF)
      (lines_of (serve_static_header epoch_date "./www/a.css" 120 off)) /\
   ~ In ("Keep-Alive: timeout=" ++ dec TIMEOUT_DEFAULT ++ CRLF)
      (lines_of (serve_static_header epoch_date "./www/a.css" 120 off))).
Proof.
  intros on off. split.
  - apply (serve_static_keep_alive_lines epoch_date "" "./www/a.css" 120 on).
    reflexivity.
  - apply (serve_static_keep_alive_lines epoch_date "" "./www/a.css" 120 off).
    + reflexivity.
    + intro t. reflexivity.
Defined.

(** ** The loop of the parsers *)

Lemma line_of_to_int : forall s, RequestLine.of_int (RequestLine.to_int s) = Some s.
Proof. intros []; reflexivity. Qed.

Lemma body_of_to_int : forall s, RequestBody.of_int (RequestBody.to_int s) = Some s.
Proof. intros []; reflexivity. Qed.

Lemma find_some_eq : forall (A : Type) (f : A -> bool) (l : list A) (x : A),
  find f l = Some x -> f x = true.
Proof. intros A f l x H. now apply find_some in H. Qed.

Lemma line_of_int_some : forall z s, RequestLine.of_int z = Some s -> z = RequestLine.to_int s.
Proof.
  intros z s H. apply find_some_eq in H. apply Z.eqb_eq in H. now symmetry.
Qed.

Lemma body_of_int_some : forall z s, RequestBody.of_int z = Some s -> z = RequestBody.to_int s.
Proof.
  intros z s H. apply find_some_eq in H. apply Z.eqb_eq in H. now symmetry.
Qed.

Section LoopInvariant.

Context {St : Type}.
Variable of_int : Z -> option St.
Variable to_int : St -> Z.
Variable step : St -> http_request_t -> ptr -> ascii -> flow St.

(** [I st pi r] is to hold of the local state, the index and the connection
    at the head of every iteration. *)
Variable I : Z -> Z -> http_request_t -> Prop.

Hypothesis I_skip : forall st pi r,
  of_int st = None -> I st pi r -> I st (pi + 1) r.

Hypothesis I_break : forall st s pi r s' r',
  of_int st = Some s -> I st pi r ->
  step s r (pi mod MAX_BUF) (buf r (pi mod MAX_BUF)) = Break s' r' ->
  I (to_int s') (pi + 1) r'.

(** What is known when the loop is left: the invariant at the exit, or at
    the head of the iteration that jumps or returns. *)
Lemma for_loop_invariant : forall n st pi r,
  I st pi r ->
  match for_loop of_int to_int step n st pi r with
  | Exhausted st' pi' r' => pi' = pi + Z.of_nat n /\ I st' pi' r'
  | JumpDone pi' p r' =>
      pi <= pi' < pi + Z.of_nat n /\ p = pi' mod MAX_BUF /\
      exists st' s r0,
        of_int st' = Some s /\ I st' pi' r0 /\
        step s r0 p (buf r0 p) = GotoDone r'
  | Returned code r' =>
      exists pi' st' s r0,
        pi <= pi' < pi + Z.of_nat n /\
        of_int st' = Some s /\ I st' pi' r0 /\
        step s r0 (pi' mod MAX_BUF) (buf r0 (pi' mod MAX_BUF)) = Return code r'
  end.
Proof.
  induction n as [|n IH]; intros st pi r HI.
  - simpl. split; [lia | exact HI].
  - cbn [for_loop].
    destruct (of_int st) as [s|] eqn:Hs.
    + destruct (step s r (pi mod MAX_BUF) (buf r (pi mod MAX_BUF)))
        as [s' r'|r'|code r'] eqn:Hstep.
      * specialize (IH (to_int s') (pi + 1) r' (I_break _ _ _ _ _ _ Hs HI Hstep)).
        destruct (for_loop of_int to_int step n (to_int s') (pi + 1) r')
          as [st2 pi2 r2|pi2 p2 r2|code2 r2].
        -- destruct IH as [-> H2]. split; [lia | exact H2].
        -- destruct IH as (Hr & Hp & Hex). split; [lia|]. split; assumption.
        -- destruct IH as (pi' & st' & s0 & r0 & Hr & Hrest).
           exists pi', st', s0, r0. split; [lia | exact Hrest].
      * split; [lia|]. split; [reflexivity|].
        exists st, s, r. auto.
      * exists pi, st, s, r. split; [lia|]. auto.
    + specialize (IH st (pi + 1) r (I_skip _ _ _ Hs HI)).
      destruct (for_loop of_int to_int step n st (pi + 1) r)
        as [st2 pi2 r2|pi2 p2 r2|code2 r2].
      * destruct IH as [-> H2]. split; [lia | exact H2].
      * destruct IH as (Hr & Hp & Hex). split; [lia|]. split; assumption.
      * destruct IH as (pi' & st' & s0 & r0 & Hr & Hrest).
        exists pi', st', s0, r0. split; [lia | exact Hrest].
Qed.

End LoopInvariant.

(** The [switch] of either parser leaves [pos], [last], [state] and the
    buffer alone. *)
Lemma frame_eq_refl : forall r, frame_eq r r.
Proof. intro r. repeat split. Qed.

Lemma line_step_frame : forall s r p ch,
  flow_frame r (RequestLine.step s r p ch).
Proof.
  intros s r p ch.
  destruct s; unfold RequestLine.step, RequestLine.classify_method;
    split_ifs; simpl; repeat split.
Qed.

Lemma body_step_frame : forall s r p ch,
  flow_frame r (RequestBody.step s r p ch).
Proof.
  intros s r p ch.
  destruct s; unfold RequestBody.step; split_ifs; simpl; repeat split.
Qed.

Section LoopFrame.

Context {St : Type}.
Variable of_int : Z -> option St.
Variable to_int : St -> Z.
Variable step : St -> http_request_t -> ptr -> ascii -> flow St.
Hypothesis step_frame : forall s r p ch, flow_frame r (step s r p ch).

Lemma frame_eq_trans : forall a b c, frame_eq a b -> frame_eq b c -> frame_eq a c.
Proof.
  intros a b c (H1 & H2 & H3 & H4) (K1 & K2 & K3 & K4).
  repeat split; congruence.
Qed.

Lemma for_loop_frame : forall n st pi r,
  match for_loop of_int to_int step n st pi r with
  | Exhausted st' pi' r' => pi' = pi + Z.of_nat n /\ frame_eq r' r
  | JumpDone pi' p r' =>
      pi <= pi' < pi + Z.of_nat n /\ p = pi' mod MAX_BUF /\ frame_eq r' r
  | Returned code r' => frame_eq r' r
  end.
Proof.
  intros n st pi r.
  pose proof (for_loop_invariant of_int to_int step
                (fun _ _ rc => frame_eq rc r)) as L.
  assert (Hbreak : forall st s pi r0 s' r',
             of_int st = Some s -> frame_eq r0 r ->
             step s r0 (pi mod MAX_BUF) (buf r0 (pi mod MAX_BUF)) = Break s' r' ->
             frame_eq r' r).
  { intros st0 s pi0 r0 s' r' _ H0 Hs.
    pose proof (step_frame s r0 (pi0 mod MAX_BUF) (buf r0 (pi0 mod MAX_BUF))) as F.
    rewrite Hs in F. simpl in F. eapply frame_eq_trans; eassumption. }
  specialize (L (fun _ _ _ _ H => H) Hbreak n st pi r (frame_eq_refl r)).
  destruct (for_loop of_int to_int step n st pi r) as [st' pi' r'|pi' p r'|c r'].
  - exact L.
  - destruct L as (Hr & Hp & st' & s & r0 & _ & H0 & Hs).
    split; [exact Hr|]. split; [exact Hp|].
    pose proof (step_frame s r0 p (buf r0 p)) as F.
    rewrite Hs in F. simpl in F. eapply frame_eq_trans; eassumption.
  - destruct L as (pi' & st' & s & r0 & _ & _ & H0 & Hs).
    pose proof (step_frame s r0 (pi' mod MAX_BUF) (buf r0 (pi' mod MAX_BUF))) as F.
    rewrite Hs in F. simpl in F. eapply frame_eq_trans; eassumption.
Qed.

End LoopFrame.

(** ** The ring buffer of the driver *)

Lemma line_run_pos : forall r o r',
  RequestLine.run r = (o, r') -> pos_moved r r'.
Proof.
  intros r o r' H. unfold RequestLine.run in H.
  pose proof (for_loop_frame RequestLine.of_int RequestLine.to_int
                RequestLine.step line_step_frame
                (Z.to_nat (last r - pos r)) (state r) (pos r) r) as F.
  destruct (for_loop _ _ _ _ _ _ _) as [st' pi' rc|pi' p rc|c rc];
    inversion H; subst; clear H.
  - destruct F as (-> & Hp & Hl & Hs & Hb). unfold pos_moved. simpl.
    repeat split; trivial. lia.
  - destruct F as (Hr & _ & Hp & Hl & Hs & Hb). unfold pos_moved, RequestLine.done.
    destruct (request_end (set_pos (pi' + 1) rc)); simpl;
      repeat split; trivial; lia.
  - destruct F as (Hp & Hl & Hs & Hb). unfold pos_moved. auto.
Qed.

Lemma body_run_pos : forall r o r',
  RequestBody.run r = (o, r') -> pos_moved r r'.
Proof.
  intros r o r' H. unfold RequestBody.run in H.
  pose proof (for_loop_frame RequestBody.of_int RequestBody.to_int
                RequestBody.step body_step_frame
                (Z.to_nat (last r - pos r)) (state r) (pos r) r) as F.
  destruct (for_loop _ _ _ _ _ _ _) as [st' pi' rc|pi' p rc|c rc];
    inversion H; subst; clear H.
  - destruct F as (-> & Hp & Hl & Hs & Hb). unfold pos_moved. simpl.
    repeat split; trivial. lia.
  - destruct F as (Hr & _ & Hp & Hl & Hs & Hb). unfold pos_moved. simpl.
    repeat split; trivial; lia.
  - destruct F as (Hp & Hl & Hs & Hb). unfold pos_moved. auto.
Qed.

Lemma pos_moved_invariant : forall r r',
  pos_moved r r' -> size_ok r -> ring_invariant r ->
  size_ok r' /\ ring_invariant r'.
Proof.
  intros r r' (Hl & _ & Hp) [Hpos Hlast] Hring.
  unfold size_ok, ring_invariant, size_sub, size_wrap in *. rewrite Hl.
  destruct Hp as [Hp|Hp].
  - rewrite Hp. auto.
  - split; [lia|].
    assert (pos r <= last r) by lia.
    change (2 ^ 64) with 18446744073709551616 in *.
    rewrite Z.mod_small in Hring by lia.
    rewrite Z.mod_small by lia. lia.
Qed.

Lemma remain_size_value : forall r,
  ring_invariant r ->
  remain_size r =
    MIN (MAX_BUF - size_sub (last r) (pos r) - 1)
        (MAX_BUF - last r mod MAX_BUF) /\
  0 <= remain_size r <= MAX_BUF - size_sub (last r) (pos r) - 1.
Proof.
  intros r H. unfold ring_invariant in H. unfold remain_size.
  fold (size_sub (last r) (pos r)).
  assert (Hm : 0 <= last r mod MAX_BUF < MAX_BUF)
    by (apply Z.mod_pos_bound; reflexivity).
  unfold MAX_BUF in *.
  rewrite (size_wrap_small (8124 - size_sub (last r) (pos r)))
    by (change (2 ^ 64) with 18446744073709551616; lia).
  rewrite (size_wrap_small (8124 - size_sub (last r) (pos r) - 1))
    by (change (2 ^ 64) with 18446744073709551616; lia).
  rewrite (size_wrap_small (8124 - last r mod 8124))
    by (change (2 ^ 64) with 18446744073709551616; lia).
  split; [reflexivity|]. unfold MIN.
  destruct (_ <? _) eqn:E; [lia|]. apply Z.ltb_ge in E. lia.
Qed.

Lemma read_into_invariant : forall r avail n r',
  size_ok r -> ring_invariant r ->
  read_into r avail = (n, r') ->
  0 <= n <= remain_size r /\ size_ok r' /\ ring_invariant r'.
Proof.
  intros r avail n r' [Hpos Hlast] Hring H.
  destruct (remain_size_value r Hring) as [_ Hrem].
  unfold read_into in H. inversion H as [[Hn Hr]]. clear H.
  set (data := firstn (Z.to_nat (remain_size r)) avail) in *.
  assert (Hlen : 0 <= Z.of_nat (List.length data) <= remain_size r).
  { split; [lia|]. unfold data.
    rewrite length_firstn. lia. }
  split; [exact Hlen|].
  unfold size_ok, ring_invariant, size_sub. simpl.
  unfold ring_invariant, size_sub in Hring, Hrem.
  split.
  - split; [exact Hpos|]. apply Z.mod_pos_bound. reflexivity.
  - unfold size_wrap in *.
    rewrite Zminus_mod_idemp_l.
    replace (last r + Z.of_nat (List.length data) - pos r)
      with ((last r - pos r) + Z.of_nat (List.length data)) by lia.
    rewrite <- Zplus_mod_idemp_l.
    change (2 ^ 64) with 18446744073709551616 in *.
    rewrite Z.mod_small; unfold MAX_BUF in *; lia.
Qed.

Lemma line_parse_invariant : forall r rc r',
  size_ok r -> ring_invariant r ->
  http_parse_request_line r = (rc, r') ->
  size_ok r' /\ ring_invariant r'.
Proof.
  intros r rc r' Hs Hr H. unfold http_parse_request_line in H.
  destruct (RequestLine.run r) as [o r1] eqn:E. inversion H; subst.
  eapply pos_moved_invariant; eauto using line_run_pos.
Qed.

Lemma body_parse_invariant : forall r rc r',
  size_ok r -> ring_invariant r ->
  http_parse_request_body r = (rc, r') ->
  size_ok r' /\ ring_invariant r'.
Proof.
  intros r rc r' Hs Hr H. unfold http_parse_request_body in H.
  destruct (RequestBody.run r) as [o r1] eqn:E. inversion H; subst.
  eapply pos_moved_invariant; eauto using body_run_pos.
Qed.

(** An iteration that ends in [continue] keeps the counters in order. *)
Lemma do_request_iter_invariant :
  forall sm sl stat contents r filename o0 rd r' filename' sent,
  size_ok r -> ring_invariant r ->
  do_request_iter sm sl stat contents r filename o0 rd
    = Continue r' filename' sent ->
  size_ok r' /\ ring_invariant r'.
Proof.
  intros sm sl stat contents r filename o0 rd r' filename' sent Hs Hr H.
  unfold do_request_iter in H.
  destruct rd as [avail| |errno]; try discriminate;
    [|destruct (negb (errno =? EAGAIN)); discriminate].
  destruct (read_into r avail) as [n r1] eqn:Hread.
  destruct (read_into_invariant _ _ _ _ Hs Hr Hread) as (_ & Hs1 & Hr1).
  destruct (n =? 0); [discriminate|].
  destruct (http_parse_request_line r1) as [rc r2] eqn:Hline.
  destruct (line_parse_invariant _ _ _ Hs1 Hr1 Hline) as [Hs2 Hr2].
  destruct (rc =? EAGAIN); [inversion H; subst; auto|].
  destruct (negb (rc =? 0)); [discriminate|].
  destruct (http_parse_request_body r2) as [rc' r3] eqn:Hbody.
  destruct (body_parse_invariant _ _ _ Hs2 Hr2 Hbody) as [Hs3 Hr3].
  destruct (rc' =? EAGAIN); [inversion H; subst; auto|].
  destruct (negb (rc' =? 0)); [discriminate|].
  destruct (parse_uri (root r3) (buf r3) (uri_start r3)
              (int_wrap (uri_end r3 - uri_start r3))) as [mem res].
  destruct res as [|f|]; cbv beta iota zeta in H; try discriminate.
  - destruct (stat filename) as [sbuf|]; [|inversion H; subst; auto].
    destruct (negb (st_isreg sbuf) || negb (st_irusr sbuf));
      [inversion H; subst; auto|].
    unfold http_handle_header in H.
    destruct (negb (keep_alive _)); [discriminate|].
    inversion H; subst; auto.
  - destruct (stat f) as [sbuf|]; [|inversion H; subst; auto].
    destruct (negb (st_isreg sbuf) || negb (st_irusr sbuf));
      [inversion H; subst; auto|].
    unfold http_handle_header in H.
    destruct (negb (keep_alive _)); [discriminate|].
    inversion H; subst; auto.
Qed.

(** Every connection the driver holds at the top of its loop satisfies the
    invariant. *)
Lemma driver_reaches_invariant : forall sm sl stat contents r,
  driver_reaches sm sl stat contents r -> size_ok r /\ ring_invariant r.
Proof.
  intros sm sl stat contents r H. induction H as [r0 fd0 epfd0 root0|
    r filename o0 rd r' filename' sent _ [IHs IHr] Hiter].
  - split.
    + unfold size_ok. simpl. change (2 ^ 64) with 18446744073709551616. lia.
    + unfold ring_invariant. simpl. split; reflexivity.
  - eapply do_request_iter_invariant; eassumption.
Qed.

(** C3. In every iteration of the loop of [do_request], on every connection
    the driver can hold, the [read] takes at most [remain_size] bytes,
    which is the minimum of [MAX_BUF - (last - pos) - 1] and
    [MAX_BUF - last % MAX_BUF], and after [r->last += n] the difference
    [r->last - r->pos] is below [MAX_BUF]; with [pos <= last], that is with
    counters that have not wrapped around, this reads
    [0 <= last - pos < MAX_BUF] on the integers. *)
Theorem ring_invariant_after_read :
  forall sm sl stat contents r avail n r',
  driver_reaches sm sl stat contents r ->
  read_into r avail = (n, r') ->
  remain_size r =
    MIN (MAX_BUF - size_sub (last r) (pos r) - 1)
        (MAX_BUF - last r mod MAX_BUF) /\
  0 <= n <= remain_size r /\
  ring_invariant r' /\
  (pos r' <= last r' -> 0 <= last r' - pos r' < MAX_BUF).
Proof.
  intros sm sl stat contents r avail n r' Hreach Hread.
  destruct (driver_reaches_invariant _ _ _ _ _ Hreach) as [Hs Hr].
  destruct (remain_size_value r Hr) as [Hrem _].
  destruct (read_into_invariant _ _ _ _ Hs Hr Hread) as (Hn & Hs' & Hr').
  split; [exact Hrem|]. split; [exact Hn|]. split; [exact Hr'|].
  intro Hle. unfold ring_invariant, size_sub in Hr'.
  destruct Hs' as [Hp Hl].
  rewrite size_wrap_small in Hr'
    by (change (2 ^ 64) with 18446744073709551616 in *; lia).
  exact Hr'.
Qed.

(** The second read of the fifth scenario of the specification: [GE] has
    been read and parsed, the rest of the request arrives. *)
Lemma ring_invariant_after_read_witness :
  driver_reaches no_date epoch_date no_file no_contents after_first_read /\
  0 <= fst (read_into after_first_read second_read)
    <= remain_size after_first_read /\
  ring_invariant (snd (read_into after_first_read second_read)).
Proof.
  assert (Hreach : driver_reaches no_date epoch_date no_file no_contents
                     after_first_read).
  { apply (reach_iter no_date epoch_date no_file no_contents
             (init_http_request blank 5 3 "./www") "" fresh_out
             (SockData (list_ascii_of_string "GE")) after_first_read "" "").
    - apply reach_init.
    - reflexivity. }
  split; [exact Hreach|].
  destruct (ring_invariant_after_read no_date epoch_date no_file no_contents
              after_first_read second_read
              (fst (read_into after_first_read second_read))
              (snd (read_into after_first_read second_read))
              Hreach eq_refl) as (_ & Hn & Hr & _).
  split; [exact Hn | exact Hr].
Defined.

Example after_first_read_fields :
  (pos after_first_read, last after_first_read, state after_first_read)
    = (2, 2, 1) /\
  fst (read_into after_first_read second_read) = 16 /\
  remain_size after_first_read = 8122.
Proof. repeat split; vm_compute; reflexivity. Qed.

(** ** The exits of the request-line parser *)









(** With a bare LF the parser leaves a [request_end] that is not null where
    it was: here at the 99 stored before the call. *)
Example bare_lf_keeps_request_end :
  let r := set_request_end (Some 99) (conn_of_string ("GET / HTTP/1.1" ++ NL)) in
  fst (http_parse_request_line r) = 0 /\
  request_end (snd (http_parse_request_line r)) = Some 99.
Proof. split; vm_compute; reflexivity. Qed.

(** ** Receiving bytes into the ring *)

Lemma refill_cons : forall r c d, refill r (c :: d) = refill (push r c) d.
Proof. reflexivity. Qed.

Lemma refill_app : forall d1 d2 r,
  refill r (d1 ++ d2)%list = refill (refill r d1) d2.
Proof. intros d1 d2 r. unfold refill. apply fold_left_app. Qed.

Lemma refill_fields : forall d r,
  pos (refill r d) = pos r /\ state (refill r d) = state r /\
  parsed (refill r d) = parsed r /\
  last (refill r d) = last r + Z.of_nat (List.length d).
Proof.
  induction d as [|c d IH]; intro r.
  - simpl. repeat split; trivial. lia.
  - rewrite refill_cons. destruct (IH (push r c)) as (H1 & H2 & H3 & H4).
    rewrite H1, H2, H3, H4. cbn [List.length]. simpl. repeat split; trivial.
    lia.
Qed.

(** Receiving bytes changes the ring only where it stores them. *)
Lemma refill_buf_other : forall d r off,
  (forall j, 0 <= j < Z.of_nat (List.length d) ->
     (last r + j) mod MAX_BUF <> off) ->
  buf (refill r d) off = buf r off.
Proof.
  induction d as [|c d IH]; intros r off H; trivial.
  rewrite refill_cons, IH.
  - simpl. unfold store.
    destruct (off =? last r mod MAX_BUF) eqn:E; trivial.
    apply Z.eqb_eq in E. exfalso. apply (H 0).
    + cbn [List.length]. lia.
    + now rewrite Z.add_0_r.
  - intros j Hj. simpl. replace (last r + 1 + j) with (last r + (j + 1)) by lia.
    apply H. cbn [List.length]. lia.
Qed.

Lemma refill_buf_eq : forall d a b,
  buf a = buf b -> last a = last b ->
  buf (refill a d) = buf (refill b d).
Proof.
  induction d as [|c d IH]; intros a b Hb Hl; trivial.
  rewrite !refill_cons. apply IH; simpl; congruence.
Qed.

Lemma mod_distinct : forall x y, 0 < x - y < MAX_BUF ->
  x mod MAX_BUF <> y mod MAX_BUF.
Proof.
  intros x y H E.
  assert (K : (x - y) mod MAX_BUF = 0).
  { rewrite Zminus_mod, E, Z.sub_diag. reflexivity. }
  rewrite Z.mod_small in K by lia. lia.
Qed.

Lemma same_result_refl : forall x, same_result x x.
Proof. intros [o r]. unfold same_result. destruct o; simpl; auto. Qed.

Lemma same_result_trans : forall x y z,
  same_result x y -> same_result y z -> same_result x z.
Proof.
  intros [o1 r1] [o2 r2] [o3 r3] (H1 & H2 & H3) (K1 & K2 & K3).
  simpl in *. subst o2 o3. unfold same_result. simpl.
  split; [reflexivity|]. split; [congruence|].
  destruct o1; trivial; split; destruct H3, K3; congruence.
Qed.

(** ** Resuming a parser *)

Section Resume.

Context {St : Type}.
Variable of_int : Z -> option St.
Variable to_int : St -> Z.
Variable step : St -> http_request_t -> ptr -> ascii -> flow St.
Variable done : http_request_t -> Z -> ptr -> http_request_t.
Variable Inv : Z -> Z -> Z -> http_request_t -> Prop.

Hypothesis step_frame : forall s r p ch, flow_frame r (step s r p ch).

Hypothesis Inv_parsed : forall lo st pi a b,
  parsed a = parsed b -> Inv lo st pi a -> Inv lo st pi b.

Hypothesis Inv_skip : forall lo st pi a,
  of_int st = None -> Inv lo st pi a -> Inv lo st (pi + 1) a.

Hypothesis step_sim : forall lo st s pi a b,
  of_int st = Some s -> Inv lo st pi a -> lo <= pi ->
  parsed a = parsed b ->
  (forall i, lo <= i <= pi -> buf a (i mod MAX_BUF) = buf b (i mod MAX_BUF)) ->
  flow_sim (fun s' a' => Inv lo (to_int s') (pi + 1) a')
    (step s a (pi mod MAX_BUF) (buf a (pi mod MAX_BUF)))
    (step s b (pi mod MAX_BUF) (buf a (pi mod MAX_BUF))).

Hypothesis done_sim : forall a b pi p,
  parsed a = parsed b ->
  parsed (done a pi p) = parsed (done b pi p) /\
  pos (done a pi p) = pos (done b pi p) /\
  state (done a pi p) = state (done b pi p).

(** The loop over [n + m] bytes is the loop over [n] bytes and, if that
    exhausts them, the loop over the next [m] from where it stopped. *)
Lemma for_loop_split : forall n m st pi r,
  for_loop of_int to_int step (n + m) st pi r =
  match for_loop of_int to_int step n st pi r with
  | Exhausted st' pi' r' => for_loop of_int to_int step m st' pi' r'
  | e => e
  end.
Proof.
  induction n as [|n IH]; intros m st pi r; trivial.
  cbn [Nat.add for_loop].
  destruct (of_int st) as [s|]; [|apply IH].
  destruct (step s r (pi mod MAX_BUF) (buf r (pi mod MAX_BUF))); trivial.
Qed.

(** The loop on two connections with the same parsed fields, whose buffers
    hold the same bytes at the places of the indices from [lo] to the last
    one read, takes the same course. *)
Lemma for_loop_sim : forall n lo st pi a b,
  Inv lo st pi a -> lo <= pi -> parsed a = parsed b ->
  (forall i, lo <= i < pi + Z.of_nat n ->
     buf a (i mod MAX_BUF) = buf b (i mod MAX_BUF)) ->
  exit_sim (fun st' pi' a' => pi' = pi + Z.of_nat n /\ Inv lo st' pi' a')
    (for_loop of_int to_int step n st pi a)
    (for_loop of_int to_int step n st pi b).
Proof.
  induction n as [|n IH]; intros lo st pi a b HI Hlo Hpar Hbuf.
  - simpl. repeat split; trivial. lia.
  - cbn [for_loop].
    rewrite <- (Hbuf pi) by lia.
    destruct (of_int st) as [s|] eqn:Hs.
    + assert (Hb' : forall i, lo <= i <= pi ->
                      buf a (i mod MAX_BUF) = buf b (i mod MAX_BUF))
        by (intros; apply Hbuf; lia).
      pose proof (step_sim lo st s pi a b Hs HI Hlo Hpar Hb') as Sim.
      pose proof (step_frame s a (pi mod MAX_BUF) (buf a (pi mod MAX_BUF))) as Fa.
      pose proof (step_frame s b (pi mod MAX_BUF) (buf a (pi mod MAX_BUF))) as Fb.
      destruct (step s a (pi mod MAX_BUF) (buf a (pi mod MAX_BUF)))
        as [s1 a'|a'|c1 a'];
        destruct (step s b (pi mod MAX_BUF) (buf a (pi mod MAX_BUF)))
          as [s2 b'|b'|c2 b']; simpl in Sim; try contradiction.
      * destruct Sim as (<- & Hpar' & HI').
        destruct Fa as (_ & _ & _ & Fa). destruct Fb as (_ & _ & _ & Fb).
        assert (Hbuf' : forall i, lo <= i < pi + 1 + Z.of_nat n ->
                          buf a' (i mod MAX_BUF) = buf b' (i mod MAX_BUF)).
        { intros i Hi. rewrite Fa, Fb. apply Hbuf. lia. }
        specialize (IH lo (to_int s1) (pi + 1) a' b' HI' ltac:(lia) Hpar' Hbuf').
        destruct (for_loop of_int to_int step n (to_int s1) (pi + 1) a');
          destruct (for_loop of_int to_int step n (to_int s1) (pi + 1) b');
          simpl in IH |- *; try contradiction; trivial.
        destruct IH as (E1 & E2 & E3 & E4 & E5).
        repeat split; trivial. lia.
      * simpl. auto.
      * simpl. exact Sim.
    + assert (Hbuf' : forall i, lo <= i < pi + 1 + Z.of_nat n ->
                        buf a (i mod MAX_BUF) = buf b (i mod MAX_BUF))
        by (intros; apply Hbuf; lia).
      specialize (IH lo st (pi + 1) a b (Inv_skip _ _ _ _ Hs HI)
                    ltac:(lia) Hpar Hbuf').
      destruct (for_loop of_int to_int step n st (pi + 1) a);
        destruct (for_loop of_int to_int step n st (pi + 1) b);
        simpl in IH |- *; try contradiction; trivial.
      destruct IH as (E1 & E2 & E3 & E4 & E5).
      repeat split; trivial. lia.
Qed.

(** A parser called on [R1] and, if it asks for more, called again after
    the bytes [D] have arrived, against the parser called once after [D]
    has arrived. *)
Lemma resume_sim : forall lo R1 D,
  lo <= pos R1 <= last R1 ->
  Inv lo (state R1) (pos R1) R1 ->
  last R1 + Z.of_nat (List.length D) - lo <= MAX_BUF ->
  match run_with of_int to_int step done R1 with
  | (Again, r1) =>
      same_result (run_with of_int to_int step done (refill r1 D))
                  (run_with of_int to_int step done (refill R1 D)) /\
      Inv lo (state r1) (pos r1) r1 /\
      pos r1 = last R1 /\ last r1 = last R1
  | (o, r1) =>
      same_result (o, r1) (run_with of_int to_int step done (refill R1 D))
  end.
Proof.
  intros lo R1 D Hpos HI Hcap.
  destruct (refill_fields D R1) as (Xp & Xs & Xpar & Xl).
  set (X := refill R1 D) in *.
  set (n1 := Z.to_nat (last R1 - pos R1)).
  set (m := List.length D).
  assert (Hn : Z.to_nat (last X - pos X) = (n1 + m)%nat).
  { rewrite Xl, Xp. unfold n1, m. lia. }
  assert (Hn1 : pos R1 + Z.of_nat n1 = last R1) by (unfold n1; lia).
  assert (Hagree : forall i, lo <= i < pos R1 + Z.of_nat n1 ->
                     buf R1 (i mod MAX_BUF) = buf X (i mod MAX_BUF)).
  { intros i Hi. symmetry. apply refill_buf_other. intros j Hj.
    apply mod_distinct. fold m in Hcap. lia. }
  pose proof (for_loop_sim n1 lo (state R1) (pos R1) R1 X HI
                ltac:(lia) (eq_sym Xpar) Hagree) as Sim.
  pose proof (for_loop_frame of_int to_int step step_frame n1
                (state R1) (pos R1) R1) as F1.
  pose proof (for_loop_frame of_int to_int step step_frame n1
                (state R1) (pos R1) X) as FX.
  unfold run_with at 1 3 4 5. fold n1. rewrite Hn, Xs, Xp, for_loop_split.
  destruct (for_loop of_int to_int step n1 (state R1) (pos R1) R1)
    as [st1 pi1 r1'|pi1 p1 r1'|c1 r1'];
    destruct (for_loop of_int to_int step n1 (state R1) (pos R1) X)
      as [st2 pi2 x'|pi2 p2 x'|c2 x']; simpl in Sim; try contradiction.
  - destruct Sim as (<- & <- & Hpar & Hpi & HI1).
    destruct F1 as (_ & F1p & F1l & F1s & F1b).
    destruct FX as (_ & FXp & FXl & FXs & FXb).
    assert (Hpi1 : pi1 = last R1) by lia.
    set (r1 := set_state st1 (set_pos pi1 r1')).
    assert (HI1' : Inv lo st1 pi1 r1)
      by (apply (Inv_parsed lo st1 pi1 r1'); trivial).
    split; [|split; [exact HI1' | split; [exact Hpi1 | exact F1l]]].
    destruct (refill_fields D r1) as (Yp & Ys & Ypar & Yl).
    set (Y := refill r1 D) in *.
    assert (Hm : Z.to_nat (last Y - pos Y) = m).
    { rewrite Yl, Yp. unfold r1. simpl. rewrite F1l. unfold m. lia. }
    assert (HbY : buf Y = buf x').
    { rewrite FXb. unfold Y, X. apply refill_buf_eq.
      - unfold r1. simpl. exact F1b.
      - unfold r1. simpl. exact F1l. }
    assert (HparY : parsed Y = parsed x').
    { rewrite Ypar. unfold r1. rewrite <- Hpar. reflexivity. }
    pose proof (for_loop_sim m lo st1 pi1 Y x'
                  (Inv_parsed lo st1 pi1 r1 Y (eq_sym Ypar) HI1')
                  ltac:(lia) HparY
                  (fun i _ => f_equal (fun f => f (i mod MAX_BUF)) HbY))
      as Sim2.
    unfold run_with. rewrite Hm, Ys, Yp. unfold r1 at 1 2. simpl.
    destruct (for_loop of_int to_int step m st1 pi1 Y)
      as [st3 pi3 y'|pi3 p3 y'|c3 y'];
      destruct (for_loop of_int to_int step m st1 pi1 x')
        as [st4 pi4 x''|pi4 p4 x''|c4 x'']; simpl in Sim2; try contradiction.
    + destruct Sim2 as (<- & <- & Hp2 & _).
      unfold same_result; cbn [fst snd]. repeat split; trivial.
    + destruct Sim2 as (<- & <- & Hp2).
      destruct (done_sim y' x'' pi3 p3 Hp2) as (D1 & D2 & D3).
      unfold same_result; cbn [fst snd]. repeat split; trivial.
    + destruct Sim2 as (<- & Hp2).
      unfold same_result; cbn [fst snd]. repeat split; trivial.
  - destruct Sim as (<- & <- & Hpar).
    destruct (done_sim r1' x' pi1 p1 Hpar) as (D1 & D2 & D3).
    unfold same_result; cbn [fst snd]. repeat split; trivial.
  - destruct Sim as (<- & Hpar).
    unfold same_result; cbn [fst snd]. repeat split; trivial.
Qed.

(** Feeding the chunks one by one against a single call after all of them
    have arrived. *)
Lemma feed_sim : forall chunks lo r,
  lo <= pos r <= last r ->
  Inv lo (state r) (pos r) r ->
  last r + Z.of_nat (List.length (List.concat chunks)) - lo <= MAX_BUF ->
  same_result (feed (run_with of_int to_int step done) chunks r)
              (run_with of_int to_int step done (refill r (List.concat chunks))).
Proof.
  induction chunks as [|c rest IH]; intros lo r Hpos HI Hcap.
  - simpl. apply same_result_refl.
  - cbn [feed List.concat]. rewrite refill_app.
    destruct (refill_fields c r) as (Rp & Rs & Rpar & Rl).
    set (R1 := refill r c) in *.
    cbn [List.concat] in Hcap. rewrite length_app in Hcap.
    assert (Hpos1 : lo <= pos R1 <= last R1) by (rewrite Rp, Rl; lia).
    assert (HI1 : Inv lo (state R1) (pos R1) R1).
    { rewrite Rs, Rp. apply (Inv_parsed lo _ _ r); auto. }
    assert (Hcap1 : last R1 + Z.of_nat (List.length (List.concat rest)) - lo
                    <= MAX_BUF) by (rewrite Rl; lia).
    pose proof (resume_sim lo R1 (List.concat rest) Hpos1 HI1 Hcap1) as Two.
    destruct (run_with of_int to_int step done R1) as [o r1] eqn:Hrun.
    destruct o as [| |code]; try exact Two.
    destruct Two as (Two & HIr1 & Hp1 & Hl1).
    destruct rest as [|c2 rest'].
    + simpl. rewrite <- Hrun. apply same_result_refl.
    + eapply same_result_trans; [|exact Two].
      apply (IH lo r1); trivial; lia.
Qed.

End Resume.

(** ** The two parsers resume *)

Lemma parsed_fields : forall a b,
  parsed a = parsed b ->
  request_start a = request_start b /\ method a = method b /\
  uri_start a = uri_start b /\ uri_end a = uri_end b /\
  http_major a = http_major b /\ http_minor a = http_minor b /\
  request_end a = request_end b /\ hdr_list a = hdr_list b /\
  cur_header_key_start a = cur_header_key_start b /\
  cur_header_key_end a = cur_header_key_end b /\
  cur_header_value_start a = cur_header_value_start b /\
  cur_header_value_end a = cur_header_value_end b.
Proof.
  intros a b H. unfold parsed in H. inversion H. repeat split; assumption.
Qed.

Lemma line_run_with : forall r,
  RequestLine.run r =
  run_with RequestLine.of_int RequestLine.to_int RequestLine.step
    RequestLine.done r.
Proof. reflexivity. Qed.

Lemma body_run_with : forall r,
  RequestBody.run r =
  run_with RequestBody.of_int RequestBody.to_int RequestBody.step
    (fun r' pi _ => RequestBody.done r' pi) r.
Proof. reflexivity. Qed.

Lemma cst_strcmp_agree : forall mem mem' m c0 c1 c2 c3,
  (forall i, 0 <= i <= 3 -> mem (m + i) = mem' (m + i)) ->
  cst_strcmp mem m c0 c1 c2 c3 = cst_strcmp mem' m c0 c1 c2 c3.
Proof.
  intros mem mem' m c0 c1 c2 c3 H. unfold cst_strcmp, load_u32.
  rewrite (H 3), (H 2), (H 1) by lia.
  pose proof (H 0 ltac:(lia)) as H0. rewrite Z.add_0_r in H0.
  now rewrite H0.
Qed.

Lemma classify_method_sim : forall a b p,
  parsed a = parsed b ->
  (p - request_start a = 3 \/ p - request_start a = 4 ->
   forall i, 0 <= i <= 3 ->
     buf a (request_start a + i) = buf b (request_start a + i)) ->
  parsed (RequestLine.classify_method a p) =
  parsed (RequestLine.classify_method b p).
Proof.
  intros a b p Hpar Hbuf.
  pose proof (parsed_fields a b Hpar) as F.
  destruct F as (F1 & F2 & F3 & F4 & F5 & F6 & F7 & F8 & F9 & F10 & F11 & F12).
  unfold RequestLine.classify_method. rewrite <- F1.
  destruct (p - request_start a =? 3) eqn:E3.
  - apply Z.eqb_eq in E3.
    rewrite <- (cst_strcmp_agree (buf a) (buf b)) by (apply Hbuf; auto).
    destruct (cst_strcmp (buf a) _ _ _ _ _); unfold parsed; simpl; congruence.
  - destruct (p - request_start a =? 4) eqn:E4.
    + apply Z.eqb_eq in E4.
      rewrite <- !(cst_strcmp_agree (buf a) (buf b)) by (apply Hbuf; auto).
      destruct (cst_strcmp (buf a) _ "P" _ _ _);
        [|destruct (cst_strcmp (buf a) _ "H" _ _ _)];
        unfold parsed; simpl; congruence.
    + unfold parsed; simpl; congruence.
Qed.

(** The four bytes [cst_strcmp] loads lie among the bytes read since the
    method began. *)
Lemma method_bytes_read : forall pi k i,
  1 <= k ->
  pi mod MAX_BUF - (pi - k) mod MAX_BUF = 3 \/
  pi mod MAX_BUF - (pi - k) mod MAX_BUF = 4 ->
  0 <= i <= 3 ->
  pi - k <= pi - k + i <= pi /\
  (pi - k + i) mod MAX_BUF = (pi - k) mod MAX_BUF + i.
Proof.
  intros pi k i Hk Hd Hi.
  assert (Hp : 0 <= pi mod MAX_BUF < MAX_BUF)
    by (apply Z.mod_pos_bound; reflexivity).
  assert (Hm : 0 <= (pi - k) mod MAX_BUF < MAX_BUF)
    by (apply Z.mod_pos_bound; reflexivity).
  assert (Hkm : k mod MAX_BUF = pi mod MAX_BUF - (pi - k) mod MAX_BUF).
  { replace k with (pi - (pi - k)) at 1 by lia.
    rewrite Zminus_mod. apply Z.mod_small. unfold MAX_BUF in *. lia. }
  assert (Hle : k mod MAX_BUF <= k) by (apply Z.mod_le; unfold MAX_BUF; lia).
  split; [lia|].
  rewrite <- Zplus_mod_idemp_l. apply Z.mod_small. unfold MAX_BUF in *. lia.
Qed.

Lemma method_start_inv_parsed : forall lo st pi a b,
  parsed a = parsed b ->
  method_start_inv lo st pi a -> method_start_inv lo st pi b.
Proof.
  intros lo st pi a b Hpar H E. destruct (H E) as (k & H1 & H2 & H3).
  exists k. repeat split; trivial.
  destruct (parsed_fields a b Hpar) as (F1 & _). congruence.
Qed.

Lemma method_start_inv_skip : forall lo st pi a,
  RequestLine.of_int st = None ->
  method_start_inv lo st pi a -> method_start_inv lo st (pi + 1) a.
Proof. intros lo st pi a Hn _ E. subst st. discriminate. Qed.

Lemma line_step_sim : forall lo st s pi a b,
  RequestLine.of_int st = Some s -> method_start_inv lo st pi a -> lo <= pi ->
  parsed a = parsed b ->
  (forall i, lo <= i <= pi -> buf a (i mod MAX_BUF) = buf b (i mod MAX_BUF)) ->
  flow_sim (fun s' a' => method_start_inv lo (RequestLine.to_int s') (pi + 1) a')
    (RequestLine.step s a (pi mod MAX_BUF) (buf a (pi mod MAX_BUF)))
    (RequestLine.step s b (pi mod MAX_BUF) (buf a (pi mod MAX_BUF))).
Proof.
  intros lo st s pi a b Hs HI Hlo Hpar Hbuf.
  apply line_of_int_some in Hs. subst st.
  pose proof (parsed_fields a b Hpar) as F.
  destruct F as (F1 & F2 & F3 & F4 & F5 & F6 & F7 & F8 & F9 & F10 & F11 & F12).
  set (p := pi mod MAX_BUF). set (ch := buf a p).
  destruct s; cbn [RequestLine.step];
    try (rewrite <- ?F5, <- ?F6; split_ifs; simpl;
         repeat split; try (unfold parsed; simpl; congruence);
         intro E; discriminate E).
  - (* s_start *)
    split_ifs; simpl; repeat split; try (unfold parsed; simpl; congruence).
    + intro E; discriminate E.
    + intros _. exists 1. simpl. replace (pi + 1 - 1) with pi by lia.
      repeat split; trivial; lia.
  - (* s_method *)
    split_ifs; simpl; repeat split; try (unfold parsed; simpl; congruence).
    + apply classify_method_sim; trivial.
      intros Hd i Hi. destruct (HI eq_refl) as (k & Hk & Hlo' & Hm).
      rewrite Hm in Hd |- *. fold p in Hd. unfold p in Hd.
      destruct (method_bytes_read pi k i Hk Hd Hi) as (Hr & Hmod).
      rewrite <- Hmod. apply Hbuf. lia.
    + intro E; discriminate E.
    + intros _. destruct (HI eq_refl) as (k & Hk & Hlo' & Hm).
      exists (k + 1). replace (pi + 1 - (k + 1)) with (pi - k) by lia.
      repeat split; trivial; lia.
Qed.

Lemma line_done_sim : forall a b pi p,
  parsed a = parsed b ->
  parsed (RequestLine.done a pi p) = parsed (RequestLine.done b pi p) /\
  pos (RequestLine.done a pi p) = pos (RequestLine.done b pi p) /\
  state (RequestLine.done a pi p) = state (RequestLine.done b pi p).
Proof.
  intros a b pi p Hpar.
  pose proof (parsed_fields a b Hpar) as F.
  destruct F as (F1 & F2 & F3 & F4 & F5 & F6 & F7 & F8 & F9 & F10 & F11 & F12).
  unfold RequestLine.done. simpl. rewrite <- F7.
  destruct (request_end a) eqn:Ea; unfold parsed; simpl; repeat split;
    congruence.
Qed.

Lemma body_step_sim : forall lo st s pi a b,
  RequestBody.of_int st = Some s -> no_inv lo st pi a -> lo <= pi ->
  parsed a = parsed b ->
  (forall i, lo <= i <= pi -> buf a (i mod MAX_BUF) = buf b (i mod MAX_BUF)) ->
  flow_sim (fun s' a' => no_inv lo (RequestBody.to_int s') (pi + 1) a')
    (RequestBody.step s a (pi mod MAX_BUF) (buf a (pi mod MAX_BUF)))
    (RequestBody.step s b (pi mod MAX_BUF) (buf a (pi mod MAX_BUF))).
Proof.
  intros lo st s pi a b Hs _ Hlo Hpar Hbuf.
  pose proof (parsed_fields a b Hpar) as F.
  destruct F as (F1 & F2 & F3 & F4 & F5 & F6 & F7 & F8 & F9 & F10 & F11 & F12).
  destruct s; cbn [RequestBody.step]; unfold RequestBody.save_header;
    split_ifs; simpl; repeat split;
    try (unfold parsed; simpl; congruence).
Qed.

Lemma body_done_sim : forall a b pi (p : ptr),
  parsed a = parsed b ->
  parsed (RequestBody.done a pi) = parsed (RequestBody.done b pi) /\
  pos (RequestBody.done a pi) = pos (RequestBody.done b pi) /\
  state (RequestBody.done a pi) = state (RequestBody.done b pi).
Proof.
  intros a b pi p Hpar. unfold RequestBody.done, parsed in *. simpl.
  repeat split. exact Hpar.
Qed.

Lemma no_inv_parsed : forall lo st pi a b,
  parsed a = parsed b -> no_inv lo st pi a -> no_inv lo st pi b.
Proof. intros. exact I. Qed.

Lemma no_inv_skip : forall lo st pi a,
  RequestBody.of_int st = None -> no_inv lo st pi a -> no_inv lo st (pi + 1) a.
Proof. intros. exact I. Qed.

(** C1, as the code has it.  Let the bytes of a stream arrive in chunks on
    a connection whose ring can hold them beside its unread bytes.  Calling
    a parser after each chunk, and again after each [EAGAIN] of exhausted
    input, ends as one call after the whole stream has arrived: the same
    exit (success, [EAGAIN], or the same error code) and the same parsed
    fields; the same [pos] and [state] too unless the exit is an error.
    This holds of the request-line parser started in [s_start] and of the
    header parser started in any state. *)
Theorem chunked_parse_agrees_with_single : forall chunks r,
  pos r <= last r ->
  last r - pos r + Z.of_nat (List.length (List.concat chunks)) <= MAX_BUF ->
  (state r = RequestLine.to_int RequestLine.s_start ->
   same_result (feed RequestLine.run chunks r)
               (RequestLine.run (refill r (List.concat chunks)))) /\
  same_result (feed RequestBody.run chunks r)
              (RequestBody.run (refill r (List.concat chunks))).
Proof.
  intros chunks r Hpos Hcap. split.
  - intro Hst.
    apply (feed_sim RequestLine.of_int RequestLine.to_int RequestLine.step
             RequestLine.done method_start_inv line_step_frame
             method_start_inv_parsed method_start_inv_skip line_step_sim
             line_done_sim chunks (pos r) r).
    + lia.
    + intro E. rewrite Hst in E. discriminate E.
    + lia.
  - apply (feed_sim RequestBody.of_int RequestBody.to_int RequestBody.step
             (fun r' pi _ => RequestBody.done r' pi) no_inv body_step_frame
             no_inv_parsed no_inv_skip body_step_sim body_done_sim
             chunks (pos r) r).
    + lia.
    + exact I.
    + lia.
Qed.

(** The fifth scenario of the specification: [GE] arrives, then the rest of
    the request. *)
Lemma chunked_parse_agrees_with_single_witness :
  same_result
    (feed RequestLine.run
       [list_ascii_of_string "GE"; second_read]
       (init_http_request blank 5 3 "./www"))
    (RequestLine.run
       (refill (init_http_request blank 5 3 "./www")
          (List.concat [list_ascii_of_string "GE"; second_read]))) /\
  same_result
    (feed RequestBody.run
       [list_ascii_of_string "Host: x"; list_ascii_of_string (CRLF ++ CRLF)]
       (init_http_request blank 5 3 "./www"))
    (RequestBody.run
       (refill (init_http_request blank 5 3 "./www")
          (List.concat
             [list_ascii_of_string "Host: x";
              list_ascii_of_string (CRLF ++ CRLF)]))).
Proof.
  assert (Hpos : pos (init_http_request blank 5 3 "./www")
                 <= last (init_http_request blank 5 3 "./www"))
    by (vm_compute; discriminate).
  destruct (chunked_parse_agrees_with_single
              [list_ascii_of_string "GE"; second_read]
              (init_http_request blank 5 3 "./www") Hpos
              ltac:(vm_compute; discriminate)) as [HL _].
  destruct (chunked_parse_agrees_with_single
              [list_ascii_of_string "Host: x";
               list_ascii_of_string (CRLF ++ CRLF)]
              (init_http_request blank 5 3 "./www") Hpos
              ltac:(vm_compute; discriminate)) as [_ HB].
  exact (conj (HL eq_refl) HB).
Defined.

(** C1 as stated fails on the terminal offset of a rejected stream: both
    ways of feeding [GEt /] end with [HTTP_PARSER_INVALID_METHOD], but the
    single call leaves [pos] and [state] at [0], while after the chunks
    [GE] and [t /] they are at [2] and [s_method], where the first call
    saved them. *)
Lemma chunked_error_keeps_resume_point :
  fst (feed RequestLine.run
         [list_ascii_of_string "GE"; list_ascii_of_string "t /"]
         (init_http_request blank 5 3 "./www"))
    = Failed HTTP_PARSER_INVALID_METHOD /\
  fst (RequestLine.run
         (refill (init_http_request blank 5 3 "./www")
            (List.concat [list_ascii_of_string "GE"; list_ascii_of_string "t /"])))
    = Failed HTTP_PARSER_INVALID_METHOD /\
  pos (snd (feed RequestLine.run
              [list_ascii_of_string "GE"; list_ascii_of_string "t /"]
              (init_http_request blank 5 3 "./www"))) = 2 /\
  pos (snd (RequestLine.run
              (refill (init_http_request blank 5 3 "./www")
                 (List.concat
                    [list_ascii_of_string "GE"; list_ascii_of_string "t /"]))))
    = 0 /\
  pos (snd (feed RequestLine.run
              [list_ascii_of_string "GE"; list_ascii_of_string "t /"]
              (init_http_request blank 5 3 "./www")))
  <> pos (snd (RequestLine.run
                 (refill (init_http_request blank 5 3 "./www")
                    (List.concat
                       [list_ascii_of_string "GE";
                        list_ascii_of_string "t /"])))).
Proof.
  assert (A : pos (snd (feed RequestLine.run
              [list_ascii_of_string "GE"; list_ascii_of_string "t /"]
              (init_http_request blank 5 3 "./www"))) = 2)
    by (vm_compute; reflexivity).
  assert (B : pos (snd (RequestLine.run
              (refill (init_http_request blank 5 3 "./www")
                 (List.concat
                    [list_ascii_of_string "GE"; list_ascii_of_string "t /"]))))
              = 0)
    by (vm_compute; reflexivity).
  split; [vm_compute; reflexivity|]. split; [vm_compute; reflexivity|].
  split; [exact A|]. split; [exact B|].
  rewrite A, B. discriminate.
Qed.

Example chunked_request_line_fields :
  let r' := snd (feed RequestLine.run
                   [list_ascii_of_string "GE"; second_read]
                   (init_http_request blank 5 3 "./www")) in
  (method r', http_major r', http_minor r', pos r', state r')
    = (HTTP_GET, 1, 0, 16, 0).
Proof. vm_compute. reflexivity. Qed.

(** * Further properties of the code *)

(** ** The driver's reads and the ring *)

Lemma remain_size_bounds : forall r,
  ring_invariant r ->
  0 <= remain_size r /\
  remain_size r <= MAX_BUF - size_sub (last r) (pos r) - 1 /\
  remain_size r <= MAX_BUF - last r mod MAX_BUF.
Proof.
  intros r H. destruct (remain_size_value r H) as [E [H0 H1]].
  split; [exact H0|]. split; [exact H1|].
  rewrite E. unfold MIN. destruct (_ <? _) eqn:L; [|lia].
  apply Z.ltb_lt in L. lia.
Qed.

Lemma read_into_data : forall r avail,
  read_into r avail =
  (Z.of_nat (List.length (firstn (Z.to_nat (remain_size r)) avail)),
   set_last
     (size_wrap
        (last r +
         Z.of_nat (List.length (firstn (Z.to_nat (remain_size r)) avail))))
     (set_buf
        (store_bytes (buf r) (last r mod MAX_BUF)
           (firstn (Z.to_nat (remain_size r)) avail)) r)).
Proof. reflexivity. Qed.

Lemma store_bytes_outside : forall mem p data off,
  off < p \/ p + Z.of_nat (List.length data) <= off ->
  store_bytes mem p data off = mem off.
Proof.
  intros mem p data off H. unfold store_bytes.
  destruct (p <=? off) eqn:A; simpl; trivial.
  destruct (off <? p + Z.of_nat (List.length data)) eqn:B; trivial.
  apply Z.leb_le in A. apply Z.ltb_lt in B. lia.
Qed.

(** X1.  A [read] of the driver stores nothing over the bytes the parsers have
    yet to see: the places in the ring of the indices from [pos] to [last]
    hold after the read what they held before. *)
Theorem read_keeps_unread_bytes : forall r avail n r' i,
  size_ok r -> ring_invariant r -> pos r <= last r ->
  read_into r avail = (n, r') ->
  pos r <= i < last r ->
  buf r' (i mod MAX_BUF) = buf r (i mod MAX_BUF).
Proof.
  intros r avail n r' i [Hp Hl] Hring Hle Hread Hi.
  destruct (remain_size_bounds r Hring) as (R0 & Ra & Rb).
  unfold size_sub in Ra.
  rewrite size_wrap_small in Ra
    by (change (2 ^ 64) with 18446744073709551616 in *; lia).
  rewrite read_into_data in Hread. inversion Hread as [[Hn Hr]]. clear Hread.
  set (data := firstn (Z.to_nat (remain_size r)) avail) in *.
  assert (Hlen : Z.of_nat (List.length data) <= remain_size r).
  { unfold data. rewrite length_firstn. lia. }
  simpl.
  assert (Hm : 0 <= last r mod MAX_BUF < MAX_BUF)
    by (apply Z.mod_pos_bound; reflexivity).
  assert (Hi' : 0 <= i mod MAX_BUF < MAX_BUF)
    by (apply Z.mod_pos_bound; reflexivity).
  apply store_bytes_outside.
  destruct (Z_lt_dec (i mod MAX_BUF) (last r mod MAX_BUF)) as [|Hge];
    [now left|].
  destruct (Z_le_dec (last r mod MAX_BUF + Z.of_nat (List.length data))
                     (i mod MAX_BUF)) as [|Hlt]; [now right|].
  exfalso.
  set (j := i mod MAX_BUF - last r mod MAX_BUF).
  assert (Hj : 0 <= j < Z.of_nat (List.length data)) by (unfold j; lia).
  assert (E : (last r + j) mod MAX_BUF = i mod MAX_BUF).
  { rewrite <- Zplus_mod_idemp_l. rewrite Z.mod_small; unfold j; lia. }
  revert E. apply mod_distinct. lia.
Qed.

Lemma read_keeps_unread_bytes_witness :
  buf (snd (read_into (conn_of_string "GE") second_read)) (0 mod MAX_BUF)
    = "G"%char /\
  buf (snd (read_into (conn_of_string "GE") second_read)) (1 mod MAX_BUF)
    = "E"%char.
Proof.
  assert (S : size_ok (conn_of_string "GE"))
    by (vm_compute; repeat split; discriminate).
  assert (R : ring_invariant (conn_of_string "GE"))
    by (vm_compute; split; [discriminate | reflexivity]).
  assert (L : pos (conn_of_string "GE") <= last (conn_of_string "GE"))
    by (vm_compute; discriminate).
  split.
  - rewrite (read_keeps_unread_bytes (conn_of_string "GE") second_read
               (fst (read_into (conn_of_string "GE") second_read))
               (snd (read_into (conn_of_string "GE") second_read)) 0 S R L
               eq_refl).
    + vm_compute. reflexivity.
    + vm_compute. split; [discriminate | reflexivity].
  - rewrite (read_keeps_unread_bytes (conn_of_string "GE") second_read
               (fst (read_into (conn_of_string "GE") second_read))
               (snd (read_into (conn_of_string "GE") second_read)) 1 S R L
               eq_refl).
    + vm_compute. reflexivity.
    + vm_compute. split; [discriminate | reflexivity].
Defined.

Lemma store_bytes_nil : forall mem p off, store_bytes mem p [] off = mem off.
Proof.
  intros mem p off. apply store_bytes_outside. cbn [List.length]. lia.
Qed.

Lemma store_bytes_cons : forall mem p c d off,
  store_bytes mem p (c :: d) off = store_bytes (store mem p c) (p + 1) d off.
Proof.
  intros mem p c d off. unfold store_bytes, store.
  replace (Z.of_nat (List.length (c :: d)))
    with (Z.of_nat (List.length d) + 1) by (cbn [List.length]; lia).
  destruct (Z.eq_dec off p) as [->|Hne].
  - replace (p <=? p) with true by (symmetry; apply Z.leb_le; lia).
    replace (p <? p + (Z.of_nat (List.length d) + 1)) with true
      by (symmetry; apply Z.ltb_lt; lia).
    replace (p + 1 <=? p) with false by (symmetry; apply Z.leb_gt; lia).
    cbn [andb]. rewrite Z.sub_diag, Z.eqb_refl. reflexivity.
  - replace (off =? p) with false by (symmetry; apply Z.eqb_neq; exact Hne).
    destruct (Z_lt_dec off p) as [Hlt|Hge].
    + replace (p <=? off) with false by (symmetry; apply Z.leb_gt; lia).
      replace (p + 1 <=? off) with false by (symmetry; apply Z.leb_gt; lia).
      reflexivity.
    + replace (p <=? off) with true by (symmetry; apply Z.leb_le; lia).
      replace (p + 1 <=? off) with true by (symmetry; apply Z.leb_le; lia).
      replace (off <? p + (Z.of_nat (List.length d) + 1))
        with (off <? p + 1 + Z.of_nat (List.length d)) by (f_equal; lia).
      cbn [andb].
      destruct (off <? p + 1 + Z.of_nat (List.length d)); trivial.
      replace (Z.to_nat (off - p)) with (S (Z.to_nat (off - (p + 1)))) by lia.
      reflexivity.
Qed.

Lemma refill_buf_contiguous : forall data r off,
  0 <= last r ->
  last r mod MAX_BUF + Z.of_nat (List.length data) <= MAX_BUF ->
  buf (refill r data) off = store_bytes (buf r) (last r mod MAX_BUF) data off.
Proof.
  induction data as [|c data IH]; intros r off Hl Hfit.
  - now rewrite store_bytes_nil.
  - rewrite refill_cons, store_bytes_cons.
    assert (Hm : 0 <= last r mod MAX_BUF < MAX_BUF)
      by (apply Z.mod_pos_bound; reflexivity).
    cbn [List.length] in Hfit.
    destruct data as [|c' data'].
    + rewrite store_bytes_nil. reflexivity.
    + assert (Hnext : last (push r c) mod MAX_BUF = last r mod MAX_BUF + 1).
      { change (last (push r c)) with (last r + 1).
        rewrite <- Zplus_mod_idemp_l. apply Z.mod_small.
        cbn [List.length] in Hfit. lia. }
      rewrite IH.
      * rewrite Hnext. reflexivity.
      * change (last (push r c)) with (last r + 1). lia.
      * rewrite Hnext. cbn [List.length] in *. lia.
Qed.

(** X2.  The [read] of the driver, which stores what it reads in one piece at
    [&r->buf[r->last % MAX_BUF]], puts every byte where ring indexing looks
    for it: at [(last + j) % MAX_BUF] for the [j]-th byte.  All the fields
    but the buffer and [last] are left alone. *)
Theorem read_into_is_refill : forall r avail n r' off,
  0 <= last r ->
  read_into r avail = (n, r') ->
  last r + n < 2 ^ 64 ->
  let data := firstn (Z.to_nat (remain_size r)) avail in
  n = Z.of_nat (List.length data) /\
  last r' = last (refill r data) /\
  pos r' = pos r /\ state r' = state r /\ parsed r' = parsed r /\
  buf r' off = buf (refill r data) off.
Proof.
  intros r avail n r' off Hl Hread Hno data.
  rewrite read_into_data in Hread. fold data in Hread.
  inversion Hread as [[Hn Hr]]. clear Hread.
  destruct (refill_fields data r) as (Fp & Fs & Fpar & Fl).
  rewrite Fl. simpl.
  assert (Hm : 0 <= last r mod MAX_BUF < MAX_BUF)
    by (apply Z.mod_pos_bound; reflexivity).
  assert (Hfit : last r mod MAX_BUF + Z.of_nat (List.length data) <= MAX_BUF).
  { assert (Hb : remain_size r <= MAX_BUF - last r mod MAX_BUF).
    { unfold remain_size, MIN.
      rewrite (size_wrap_small (MAX_BUF - last r mod MAX_BUF))
        by (unfold MAX_BUF in *;
            change (2 ^ 64) with 18446744073709551616; lia).
      destruct (_ <? _) eqn:L; [apply Z.ltb_lt in L|]; lia. }
    unfold data. rewrite length_firstn. lia. }
  repeat split; trivial.
  - apply size_wrap_small. lia.
  - symmetry. now apply refill_buf_contiguous.
Qed.

Lemma read_into_is_refill_witness :
  last (snd (read_into (conn_of_string "GE") second_read)) =
    last (refill (conn_of_string "GE") second_read) /\
  buf (snd (read_into (conn_of_string "GE") second_read)) 2 =
    buf (refill (conn_of_string "GE") second_read) 2.
Proof.
  destruct (read_into_is_refill (conn_of_string "GE") second_read
              (fst (read_into (conn_of_string "GE") second_read))
              (snd (read_into (conn_of_string "GE") second_read)) 2
              ltac:(vm_compute; discriminate) eq_refl
              ltac:(vm_compute; reflexivity))
    as (_ & Hlast & _ & _ & _ & Hbuf).
  split; [exact Hlast | exact Hbuf].
Defined.

(** X3.  With [MAX_BUF - 1] unread bytes in the ring [remain_size] is zero, the
    [read] returns [0] whatever the socket holds, and the driver takes it
    for the end of the stream: the connection is closed without a
    response. *)
Theorem full_ring_closes : forall sm sl stat contents r filename o0 avail,
  ring_invariant r ->
  size_sub (last r) (pos r) = MAX_BUF - 1 ->
  remain_size r = 0 /\
  do_request_iter sm sl stat contents r filename o0 (SockData avail)
    = Close "".
Proof.
  intros sm sl stat contents r filename o0 avail Hring Hfull.
  destruct (remain_size_bounds r Hring) as (R0 & Ra & _).
  assert (E : remain_size r = 0) by lia.
  split; [exact E|].
  unfold do_request_iter. rewrite read_into_data, E. reflexivity.
Qed.

Lemma full_ring_closes_witness :
  do_request_iter no_date epoch_date no_file no_contents
    (set_last (MAX_BUF - 1) (init_http_request blank 5 3 "./www")) ""
    fresh_out (SockData second_read) = Close "".
Proof.
  apply (full_ring_closes no_date epoch_date no_file no_contents
           (set_last (MAX_BUF - 1) (init_http_request blank 5 3 "./www")) ""
           fresh_out second_read).
  - vm_compute. split; [discriminate | reflexivity].
  - vm_compute. reflexivity.
Defined.

(** X4.  [HTTP_PARSER_INVALID_REQUEST] and [EAGAIN] are the same number, and the
    driver tests for [EAGAIN] first: when the request-line parser rejects
    what has been read with [HTTP_PARSER_INVALID_REQUEST], the iteration
    ends in [continue] with nothing sent, the connection stays open, and
    [pos] and [state] are where they were before the call. *)
Theorem invalid_request_is_taken_for_eagain :
  forall sm sl stat contents r filename o0 avail n r1 r2,
  read_into r avail = (n, r1) -> n <> 0 ->
  RequestLine.run r1 = (Failed HTTP_PARSER_INVALID_REQUEST, r2) ->
  HTTP_PARSER_INVALID_REQUEST = EAGAIN /\
  do_request_iter sm sl stat contents r filename o0 (SockData avail)
    = Continue r2 filename "" /\
  pos r2 = pos r /\ state r2 = state r.
Proof.
  intros sm sl stat contents r filename o0 avail n r1 r2 Hread Hn Hrun.
  split; [reflexivity|].
  pose proof (for_loop_frame RequestLine.of_int RequestLine.to_int
                RequestLine.step line_step_frame
                (Z.to_nat (last r1 - pos r1)) (state r1) (pos r1) r1) as F.
  unfold do_request_iter, http_parse_request_line. rewrite Hread, Hrun.
  destruct (n =? 0) eqn:E; [apply Z.eqb_eq in E; contradiction|].
  split; [reflexivity|].
  unfold RequestLine.run in Hrun.
  destruct (for_loop _ _ _ _ _ _ _) as [st' pi' rc|pi' p rc|c rc];
    inversion Hrun; subst.
  destruct F as (Fp & Fl & Fs & Fb).
  rewrite read_into_data in Hread. inversion Hread; subst.
  split; [rewrite Fp | rewrite Fs]; reflexivity.
Qed.

Lemma invalid_request_is_taken_for_eagain_witness :
  do_request_iter no_date epoch_date no_file no_contents
    (init_http_request blank 5 3 "./www") "" fresh_out
    (SockData (list_ascii_of_string "GET x"))
  = Continue
      (snd (RequestLine.run
              (snd (read_into (init_http_request blank 5 3 "./www")
                      (list_ascii_of_string "GET x")))))
      "" "".
Proof.
  apply (invalid_request_is_taken_for_eagain no_date epoch_date no_file
           no_contents (init_http_request blank 5 3 "./www") "" fresh_out
           (list_ascii_of_string "GET x")
           (fst (read_into (init_http_request blank 5 3 "./www")
                   (list_ascii_of_string "GET x")))
           (snd (read_into (init_http_request blank 5 3 "./www")
                   (list_ascii_of_string "GET x")))
           (snd (RequestLine.run
                   (snd (read_into (init_http_request blank 5 3 "./www")
                           (list_ascii_of_string "GET x")))))
           eq_refl).
  - vm_compute. discriminate.
  - vm_compute. reflexivity.
Defined.

(** ** What the parsers leave alone *)

Section LoopKeeps.

Context {St T : Type}.
Variable of_int : Z -> option St.
Variable to_int : St -> Z.
Variable step : St -> http_request_t -> ptr -> ascii -> flow St.
Variable F : http_request_t -> T.
Hypothesis step_keeps : forall s r p ch, flow_keeps F r (step s r p ch).

Lemma for_loop_keeps : forall n st pi r,
  match for_loop of_int to_int step n st pi r with
  | Exhausted _ _ r' | JumpDone _ _ r' | Returned _ r' => F r' = F r
  end.
Proof.
  induction n as [|n IH]; intros st pi r; cbn [for_loop]; trivial.
  destruct (of_int st) as [s|]; [|apply IH].
  pose proof (step_keeps s r (pi mod MAX_BUF) (buf r (pi mod MAX_BUF))) as K.
  destruct (step s r (pi mod MAX_BUF) (buf r (pi mod MAX_BUF)))
    as [s' r'|r'|c r']; simpl in K; trivial.
  specialize (IH (to_int s') (pi + 1) r').
  destruct (for_loop of_int to_int step n (to_int s') (pi + 1) r');
    congruence.
Qed.

End LoopKeeps.

Lemma line_step_keeps : forall s r p ch,
  flow_keeps (fun x => (header_fields x, conn_fields x)) r
    (RequestLine.step s r p ch).
Proof.
  intros s r p ch.
  destruct s; unfold RequestLine.step, RequestLine.classify_method;
    split_ifs; reflexivity.
Qed.

Lemma body_step_keeps : forall s r p ch,
  flow_keeps (fun x => (line_fields x, conn_fields x)) r
    (RequestBody.step s r p ch).
Proof.
  intros s r p ch.
  destruct s; unfold RequestBody.step; split_ifs; reflexivity.
Qed.

(** X5.  The request-line parser never touches the header list or the scratch
    fields of the header parser, the header parser never touches what the
    request-line parser has stored (method, URI, version, the ends of the
    line), and neither touches the buffer, [last], [root], the descriptors
    or the timer. *)
Theorem parsers_keep_to_their_fields : forall r,
  header_fields (snd (http_parse_request_line r)) = header_fields r /\
  conn_fields (snd (http_parse_request_line r)) = conn_fields r /\
  line_fields (snd (http_parse_request_body r)) = line_fields r /\
  conn_fields (snd (http_parse_request_body r)) = conn_fields r.
Proof.
  intro r.
  pose proof (for_loop_keeps RequestLine.of_int RequestLine.to_int
                RequestLine.step _ line_step_keeps
                (Z.to_nat (last r - pos r)) (state r) (pos r) r) as L.
  pose proof (for_loop_keeps RequestBody.of_int RequestBody.to_int
                RequestBody.step _ body_step_keeps
                (Z.to_nat (last r - pos r)) (state r) (pos r) r) as B.
  unfold http_parse_request_line, http_parse_request_body,
    RequestLine.run, RequestBody.run.
  destruct (for_loop RequestLine.of_int _ _ _ _ _ _) as [s1 p1 a|p1 q1 a|c1 a];
    destruct (for_loop RequestBody.of_int _ _ _ _ _ _) as [s2 p2 b|p2 q2 b|c2 b];
    cbn [snd]; inversion L; inversion B;
    unfold RequestLine.done, RequestBody.done;
    try destruct (request_end (set_pos (p1 + 1) a));
    unfold header_fields, conn_fields, line_fields in *; simpl;
    repeat split; congruence.
Qed.

(** ** Blank lines before a request *)

Lemma line_loop_blank : forall n pi r,
  (forall i, pi <= i < pi + Z.of_nat n ->
     byte_at r i = CR \/ byte_at r i = LF) ->
  exists r',
    for_loop RequestLine.of_int RequestLine.to_int RequestLine.step n 0 pi r
      = Exhausted 0 (pi + Z.of_nat n) r' /\
    buf r' = buf r /\ header_fields r' = header_fields r /\
    (method r', uri_start r', uri_end r', http_major r', http_minor r',
     request_end r')
    = (method r, uri_start r, uri_end r, http_major r, http_minor r,
       request_end r).
Proof.
  induction n as [|n IH]; intros pi r H.
  - exists r. simpl. rewrite Z.add_0_r. auto.
  - cbn [for_loop].
    change (RequestLine.of_int 0) with (Some RequestLine.s_start).
    cbn [RequestLine.step].
    assert (Hc : ch_eq (buf (set_request_start (pi mod MAX_BUF) r)
                          (pi mod MAX_BUF)) CR
                 || ch_eq (buf (set_request_start (pi mod MAX_BUF) r)
                             (pi mod MAX_BUF)) LF = true).
    { simpl. destruct (H pi ltac:(lia)) as [E|E]; unfold byte_at in E;
        rewrite E; reflexivity. }
    simpl in Hc. rewrite Hc.
    change (RequestLine.to_int RequestLine.s_start) with 0.
    destruct (IH (pi + 1) (set_request_start (pi mod MAX_BUF) r))
      as (r' & E & Hb & Hh & Hf).
    { intros i Hi. unfold byte_at. simpl. apply H. lia. }
    exists r'. rewrite E. split; [f_equal; lia|]. auto.
Qed.

Lemma body_loop_blank : forall n pi r,
  (forall i, pi <= i < pi + Z.of_nat n ->
     byte_at r i = CR \/ byte_at r i = LF) ->
  for_loop RequestBody.of_int RequestBody.to_int RequestBody.step n 0 pi r
    = Exhausted 0 (pi + Z.of_nat n) r.
Proof.
  induction n as [|n IH]; intros pi r H.
  - simpl. now rewrite Z.add_0_r.
  - cbn [for_loop].
    change (RequestBody.of_int 0) with (Some RequestBody.s_start).
    cbn [RequestBody.step].
    assert (Hc : ch_eq (buf r (pi mod MAX_BUF)) CR
                 || ch_eq (buf r (pi mod MAX_BUF)) LF = true).
    { destruct (H pi ltac:(lia)) as [E|E]; unfold byte_at in E;
        rewrite E; reflexivity. }
    rewrite Hc. change (RequestBody.to_int RequestBody.s_start) with 0.
    rewrite IH by (intros i Hi; apply H; lia).
    f_equal. lia.
Qed.

(** X6.  Both parsers, at the start of a request line or of a header block, pass
    over CR and LF bytes: when the unread bytes are all CR or LF the call
    returns [EAGAIN] with every one of them consumed and the parser still
    in its start state.  The header parser changes nothing but [pos]; the
    request-line parser also moves [request_start]. *)
Theorem blank_lines_are_skipped : forall r,
  state r = 0 -> pos r <= last r ->
  (forall i, pos r <= i < last r -> byte_at r i = CR \/ byte_at r i = LF) ->
  (exists r',
     http_parse_request_line r = (EAGAIN, r') /\
     pos r' = last r /\ state r' = 0 /\
     header_fields r' = header_fields r /\
     (method r', uri_start r', uri_end r', http_major r', http_minor r',
      request_end r')
     = (method r, uri_start r, uri_end r, http_major r, http_minor r,
        request_end r)) /\
  http_parse_request_body r = (EAGAIN, set_pos (last r) r).
Proof.
  intros r Hst Hle Hblank.
  assert (Hn : pos r + Z.of_nat (Z.to_nat (last r - pos r)) = last r) by lia.
  split.
  - destruct (line_loop_blank (Z.to_nat (last r - pos r)) (pos r) r)
      as (r' & E & Hb & Hh & Hf).
    { intros i Hi. apply Hblank. lia. }
    unfold http_parse_request_line, RequestLine.run. rewrite Hst, E, Hn.
    eexists. split; [reflexivity|]. simpl. auto.
  - unfold http_parse_request_body, RequestBody.run.
    rewrite Hst, body_loop_blank, Hn by (intros i Hi; apply Hblank; lia).
    simpl. f_equal. rewrite <- Hst. destruct r; reflexivity.
Qed.

Lemma blank_lines_are_skipped_witness :
  http_parse_request_body (conn_of_string (CRLF ++ CRLF ++ NL)) =
  (EAGAIN, set_pos 5 (conn_of_string (CRLF ++ CRLF ++ NL))).
Proof.
  apply (blank_lines_are_skipped (conn_of_string (CRLF ++ CRLF ++ NL))).
  - reflexivity.
  - vm_compute. discriminate.
  - intros i Hi.
    assert (C : i = 0 \/ i = 1 \/ i = 2 \/ i = 3 \/ i = 4)
      by (change (pos (conn_of_string (CRLF ++ CRLF ++ NL))) with 0 in Hi;
          change (last (conn_of_string (CRLF ++ CRLF ++ NL))) with 5 in Hi;
          lia).
    destruct C as [->|[->|[->|[->| ->]]]];
      (left; reflexivity) || (right; reflexivity).
Defined.

(** ** The exits of the header parser *)

Lemma body_of_int_none : forall z,
  RequestBody.of_int z = None -> z <> 7.
Proof. intros z H E. subst z. discriminate. Qed.

Lemma body_inv_skip : forall r st pi rc,
  RequestBody.of_int st = None -> body_inv r st pi rc ->
  body_inv r st (pi + 1) rc.
Proof.
  intros r st pi rc Hn (Hb & Hp & H1).
  pose proof (body_of_int_none _ Hn) as N7.
  unfold body_inv. repeat split; trivial; try lia.
  intros _ E. simpl in E. contradiction.
Qed.

Lemma body_inv_break : forall r st s pi rc s' r',
  RequestBody.of_int st = Some s -> body_inv r st pi rc ->
  RequestBody.step s rc (pi mod MAX_BUF) (buf rc (pi mod MAX_BUF)) = Break s' r' ->
  body_inv r (RequestBody.to_int s') (pi + 1) r'.
Proof.
  intros r st s pi rc s' r' Hs (Hb & Hp & H1) Hstep.
  pose proof (body_step_frame s rc (pi mod MAX_BUF) (buf rc (pi mod MAX_BUF))) as F.
  rewrite Hstep in F. destruct F as (_ & _ & _ & Fb).
  rewrite Hb in Hstep.
  unfold body_inv. replace (pi + 1 - 1) with pi by lia.
  split; [congruence|]. split; [lia|]. intros _ E.
  unfold byte_at.
  destruct s; unfold RequestBody.step in Hstep; split_ifs_in Hstep;
    inversion Hstep; subst s' r'; try discriminate E.
  now apply ch_eq_true.
Qed.

Lemma body_step_done : forall s rc p ch r',
  RequestBody.step s rc p ch = GotoDone r' ->
  ch = LF /\ s = RequestBody.s_crlfcr /\ r' = rc.
Proof.
  intros s rc p ch r' H.
  destruct s; unfold RequestBody.step in H; split_ifs_in H; inversion H; subst.
  split; [now apply ch_eq_true | auto].
Qed.

Lemma body_step_return : forall s rc p ch code r',
  RequestBody.step s rc p ch = Return code r' ->
  code = HTTP_PARSER_INVALID_HEADER.
Proof.
  intros s rc p ch code r' H.
  destruct s; unfold RequestBody.step in H; split_ifs_in H; inversion H;
    reflexivity.
Qed.

(** X7.  A call of the header parser on a connection with [pos <= last] ends in
    one of three ways.  It returns [0] with [pos] one past a line feed and
    [state] back at [s_start]; the byte before that line feed, if the call
    read it, is a CR: a bare LF never ends the header block.  Or it returns
    [EAGAIN] with [pos] at [last].  Or it returns
    [HTTP_PARSER_INVALID_HEADER], the only error it has, and leaves [pos]
    and [state] untouched. *)
Theorem header_parser_exits : forall r o r',
  pos r <= last r ->
  RequestBody.run r = (o, r') ->
  http_parse_request_body r = (retcode o, r') /\
  match o with
  | Done =>
      pos r < pos r' <= last r /\
      state r' = RequestBody.to_int RequestBody.s_start /\
      byte_at r (pos r' - 1) = LF /\
      (pos r < pos r' - 1 -> byte_at r (pos r' - 2) = CR)
  | Again => pos r' = last r
  | Failed code =>
      code = HTTP_PARSER_INVALID_HEADER /\
      pos r' = pos r /\ state r' = state r
  end.
Proof.
  intros r o r' Hle Hrun.
  split; [unfold http_parse_request_body; now rewrite Hrun|].
  unfold RequestBody.run in Hrun.
  pose proof (for_loop_invariant RequestBody.of_int RequestBody.to_int
                RequestBody.step (body_inv r) (body_inv_skip r)
                (body_inv_break r)
                (Z.to_nat (last r - pos r)) (state r) (pos r) r) as L.
  pose proof (for_loop_frame RequestBody.of_int RequestBody.to_int
                RequestBody.step body_step_frame
                (Z.to_nat (last r - pos r)) (state r) (pos r) r) as F.
  assert (I0 : body_inv r (state r) (pos r) r).
  { unfold body_inv. repeat split; trivial; lia. }
  specialize (L I0).
  destruct (for_loop _ _ _ _ _ _ _) as [st' pi' rc|pi' p rc|c rc];
    inversion Hrun; subst o r'; clear Hrun.
  - destruct L as [Hpi _]. simpl. lia.
  - destruct L as (Hr & Hp & st' & s & r0 & Hs & (Hb & Hp0 & H1) & Hstep).
    apply body_of_int_some in Hs.
    apply body_step_done in Hstep as (Hch & -> & ->).
    rewrite Hb in Hch. simpl.
    replace (pi' + 1 - 1) with pi' by lia.
    replace (pi' + 1 - 2) with (pi' - 1) by lia.
    split; [lia|]. split; [reflexivity|].
    split; [unfold byte_at; subst p; exact Hch|].
    intro Hlt. apply H1; [lia | exact Hs].
  - destruct L as (pi' & st' & s & r0 & _ & _ & _ & Hstep).
    destruct F as (Fp & Fl & Fs & Fb).
    apply body_step_return in Hstep. auto.
Qed.

Lemma header_parser_exits_witness :
  http_parse_request_body (conn_of_string ("Host: x" ++ CRLF ++ CRLF)) =
    (0, snd (RequestBody.run (conn_of_string ("Host: x" ++ CRLF ++ CRLF)))) /\
  pos (snd (RequestBody.run (conn_of_string ("Host: x" ++ CRLF ++ CRLF))))
    <= 11.
Proof.
  destruct (header_parser_exits
              (conn_of_string ("Host: x" ++ CRLF ++ CRLF)) Done
              (snd (RequestBody.run (conn_of_string ("Host: x" ++ CRLF ++ CRLF))))
              ltac:(vm_compute; discriminate)
              ltac:(vm_compute; reflexivity))
    as (Hcall & Hpos & _).
  split; [exact Hcall|]. exact (proj2 Hpos).
Defined.

(** ** The tokens of the request line *)







(** ** The slices of the saved headers *)







(** ** The four-byte comparison *)





(** ** What the header handlers do to the response state *)

Lemma out_raised_refl : forall o, out_raised o o.
Proof. intro o. unfold out_raised. tauto. Qed.

Lemma out_raised_trans : forall a b c,
  out_raised a b -> out_raised b c -> out_raised a c.
Proof.
  unfold out_raised. intros a b c (F1 & M1 & K1 & S1) (F2 & M2 & K2 & S2).
  split; [congruence|]. split; [congruence|]. split; [tauto|].
  destruct S2 as [[E1 E2]|S2]; [|now right].
  destruct S1 as [[E3 E4]|[E3 E4]]; [left|right]; split; congruence.
Qed.

Lemma find_handler_cases : forall sm mem h f,
  find_handler (http_headers_in sm) mem h = Some f ->
  f = http_process_ignore \/ f = http_process_connection \/
  f = http_process_if_modified_since sm.
Proof.
  intros sm mem h f H. unfold http_headers_in in H. simpl in H.
  repeat match type of H with
         | (if ?c then _ else _) = _ => destruct c
         end; inversion H; auto.
Qed.

Lemma handle_one_raised : forall sm r o h,
  out_raised o (handle_one sm r o h).
Proof.
  intros sm r o h. unfold handle_one.
  destruct (find_handler _ _ _) as [f|] eqn:E; [|apply out_raised_refl].
  apply find_handler_cases in E as [->|[->| ->]].
  - apply out_raised_refl.
  - unfold http_process_connection.
    destruct (_ =? 0); [|apply out_raised_refl].
    unfold out_raised. simpl. tauto.
  - unfold http_process_if_modified_since.
    destruct (sm _ _) as [t|]; [|apply out_raised_refl].
    destruct (_ =? _); [|apply out_raised_refl].
    unfold out_raised. simpl. tauto.
Qed.

Lemma handle_all_raised : forall sm hs r o,
  out_raised o (handle_all sm hs r o).
Proof.
  intros sm. induction hs as [|h hs IH]; intros r o; simpl.
  - apply out_raised_refl.
  - eapply out_raised_trans; [apply handle_one_raised | apply IH].
Qed.

(** X11.  Whatever headers the list holds and whatever dates the C library reads
    from them, [http_handle_header] empties the list and changes nothing
    else of the connection; of the response state it leaves [fd] and [mtime]
    alone, never clears [keep_alive], and either leaves [modified] and
    [status] alone or ends with [modified] false and status 304. *)
Theorem handle_header_effect : forall sm r o,
  fst (http_handle_header sm r o) = set_hdr_list [] r /\
  out_raised o (snd (http_handle_header sm r o)).
Proof.
  intros sm r o. unfold http_handle_header. simpl.
  split; [reflexivity | apply handle_all_raised].
Qed.

Lemma handle_one_no_date : forall sm r o h,
  (forall d, sm (buf r) d <> Some (mtime o)) ->
  modified (handle_one sm r o h) = modified o /\
  status (handle_one sm r o h) = status o.
Proof.
  intros sm r o h Hno. unfold handle_one.
  destruct (find_handler _ _ _) as [f|] eqn:E; [|tauto].
  apply find_handler_cases in E as [->|[->| ->]].
  - simpl. tauto.
  - unfold http_process_connection. destruct (_ =? 0); simpl; tauto.
  - unfold http_process_if_modified_since.
    destruct (sm (buf r) (value_start h)) as [t|] eqn:Et; [|simpl; tauto].
    destruct (mtime o =? t) eqn:Em; [|simpl; tauto].
    apply Z.eqb_eq in Em. subst t. now elim (Hno _ Et).
Qed.

(** X12.  When no date the C library reads in the buffer is the file's [mtime],
    [http_handle_header] leaves [modified] and [status] as they were,
    whatever headers the list holds. *)
Theorem status_kept_without_equal_date : forall sm r o,
  (forall d, sm (buf r) d <> Some (mtime o)) ->
  modified (snd (http_handle_header sm r o)) = modified o /\
  status (snd (http_handle_header sm r o)) = status o.
Proof.
  intros sm r o. unfold http_handle_header. cbn [snd].
  generalize (hdr_list r) as hs. intros hs. revert r o.
  induction hs as [|h hs IH]; intros r o Hno; cbn [handle_all]; [tauto|].
  pose proof (handle_one_no_date sm (set_hdr_list (h :: hs) r) o h Hno)
    as [E1 E2].
  pose proof (handle_one_raised sm (set_hdr_list (h :: hs) r) o h)
    as (_ & Em & _).
  destruct (IH r (handle_one sm (set_hdr_list (h :: hs) r) o h)) as [E3 E4].
  { intros d. rewrite Em. apply Hno. }
  rewrite E3, E4. tauto.
Qed.

Lemma status_kept_without_equal_date_witness :
  status (snd (http_handle_header (const_date 7) dated_connection
                 fresh_out)) = 0.
Proof.
  destruct (status_kept_without_equal_date (const_date 7) dated_connection
              fresh_out) as [_ E].
  - intros d. vm_compute. discriminate.
  - rewrite E. reflexivity.
Defined.

(** ** Names that are not spelled out *)

Lemma prefix_bytes : forall lit mem p n,
  String.prefix (bytes_at mem p n) lit = true ->
  (n <= String.length lit)%nat /\
  forall i : nat, (i < n)%nat -> mem (p + Z.of_nat i) = c_byte lit i.
Proof.
  induction lit as [|c lit IH]; intros mem p [|n]; simpl; intro H.
  - split; [lia|]. intros i Hi. lia.
  - discriminate.
  - split; [lia|]. intros i Hi. lia.
  - destruct (ascii_dec (mem p) c) as [Hc|Hc]; [|discriminate].
    destruct (IH _ _ _ H) as [Hn Hb]. split; [lia|].
    intros [|i] Hi.
    + now rewrite Z.add_0_r.
    + replace (p + Z.of_nat (S i)) with (p + 1 + Z.of_nat i) by lia.
      apply Hb. lia.
Qed.

(** X13.  Names are compared over the length of the key only: a key of one byte
    or more that is a prefix of a table entry's name gets that entry's
    handler, as the full name does. *)
Theorem key_prefix_is_dispatched : forall sm mem h e,
  In e (http_headers_in sm) -> name e <> "" ->
  key_start h < key_end h ->
  String.prefix (key_of mem h) (name e) = true ->
  find_handler (http_headers_in sm) mem h = Some (handler e).
Proof.
  intros sm mem h e Hin Hne Hlt Hk.
  unfold key_of in Hk. apply prefix_bytes in Hk as [Hn Hb].
  assert (Hsmall : (String.length (name e) <= 17)%nat).
  { destruct Hin as [<-|[<-|[<-|[<-|[]]]]]; simpl; lia. }
  assert (Hw : size_wrap (key_end h - key_start h) = key_end h - key_start h).
  { apply size_wrap_small. change (2 ^ 64) with 18446744073709551616. lia. }
  assert (Hit : strncmp mem (key_start h) (name e)
                  (size_wrap (key_end h - key_start h)) = 0).
  { rewrite Hw. unfold strncmp.
    apply (strn_cmp_zero (fun c => c) eq_refl). intros i Hi _. cbv beta.
    apply Hb. lia. }
  assert (First : mem (key_start h) = c_byte (name e) 0).
  { rewrite <- (Z.add_0_r (key_start h)) at 1. apply (Hb O). lia. }
  assert (Hp : 0 < size_wrap (key_end h - key_start h)) by lia.
  unfold http_headers_in.
  destruct Hin as [<-|[<-|[<-|[<-|[]]]]].
  - now apply find_handler_hit.
  - rewrite (find_handler_miss
               {| name := "Host"; handler := http_process_ignore |} _ mem h
               "H" "ost" eq_refl)
      by (trivial; rewrite First; discriminate).
    now apply find_handler_hit.
  - rewrite (find_handler_miss
               {| name := "Host"; handler := http_process_ignore |} _ mem h
               "H" "ost" eq_refl)
      by (trivial; rewrite First; discriminate).
    rewrite (find_handler_miss
               {| name := "Connection"; handler := http_process_connection |}
               _ mem h "C" "onnection" eq_refl)
      by (trivial; rewrite First; discriminate).
    now apply find_handler_hit.
  - now elim Hne.
Qed.

Lemma key_prefix_is_dispatched_witness :
  exists h,
    hdr_list short_name_connection = [h] /\
    key_of (buf short_name_connection) h = "Con" /\
    find_handler (http_headers_in no_date) (buf short_name_connection) h =
      Some http_process_connection.
Proof.
  eexists. split; [vm_compute; reflexivity|].
  split; [vm_compute; reflexivity|].
  apply (key_prefix_is_dispatched no_date (buf short_name_connection) _
           {| name := "Connection"; handler := http_process_connection |}).
  - right. left. reflexivity.
  - discriminate.
  - vm_compute. reflexivity.
  - vm_compute. reflexivity.
Defined.

(** X14.  A header whose key has one byte or more, the first of them none of [H],
    [C] and [I], finds no entry in the table: its turn of the loop leaves
    the response state as it was. *)
Theorem unknown_header_is_ignored : forall sm r o h,
  0 < size_wrap (key_end h - key_start h) ->
  buf r (key_start h) <> "H"%char ->
  buf r (key_start h) <> "C"%char ->
  buf r (key_start h) <> "I"%char ->
  find_handler (http_headers_in sm) (buf r) h = None /\
  handle_one sm r o h = o.
Proof.
  intros sm r o h Hp HH HC HI.
  assert (E : find_handler (http_headers_in sm) (buf r) h = None).
  { unfold http_headers_in.
    rewrite (find_handler_miss
               {| name := "Host"; handler := http_process_ignore |} _ (buf r) h
               "H" "ost" eq_refl) by trivial.
    rewrite (find_handler_miss
               {| name := "Connection"; handler := http_process_connection |}
               _ (buf r) h "C" "onnection" eq_refl) by trivial.
    rewrite (find_handler_miss
               {| name := "If-Modified-Since";
                  handler := http_process_if_modified_since sm |}
               _ (buf r) h "I" "f-Modified-Since" eq_refl) by trivial.
    reflexivity. }
  split; [exact E|]. unfold handle_one. now rewrite E.
Qed.

Lemma unknown_header_is_ignored_witness :
  snd (http_handle_header no_date unknown_name_connection fresh_out) =
  fresh_out.
Proof.
  assert (L : exists h, hdr_list unknown_name_connection = [h] /\
                        key_start h = 0 /\ key_end h = 6).
  { eexists. split; [vm_compute; reflexivity|]. split; reflexivity. }
  destruct L as (h & Hl & Hs & He).
  unfold http_handle_header. rewrite Hl. cbn [snd handle_all].
  apply (unknown_header_is_ignored no_date
           (set_hdr_list [h] unknown_name_connection) fresh_out h).
  - rewrite Hs, He. vm_compute. reflexivity.
  - rewrite Hs. vm_compute. discriminate.
  - rewrite Hs. vm_compute. discriminate.
  - rewrite Hs. vm_compute. discriminate.
Defined.

(** ** What the driver answers *)

Lemma starts_with_app : forall p s t,
  starts_with p s -> starts_with p (s ++ t).
Proof.
  unfold starts_with. induction p as [|c p IH]; intros s t H.
  - destruct (s ++ t); reflexivity.
  - destruct s as [|d s]; [discriminate|]. simpl in *.
    destruct (ascii_dec c d); [now apply IH | discriminate].
Qed.






(** X16.  When [stat] fails for the file of a complete request, the iteration
    writes the 404 page, whose header says [Connection: close], and ends in
    [continue]: the connection is not closed, and the headers the parser
    saved stay on the list, since [http_handle_header] is not reached. *)
Theorem missing_file_keeps_connection :
  forall sm sl stat contents r filename o0 avail n r1 r2 r3 mem f,
  read_into r avail = (n, r1) -> n <> 0 ->
  RequestLine.run r1 = (Done, r2) ->
  RequestBody.run r2 = (Done, r3) ->
  parse_uri (root r3) (buf r3) (uri_start r3)
    (int_wrap (uri_end r3 - uri_start r3)) = (mem, Resolved f) ->
  stat f = None ->
  exists r',
    do_request_iter sm sl stat contents r filename o0 (SockData avail) =
      Continue r' f (do_error f "404" "Not Found" "Can't find the file") /\
    hdr_list r' = hdr_list r3 /\ pos r' = pos r3 /\ state r' = 0 /\
    In ("Connection: close" ++ CRLF)
       (lines_of (do_error f "404" "Not Found" "Can't find the file")).
Proof.
  intros sm sl stat contents r filename o0 avail n r1 r2 r3 mem f
    Hread Hn Hline Hbody Huri Hstat.
  exists (set_buf mem r3).
  assert (Hst : state r3 = 0).
  { unfold RequestBody.run in Hbody.
    destruct (for_loop _ _ _ _ _ _ _); inversion Hbody. reflexivity. }
  split; [|split; [reflexivity|split; [reflexivity|split; [exact Hst|]]]].
  - unfold do_request_iter. rewrite Hread.
    apply Z.eqb_neq in Hn. rewrite Hn.
    unfold http_parse_request_line, http_parse_request_body.
    rewrite Hline. cbn [retcode]. cbv iota beta.
    change (0 =? EAGAIN) with false. cbn [negb Z.eqb].
    rewrite Hbody. cbn [retcode]. cbv iota beta.
    change (0 =? EAGAIN) with false. cbn [negb Z.eqb].
    rewrite Huri. cbv zeta iota beta. rewrite Hstat. reflexivity.
  - unfold do_error. cbv zeta.
    match goal with |- context [dec ?x] => generalize (dec x) end.
    intro len.
    match goal with |- In _ (lines_of (_ ++ ?b)) => generalize b end.
    intro body. simpl. right. right. right. left. reflexivity.
Qed.

Lemma missing_file_keeps_connection_witness :
  exists r',
    do_request_iter no_date epoch_date no_file no_contents
      (init_http_request blank 5 3 "./www") "" fresh_out
      (SockData one_request) =
    Continue r' "./www/a.css"
      (do_error "./www/a.css" "404" "Not Found" "Can't find the file") /\
    List.length (hdr_list r') = 1%nat.
Proof.
  pose (r := init_http_request blank 5 3 "./www").
  pose (r1 := snd (read_into r one_request)).
  pose (r2 := snd (RequestLine.run r1)).
  pose (r3 := snd (RequestBody.run r2)).
  destruct (missing_file_keeps_connection no_date epoch_date no_file
              no_contents r "" fresh_out one_request
              (fst (read_into r one_request)) r1 r2 r3
              (fst (parse_uri (root r3) (buf r3) (uri_start r3)
                      (int_wrap (uri_end r3 - uri_start r3))))
              "./www/a.css"
              eq_refl ltac:(vm_compute; discriminate)
              ltac:(vm_compute; reflexivity) ltac:(vm_compute; reflexivity)
              ltac:(vm_compute; reflexivity) eq_refl)
    as (r' & E & Hl & _).
  exists r'. split; [exact E|]. rewrite Hl. vm_compute. reflexivity.
Defined.

(** ** A header that arrives in two reads *)

Lemma ch_eq_neq : forall a b, a <> b -> ch_eq a b = false.
Proof. intros a b. apply Ascii.eqb_neq. Qed.

Lemma line_run_in_value_state : forall r,
  state r = RequestBody.to_int RequestBody.s_value ->
  pos r < last r ->
  byte_at r (pos r) <> " "%char -> byte_at r (pos r) <> "H"%char ->
  RequestLine.run r = (Failed HTTP_PARSER_INVALID_REQUEST, r).
Proof.
  intros r Hst Hlt Hsp HH. unfold RequestLine.run.
  destruct (Z.to_nat (last r - pos r)) as [|k] eqn:Ek; [lia|].
  cbn [for_loop]. rewrite Hst.
  change (RequestLine.of_int (RequestBody.to_int RequestBody.s_value))
    with (Some RequestLine.s_http).
  cbv zeta. fold (byte_at r (pos r)). cbn [RequestLine.step].
  rewrite (ch_eq_neq _ _ Hsp), (ch_eq_neq _ _ HH). reflexivity.
Qed.

(** X17.  The driver calls the request-line parser first in every iteration,
    whatever [state] holds.  When the read before ended inside a header
    value, [state] is the header parser's [s_value], which the request-line
    parser takes for its own [s_http]: unless the next byte is a space or
    [H] it returns [HTTP_PARSER_INVALID_REQUEST], the driver takes that for
    [EAGAIN], and the iteration ends in [continue] with nothing consumed and
    nothing sent. *)
Theorem resumed_header_goes_to_the_line_parser :
  forall sm sl stat contents r filename o0 avail n r1,
  read_into r avail = (n, r1) -> n <> 0 ->
  state r = RequestBody.to_int RequestBody.s_value ->
  pos r1 < last r1 ->
  byte_at r1 (pos r1) <> " "%char -> byte_at r1 (pos r1) <> "H"%char ->
  http_parse_request_line r1 = (HTTP_PARSER_INVALID_REQUEST, r1) /\
  do_request_iter sm sl stat contents r filename o0 (SockData avail) =
    Continue r1 filename "" /\
  pos r1 = pos r /\ state r1 = state r.
Proof.
  intros sm sl stat contents r filename o0 avail n r1 Hread Hn Hst Hlt Hsp HH.
  assert (Hf : pos r1 = pos r /\ state r1 = state r).
  { rewrite read_into_data in Hread. inversion Hread. split; reflexivity. }
  destruct Hf as [Hp Hs].
  assert (Hrun : RequestLine.run r1 = (Failed HTTP_PARSER_INVALID_REQUEST, r1)).
  { apply line_run_in_value_state; trivial. congruence. }
  assert (Hcall : http_parse_request_line r1 = (HTTP_PARSER_INVALID_REQUEST, r1)).
  { unfold http_parse_request_line. rewrite Hrun. reflexivity. }
  split; [exact Hcall|]. split; [|split; assumption].
  unfold do_request_iter. rewrite Hread.
  apply Z.eqb_neq in Hn. rewrite Hn, Hcall. reflexivity.
Qed.

Lemma resumed_header_goes_to_the_line_parser_witness :
  state after_split_header = 4 /\
  do_request_iter no_date epoch_date no_file no_contents
    after_split_header "" fresh_out
    (SockData (list_ascii_of_string ("mple" ++ CRLF ++ CRLF))) =
  Continue
    (snd (read_into after_split_header
            (list_ascii_of_string ("mple" ++ CRLF ++ CRLF))))
    "" "".
Proof.
  split; [vm_compute; reflexivity|].
  apply (resumed_header_goes_to_the_line_parser no_date epoch_date no_file
           no_contents after_split_header "" fresh_out
           (list_ascii_of_string ("mple" ++ CRLF ++ CRLF))
           (fst (read_into after_split_header
                   (list_ascii_of_string ("mple" ++ CRLF ++ CRLF))))
           (snd (read_into after_split_header
                   (list_ascii_of_string ("mple" ++ CRLF ++ CRLF))))
           eq_refl).
  - vm_compute. discriminate.
  - vm_compute. reflexivity.
  - vm_compute. reflexivity.
  - vm_compute. discriminate.
  - vm_compute. discriminate.
Defined.

(** ** The file a URI names *)

Lemma starts_with_refl : forall s, starts_with s s.
Proof.
  unfold starts_with. induction s as [|c s IH]; [reflexivity|]. simpl.
  destruct (ascii_dec c c); [exact IH | congruence].
Qed.

Lemma last_char_app : forall s c t,
  last_char (s ++ String c t) = last_char (String c t).
Proof.
  induction s as [|a s IH]; intros c t; [reflexivity|].
  change (String a s ++ String c t) with (String a (s ++ String c t)).
  cbn [last_char]. rewrite IH.
  destruct (s ++ String c t) eqn:E; [|reflexivity].
  destruct s; discriminate E.
Qed.

(** X18.  A file name [parse_uri] resolves begins with the web root and does not
    end in a slash: a name that would is given [index.html]. *)
Theorem resolved_name_is_a_file_under_webroot :
  forall webroot mem uri uri_length mem' f,
  parse_uri webroot mem uri uri_length = (mem', Resolved f) ->
  starts_with webroot f /\ last_char f <> "/"%char /\
  mem' = store mem (uri + uri_length) zero.
Proof.
  intros webroot mem uri uri_length mem' f H. unfold parse_uri in H.
  destruct (uri_length <? 0); [discriminate|].
  destruct (uri_length >? Z.shiftr SHORTLINE 1); [discriminate|].
  cbv zeta in H.
  set (s := c_string (store mem (uri + uri_length) zero) uri
              (Z.to_nat uri_length)) in *.
  set (n := Z.to_nat match strchr s "?" with
                     | Some i => Z.of_nat i
                     | None => uri_length
                     end) in *.
  set (base := webroot ++ substring 0 n s) in *.
  assert (Hb : starts_with webroot base)
    by (apply starts_with_app, starts_with_refl).
  destruct (strrchr base "/") as [last_comp|]; [|discriminate].
  set (f1 := match strrchr last_comp "." with
             | Some _ => base
             | None => if negb (ch_eq (last_char base) "/") then base ++ "/"
                       else base
             end) in *.
  assert (H1 : starts_with webroot f1).
  { unfold f1. destruct (strrchr last_comp "."); [exact Hb|].
    destruct (negb _); [now apply starts_with_app | exact Hb]. }
  destruct (ch_eq (last_char f1) "/") eqn:E;
    destruct (_ <? SHORTLINE); inversion H; subst.
  - split; [now apply starts_with_app|]. split; [|reflexivity].
    unfold "++" at 1. fold append.
    change "index.html" with (String "i" "ndex.html").
    rewrite last_char_app. discriminate.
  - split; [exact H1|]. split; [|reflexivity].
    now apply ch_eq_false.
Qed.

Lemma resolved_name_is_a_file_under_webroot_witness :
  starts_with "./www" "./www/dir/index.html" /\
  last_char "./www/dir/index.html" <> "/"%char.
Proof.
  destruct (resolved_name_is_a_file_under_webroot "./www"
              (mem_of_string "/dir?x=1 HTTP/1.1") 0 8
              (store (mem_of_string "/dir?x=1 HTTP/1.1") 8 zero)
              "./www/dir/index.html"
              ltac:(vm_compute; reflexivity)) as (A & B & _).
  exact (conj A B).
Defined.

(** ** The content type *)

(** X19.  [get_file_type] is a lookup in [mime]: an extension that is the key of
    an entry gets that entry's value, no entry before it having the same
    key; any other gets ["text/plain"], the value of the entry that ends
    the table. *)
Theorem get_file_type_is_a_lookup : forall t,
  (exists e, In e mime /\ type e = Some t /\
             get_file_type (Some t) = value e) \/
  ((forall e, In e mime -> type e <> Some t) /\
   get_file_type (Some t) = "text/plain").
Proof.
  intro t. unfold get_file_type, mime. cbn [get_file_type_from type value].
  destruct (String.eqb_spec t ".html") as [->|?];
    [left; exists {| type := Some ".html"; value := "text/html" |};
     split; [simpl; tauto | split; reflexivity]|].
  destruct (String.eqb_spec t ".xml") as [->|?];
    [left; exists {| type := Some ".xml"; value := "text/xml" |};
     split; [simpl; tauto | split; reflexivity]|].
  destruct (String.eqb_spec t ".xhtml") as [->|?];
    [left; exists {| type := Some ".xhtml"; value := "application/xhtml+xml" |};
     split; [simpl; tauto | split; reflexivity]|].
  destruct (String.eqb_spec t ".txt") as [->|?];
    [left; exists {| type := Some ".txt"; value := "text/plain" |};
     split; [simpl; tauto | split; reflexivity]|].
  destruct (String.eqb_spec t ".pdf") as [->|?];
    [left; exists {| type := Some ".pdf"; value := "application/pdf" |};
     split; [simpl; tauto | split; reflexivity]|].
  destruct (String.eqb_spec t ".png") as [->|?];
    [left; exists {| type := Some ".png"; value := "image/png" |};
     split; [simpl; tauto | split; reflexivity]|].
  destruct (String.eqb_spec t ".gif") as [->|?];
    [left; exists {| type := Some ".gif"; value := "image/gif" |};
     split; [simpl; tauto | split; reflexivity]|].
  destruct (String.eqb_spec t ".jpg") as [->|?];
    [left; exists {| type := Some ".jpg"; value := "image/jpeg" |};
     split; [simpl; tauto | split; reflexivity]|].
  destruct (String.eqb_spec t ".css") as [->|?];
    [left; exists {| type := Some ".css"; value := "text/css" |};
     split; [simpl; tauto | split; reflexivity]|].
  right. split; [|reflexivity].
  intros e Hin He. simpl in Hin.
  repeat (destruct Hin as [<-|Hin]; [simpl in He; congruence|]).
  exact Hin.
Qed.

(** ** The port of the command line *)

Lemma int_wrap_small : forall z, 0 <= z < 2 ^ 31 -> int_wrap z = z.
Proof.
  intros z H. unfold int_wrap.
  change (2 ^ 31) with 2147483648 in *. change (2 ^ 32) with 4294967296.
  rewrite Z.mod_small; lia.
Qed.

Lemma cmd_get_port_in_range : forall s p,
  cmd_get_port s = Some p -> 1 <= p <= 65535.
Proof.
  intros s p H. unfold cmd_get_port in H.
  destruct (strtol s) as [[ret moved] erange].
  destruct (_ || _); [discriminate|].
  destruct (negb moved); [discriminate|].
  destruct ((ret <=? 0) || (ret >? 65535)) eqn:E; inversion H; subst.
  - unfold DEFAULT_PORT. lia.
  - apply orb_false_iff in E as [E1 E2].
    apply Z.leb_gt in E1. rewrite Z.gtb_ltb in E2. apply Z.ltb_ge in E2.
    rewrite int_wrap_small by (change (2 ^ 31) with 2147483648; lia). lia.
Qed.

Lemma parse_opts_port : forall rets cfg cfg',
  1 <= port cfg <= 65535 ->
  parse_opts rets cfg = Config cfg' ->
  1 <= port cfg' <= 65535.
Proof.
  induction rets as [|g rets IH]; simpl; intros cfg cfg' Hp E.
  - now inversion E; subst.
  - destruct (ch_eq (opt g) "p").
    + destruct (cmd_get_port (optarg g)) as [p|] eqn:Ep; [|discriminate].
      apply (IH {| port := p; web_root := web_root cfg |} cfg'
               (cmd_get_port_in_range _ _ Ep) E).
    + destruct (ch_eq (opt g) "w");
        [exact (IH {| port := port cfg; web_root := optarg g |} cfg' Hp E)|].
      destruct (ch_eq (opt g) "?"); [discriminate|]. exact (IH _ _ Hp E).
Qed.

(** X20.  Whatever the command line, a configuration [parse_cmd] returns has a
    port between 1 and 65535: [cmd_get_port] replaces a number outside this
    range by the default port instead of rejecting it. *)
Theorem parse_cmd_port_is_valid : forall argv cfg,
  parse_cmd argv = Config cfg -> 1 <= port cfg <= 65535.
Proof.
  intros argv cfg E. unfold parse_cmd in E.
  apply (parse_opts_port _ _ _) in E; [exact E|].
  simpl. unfold DEFAULT_PORT. lia.
Qed.

Lemma parse_cmd_port_is_valid_witness :
  parse_cmd ["sehttpd"; "-p"; "99999"] =
    Config {| port := DEFAULT_PORT; web_root := DEFAULT_WEBROOT |} /\
  1 <= DEFAULT_PORT <= 65535.
Proof.
  split; [vm_compute; reflexivity|].
  apply (parse_cmd_port_is_valid ["sehttpd"; "-p"; "99999"]
           {| port := DEFAULT_PORT; web_root := DEFAULT_WEBROOT |}).
  vm_compute. reflexivity.
Defined.

Lemma digits_app : forall ds t acc count,
  all_digits ds = true -> no_leading_digit t = true ->
  digits (ds ++ t) acc count = digits ds acc count.
Proof.
  induction ds as [|c ds IH]; intros t acc count Hd Ht.
  - destruct t as [|c t]; [reflexivity|]. simpl in *.
    apply negb_true_iff in Ht. now rewrite Ht.
  - simpl in *. apply andb_true_iff in Hd as [Hc Hd]. rewrite Hc.
    now apply IH.
Qed.

Lemma digit_is_plain : forall c,
  is_digit c = true ->
  is_space c = false /\ c <> "-"%char /\ c <> "+"%char.
Proof.
  intros c H. unfold is_digit, is_space, ch_eq in *.
  apply andb_true_iff in H as [H1 H2].
  apply Z.leb_le in H1. apply Z.leb_le in H2.
  change (u8 "0") with 48 in *. change (u8 "9") with 57 in *.
  repeat split.
  - apply orb_false_iff. split.
    + apply Ascii.eqb_neq. intros ->. vm_compute in H1. now apply H1.
    + apply andb_false_iff. right. apply Z.leb_gt. lia.
  - intros ->. vm_compute in H1. now apply H1.
  - intros ->. vm_compute in H1. now apply H1.
Qed.

Lemma strtol_trailing : forall ds t,
  ds <> "" -> all_digits ds = true -> no_leading_digit t = true ->
  strtol (ds ++ t) = strtol ds.
Proof.
  intros ds t Hne Hd Ht. destruct ds as [|c ds]; [now elim Hne|].
  simpl in Hd. apply andb_true_iff in Hd as [Hc Hd].
  destruct (digit_is_plain c Hc) as (Hs & Hm & Hp).
  unfold strtol. change (String c ds ++ t) with (String c (ds ++ t)).
  cbn [skip_spaces]. rewrite Hs.
  assert (E : forall (s : string),
            match String c s with
            | String "-" s' => (true, s')
            | String "+" s' => (false, s')
            | _ => (false, String c s)
            end = (false, String c s)).
  { intro s. destruct c as [[] [] [] [] [] [] [] []]; try reflexivity;
      congruence. }
  rewrite !E. cbn [digits]. rewrite Hc.
  rewrite digits_app by assumption. reflexivity.
Qed.

(** X21.  [cmd_get_port] asks [strtol] only whether it read any digit, not where
    it stopped: text after the digits of the port, when it does not begin
    with a digit, changes nothing of the result. *)
Theorem port_ignores_trailing_text : forall ds t,
  ds <> "" -> all_digits ds = true -> no_leading_digit t = true ->
  cmd_get_port (ds ++ t) = cmd_get_port ds.
Proof.
  intros ds t Hne Hd Ht. unfold cmd_get_port.
  now rewrite strtol_trailing.
Qed.

Lemma port_ignores_trailing_text_witness :
  cmd_get_port "8080abc" = Some 8080.
Proof.
  change "8080abc" with ("8080" ++ "abc").
  rewrite (port_ignores_trailing_text "8080" "abc"
             ltac:(discriminate) eq_refl eq_refl).
  vm_compute. reflexivity.
Defined.

(** ** Partial writes *)

Lemma writen_loop_sent : forall script errno bufp nleft sent n res out e,
  nleft = Z.of_nat (List.length bufp) -> nleft < 2 ^ 64 ->
  writen_loop script errno bufp nleft sent n = Some (res, out, e) ->
  (res = n /\ out = (sent ++ bufp)%list) \/
  (res = -1 /\ e <> EINTR /\
   exists rest, (sent ++ bufp = out ++ rest)%list /\ rest <> []).
Proof.
  induction script as [|w script IH];
    intros errno bufp nleft sent n res out e Hn Hlt H; cbn [writen_loop] in H.
  - destruct (nleft >? 0) eqn:G; [discriminate|].
    rewrite Z.gtb_ltb in G. apply Z.ltb_ge in G.
    assert (bufp = []) by (destruct bufp; [reflexivity | simpl in Hn; lia]).
    subst bufp. inversion H; subst. left. now rewrite app_nil_r.
  - destruct (nleft >? 0) eqn:G.
    + rewrite Z.gtb_ltb in G. apply Z.ltb_lt in G.
      destruct w as [cap|e0].
      * destruct (MIN cap nleft <=? 0) eqn:L.
        -- destruct (errno =? EINTR) eqn:Ei.
           ++ rewrite Z.sub_0_r, size_wrap_small in H by lia.
              now apply (IH _ _ _ _ _ _ _ _ Hn Hlt H).
           ++ inversion H; subst. right. split; [reflexivity|].
              split; [now apply Z.eqb_neq|].
              exists bufp. split; [reflexivity|].
              destruct bufp; [simpl in G; lia | discriminate].
        -- apply Z.leb_gt in L.
           assert (Hm : MIN cap nleft <= nleft).
           { unfold MIN. destruct (cap <? nleft) eqn:C;
               [apply Z.ltb_lt in C|]; lia. }
           rewrite size_wrap_small in H by lia.
           apply IH in H.
           ++ rewrite <- app_assoc, firstn_skipn in H. exact H.
           ++ rewrite length_skipn. lia.
           ++ lia.
      * destruct (-1 <=? 0) eqn:L; [|discriminate L].
        destruct (e0 =? EINTR) eqn:Ei.
        -- rewrite Z.sub_0_r, size_wrap_small in H by lia.
           now apply (IH _ _ _ _ _ _ _ _ Hn Hlt H).
        -- inversion H; subst. right. split; [reflexivity|].
           split; [now apply Z.eqb_neq|].
           exists bufp. split; [reflexivity|].
           destruct bufp; [simpl in G; lia | discriminate].
    + rewrite Z.gtb_ltb in G. apply Z.ltb_ge in G.
      assert (bufp = []) by (destruct bufp; [reflexivity | simpl in Hn; lia]).
      subst bufp. inversion H; subst. left. now rewrite app_nil_r.
Qed.

(** X22.  [writen] returns [n] only when the socket has taken the [n] bytes of
    the buffer, all of them and in order, however the calls of [write]
    cut them up and however many were interrupted; it returns [-1] after a
    failure other than [EINTR], when the socket has taken a beginning of the
    buffer that is not all of it. *)
Theorem writen_sends_the_buffer : forall script errno usrbuf res out e,
  Z.of_nat (List.length usrbuf) < 2 ^ 63 ->
  writen script errno usrbuf (Z.of_nat (List.length usrbuf))
    = Some (res, out, e) ->
  (res = Z.of_nat (List.length usrbuf) /\ out = usrbuf) \/
  (res = -1 /\ e <> EINTR /\
   exists rest, usrbuf = (out ++ rest)%list /\ rest <> []).
Proof.
  intros script errno usrbuf res out e Hlt H. unfold writen in H.
  apply writen_loop_sent in H; [exact H | reflexivity|].
  change (2 ^ 63) with 9223372036854775808 in Hlt.
  change (2 ^ 64) with 18446744073709551616. lia.
Qed.

Lemma writen_sends_the_buffer_witness :
  writen [Wrote 2; WriteErr EINTR; Wrote 100] 0
    (list_ascii_of_string "hello") 5 =
  Some (5, list_ascii_of_string "hello", EINTR).
Proof.
  destruct (writen_sends_the_buffer [Wrote 2; WriteErr EINTR; Wrote 100] 0
              (list_ascii_of_string "hello") 5
              (list_ascii_of_string "hello") EINTR
              ltac:(vm_compute; reflexivity) ltac:(vm_compute; reflexivity))
    as [[_ _]|[C _]].
  - vm_compute. reflexivity.
  - discriminate C.
Defined.

Lemma writen_loop_total : forall script errno bufp nleft sent n,
  nleft = Z.of_nat (List.length bufp) -> nleft < 2 ^ 64 ->
  Forall takes_bytes script ->
  nleft <= Z.of_nat (List.length script) ->
  writen_loop script errno bufp nleft sent n
    = Some (n, (sent ++ bufp)%list, errno).
Proof.
  induction script as [|w script IH];
    intros errno bufp nleft sent n Hn Hlt Hall Hlen; cbn [writen_loop].
  - simpl in Hlen. destruct (nleft >? 0) eqn:G.
    + rewrite Z.gtb_ltb in G. apply Z.ltb_lt in G. lia.
    + assert (bufp = []) by (destruct bufp; [reflexivity | simpl in Hn; lia]).
      subst bufp. now rewrite app_nil_r.
  - inversion Hall as [|? ? Hw Hall']; subst.
    destruct (Z.of_nat (List.length bufp) >? 0) eqn:G.
    + rewrite Z.gtb_ltb in G. apply Z.ltb_lt in G.
      destruct w as [cap|e0]; [|now elim Hw]. simpl in Hw.
      assert (Hm : 1 <= MIN cap (Z.of_nat (List.length bufp))
                   <= Z.of_nat (List.length bufp)).
      { unfold MIN. destruct (cap <? _) eqn:C;
          [apply Z.ltb_lt in C | apply Z.ltb_ge in C]; lia. }
      destruct (MIN cap _ <=? 0) eqn:L; [apply Z.leb_le in L; lia|].
      rewrite size_wrap_small by lia.
      rewrite IH.
      * now rewrite <- app_assoc, firstn_skipn.
      * rewrite length_skipn. lia.
      * lia.
      * exact Hall'.
      * cbn [List.length] in Hlen. lia.
    + rewrite Z.gtb_ltb in G. apply Z.ltb_ge in G.
      assert (bufp = []) by (destruct bufp; [reflexivity | simpl in G; lia]).
      subst bufp. now rewrite app_nil_r.
Qed.

(** X23.  When every call of [write] takes at least one byte, [writen] returns
    after at most [n] calls, with [n] as its value, the whole buffer sent
    and [errno] untouched. *)
Theorem writen_returns_when_write_progresses : forall script errno usrbuf,
  Z.of_nat (List.length usrbuf) < 2 ^ 63 ->
  Forall takes_bytes script ->
  (List.length usrbuf <= List.length script)%nat ->
  writen script errno usrbuf (Z.of_nat (List.length usrbuf))
    = Some (Z.of_nat (List.length usrbuf), usrbuf, errno).
Proof.
  intros script errno usrbuf Hlt Hall Hlen. unfold writen.
  rewrite writen_loop_total; trivial; lia.
Qed.

Lemma writen_returns_when_write_progresses_witness :
  writen [Wrote 1; Wrote 3; Wrote 1; Wrote 1; Wrote 1] 0
    (list_ascii_of_string "hello") 5 =
  Some (5, list_ascii_of_string "hello", 0).
Proof.
  apply (writen_returns_when_write_progresses
           [Wrote 1; Wrote 3; Wrote 1; Wrote 1; Wrote 1] 0
           (list_ascii_of_string "hello")).
  - vm_compute. reflexivity.
  - repeat apply Forall_cons; try apply Forall_nil; simpl; lia.
  - simpl. lia.
Defined.

(** ** The circular list of list.h *)

Section ListFacts.

Import ListH.

Lemma next_set_next : forall p v h q,
  next (set_next p v h q) = if q =? p then v else next (h q).
Proof. intros. unfold set_next. destruct (q =? p); reflexivity. Qed.

Lemma prev_set_next : forall p v h q, prev (set_next p v h q) = prev (h q).
Proof. intros. unfold set_next. destruct (q =? p); reflexivity. Qed.

Lemma next_set_prev : forall p v h q, next (set_prev p v h q) = next (h q).
Proof. intros. unfold set_prev. destruct (q =? p); reflexivity. Qed.

Lemma prev_set_prev : forall p v h q,
  prev (set_prev p v h q) = if q =? p then v else prev (h q).
Proof. intros. unfold set_prev. destruct (q =? p); reflexivity. Qed.

Lemma eqb_same : forall p : Z, (p =? p) = true.
Proof. apply Z.eqb_refl. Qed.

Lemma eqb_other : forall p q : Z, p <> q -> (p =? q) = false.
Proof. intros. now apply Z.eqb_neq. Qed.

(** A store to [p->next] leaves a chain that does not leave from [p]. *)
Lemma chain_set_next : forall p v h l a b,
  ~ In p (a :: l) -> chain h a l b -> chain (set_next p v h) a l b.
Proof.
  intros p v h. induction l as [|x l IH]; intros a b Hn; cbn [chain].
  - rewrite next_set_next, prev_set_next.
    rewrite eqb_other by (intro; apply Hn; left; congruence). trivial.
  - rewrite next_set_next, prev_set_next.
    rewrite eqb_other by (intro; apply Hn; left; congruence).
    intros (H1 & H2 & H3). repeat split; trivial.
    apply IH; [|exact H3]. intro Hi. apply Hn. right. exact Hi.
Qed.

(** A store to [p->prev] leaves a chain that does not arrive at [p]. *)
Lemma chain_set_prev : forall p v h l a b,
  ~ In p (l ++ [b]) -> chain h a l b -> chain (set_prev p v h) a l b.
Proof.
  intros p v h. induction l as [|x l IH]; intros a b Hn; cbn [chain].
  - rewrite next_set_prev, prev_set_prev.
    rewrite eqb_other by (intro; apply Hn; left; congruence). trivial.
  - rewrite next_set_prev, prev_set_prev.
    rewrite eqb_other by (intro; apply Hn; left; congruence).
    intros (H1 & H2 & H3). repeat split; trivial.
    apply IH; [|exact H3]. intro Hi. apply Hn. right. exact Hi.
Qed.

Lemma last_step : forall (l : list ptr) x a,
  List.last (x :: l) a = List.last l x.
Proof.
  induction l as [|p l IH]; intros x a; [reflexivity|].
  change (List.last (x :: p :: l) a) with (List.last (p :: l) a).
  now rewrite !IH.
Qed.

Lemma chain_prev_last : forall h l a b,
  chain h a l b -> prev (h b) = List.last l a.
Proof.
  intros h. induction l as [|x l IH]; intros a b; cbn [chain].
  - now intros [_ H].
  - intros (_ & _ & H). rewrite (IH _ _ H).
    symmetry. apply last_step.
Qed.

Lemma chain_entry : forall h l1 e l2 a b,
  chain h a (l1 ++ e :: l2) b ->
  prev (h e) = List.last l1 a /\ next (h e) = hd b l2.
Proof.
  intros h. induction l1 as [|x l1 IH]; intros e l2 a b; cbn [List.app chain].
  - intros (_ & Hp & H). split; [exact Hp|].
    destruct l2; cbn [chain] in H; cbn [hd]; tauto.
  - intros (_ & _ & H). destruct (IH _ _ _ _ H) as [Hp Hn].
    split; [|exact Hn]. rewrite Hp. symmetry. apply last_step.
Qed.

Lemma last_in : forall (l : list ptr) x a, In (List.last (x :: l) a) (x :: l).
Proof.
  induction l as [|y l IH]; intros x a.
  - left. reflexivity.
  - right. apply (IH y a).
Qed.

(** X24.  The list after [INIT_LIST_HEAD] is the empty list, and [list_empty]
    says so. *)
Theorem init_list_head_is_empty : forall p h,
  dll (INIT_LIST_HEAD p h) p [] /\ list_empty p (INIT_LIST_HEAD p h) = true.
Proof.
  intros p h. unfold dll, list_empty, INIT_LIST_HEAD. cbn [chain].
  rewrite next_set_prev, next_set_next, prev_set_prev, !eqb_same.
  repeat split. apply NoDup_cons; [intros [] | apply NoDup_nil].
Qed.

(** X25.  On a well-formed list [list_empty] holds exactly when there is no
    entry. *)
Theorem list_empty_iff_no_entry : forall h head l,
  dll h head l -> (list_empty head h = true <-> l = []).
Proof.
  intros h head l [Hnd Hc]. unfold list_empty. split.
  - intro E. apply andb_true_iff in E as [E _]. apply Z.eqb_eq in E.
    destruct l as [|x l]; [reflexivity|]. cbn [chain] in Hc.
    destruct Hc as (Hx & _). pose proof (proj1 (proj1 (NoDup_cons_iff _ _) Hnd)) as Hin.
    exfalso. apply Hin. left. congruence.
  - intros ->. cbn [chain] in Hc. destruct Hc as [-> ->].
    now rewrite eqb_same.
Qed.

Lemma list_empty_iff_no_entry_witness :
  list_empty 0 (list_add 1 0 (INIT_LIST_HEAD 0 null_heap)) = true <->
  [1] = [].
Proof.
  apply (list_empty_iff_no_entry
           (list_add 1 0 (INIT_LIST_HEAD 0 null_heap)) 0 [1]).
  split.
  - repeat apply NoDup_cons; try apply NoDup_nil; simpl; lia.
  - vm_compute. repeat split.
Defined.

(** X26.  [list_add] makes the new node the first entry of the list and leaves
    the other entries in their order. *)
Theorem list_add_puts_entry_first : forall h head l _new,
  dll h head l -> ~ In _new (head :: l) ->
  dll (list_add _new head h) head (_new :: l).
Proof.
  intros h head l _new [Hnd Hc] Hnew.
  assert (Hnh : _new <> head) by (intro; apply Hnew; left; congruence).
  assert (Hnl : ~ In _new l) by (intro; apply Hnew; now right).
  destruct (proj1 (NoDup_cons_iff _ _) Hnd) as [Hhl Hnd'].
  split.
  { apply NoDup_cons; [|apply NoDup_cons; assumption].
    intros [E|E]; [now apply Hnh | now apply Hhl]. }
  cbn [chain]. split; [heap_eq|]. split; [heap_eq|].
  destruct l as [|x l]; cbn [chain] in *.
  - destruct Hc as [Hn Hp]. split; heap_eq.
  - destruct Hc as (Hn & Hp & Hc).
    assert (Hxn : x <> _new) by (intro; apply Hnl; left; assumption).
    assert (Hxh : x <> head) by (intro; apply Hhl; left; congruence).
    destruct (proj1 (NoDup_cons_iff _ _) Hnd') as [Hxl Hnd''].
    split; [heap_eq|]. split; [heap_eq|].
    unfold list_add, __list_add. rewrite Hn.
    apply chain_set_prev.
    { intro Hi. apply in_app_or in Hi as [Hi|[Hi|[]]].
      - apply Hnl. now right.
      - now apply Hnh. }
    apply chain_set_next.
    { intros [Hi|Hi]; [now apply Hxh | apply Hhl; now right]. }
    apply chain_set_prev.
    { intro Hi. apply in_app_or in Hi as [Hi|[Hi|[]]].
      - now apply Hxl.
      - now apply Hxh. }
    apply chain_set_next; [|exact Hc].
    intros [Hi|Hi]; [now apply Hxn | apply Hnl; now right].
Qed.

Lemma list_add_puts_entry_first_witness :
  dll (list_add 2 0 (list_add 1 0 (INIT_LIST_HEAD 0 null_heap))) 0 [2; 1].
Proof.
  apply (list_add_puts_entry_first
           (list_add 1 0 (INIT_LIST_HEAD 0 null_heap)) 0 [1] 2).
  - split.
    + repeat apply NoDup_cons; try apply NoDup_nil; simpl; lia.
    + vm_compute. repeat split.
  - simpl. lia.
Defined.

Lemma add_tail_chain : forall h head _new l a,
  chain h a l head -> NoDup (a :: l) -> ~ In head l ->
  ~ In _new (a :: l) -> _new <> head ->
  chain (list_add_tail _new head h) a (l ++ [_new]) head.
Proof.
  intros h head _new.
  induction l as [|x l IH]; intros a Hc Hnd Hhl Hnew Hnh.
  - cbn [chain] in Hc. destruct Hc as [Hn Hp].
    assert (Han : a <> _new) by (intro; apply Hnew; left; congruence).
    cbn [List.app chain]. repeat split; heap_eq.
  - cbn [chain] in Hc. destruct Hc as (Hn & Hp & Hc).
    pose proof (chain_prev_last _ _ _ _ Hc) as Hl.
    destruct (proj1 (NoDup_cons_iff _ _) Hnd) as [Hal Hnd'].
    assert (Hla : List.last l x <> a).
    { intro E. apply Hal. rewrite <- E, <- (last_step l x a).
      apply last_in. }
    assert (Han : a <> _new) by (intro; apply Hnew; left; congruence).
    assert (Hxn : x <> _new)
      by (intro; apply Hnew; right; left; congruence).
    assert (Hxh : x <> head) by (intro; apply Hhl; left; congruence).
    cbn [List.app chain].
    specialize (IH x Hc Hnd' (fun Hi => Hhl (or_intror Hi))
                  (fun Hi => Hnew (or_intror Hi)) Hnh).
    split; [heap_eq|split; [heap_eq|exact IH]].
Qed.

(** X27.  [list_add_tail] makes the new node the last entry of the list. *)
Theorem list_add_tail_puts_entry_last : forall h head l _new,
  dll h head l -> ~ In _new (head :: l) ->
  dll (list_add_tail _new head h) head (l ++ [_new]).
Proof.
  intros h head l _new [Hnd Hc] Hnew.
  assert (Hnh : _new <> head) by (intro; apply Hnew; left; congruence).
  destruct (proj1 (NoDup_cons_iff _ _) Hnd) as [Hhl Hnd'].
  split.
  - apply NoDup_cons.
    + intro Hi. apply in_app_or in Hi as [Hi|[Hi|[]]];
        [now apply Hhl | now apply Hnh].
    + apply NoDup_app; [exact Hnd' | apply NoDup_cons; [intros []|apply NoDup_nil]|].
      intros y Hy [Hi|[]]. subst y. apply Hnew. now right.
  - now apply add_tail_chain.
Qed.

Lemma list_add_tail_puts_entry_last_witness :
  dll (list_add_tail 2 0 (list_add 1 0 (INIT_LIST_HEAD 0 null_heap))) 0
    [1; 2].
Proof.
  apply (list_add_tail_puts_entry_last
           (list_add 1 0 (INIT_LIST_HEAD 0 null_heap)) 0 [1] 2).
  - split.
    + repeat apply NoDup_cons; try apply NoDup_nil; simpl; lia.
    + vm_compute. repeat split.
  - simpl. lia.
Defined.

Lemma del_chain : forall h e l2 b l1 a,
  chain h a (l1 ++ e :: l2) b -> NoDup (a :: l1 ++ e :: l2) ->
  ~ In b (l1 ++ e :: l2) ->
  chain (list_del e h) a (l1 ++ l2) b.
Proof.
  intros h e l2 b.
  induction l1 as [|x l1 IH]; intros a Hc Hnd Hb.
  - destruct (chain_entry h [] e l2 a b Hc) as [Hp Hn].
    cbn [List.last] in Hp.
    cbn [List.app chain] in Hc. destruct Hc as (Hae & _ & Hc).
    destruct (proj1 (NoDup_cons_iff _ _) Hnd) as [Ha Hnd'].
    cbn [List.app] in *.
    destruct (proj1 (NoDup_cons_iff _ _) Hnd') as [He Hnd''].
    destruct l2 as [|y l2]; cbn [hd chain List.app] in *.
    + split; heap_eq.
    + destruct Hc as (Hey & Hpy & Hc).
      split; [heap_eq|]. split; [heap_eq|].
      pose proof (proj1 (proj1 (NoDup_cons_iff _ _) Hnd'')) as Hy.
      unfold list_del, __list_del. rewrite Hp, Hn.
      apply chain_set_prev.
      { intro Hi. apply in_app_or in Hi as [Hi|[Hi|[]]].
        - now apply Hy.
        - apply Hb. right. left. congruence. }
      apply chain_set_next; [|exact Hc].
      intros [Hi|Hi]; apply Ha; right; [left; congruence | now right].
  - destruct (chain_entry h (x :: l1) e l2 a b Hc) as [Hp Hn].
    cbn [List.app chain] in Hc. destruct Hc as (Hax & Hpx & Hc).
    destruct (proj1 (NoDup_cons_iff _ _) Hnd) as [Ha Hnd'].
    specialize (IH x Hc Hnd' (fun Hi => Hb (or_intror Hi))).
    assert (Hpa : List.last (x :: l1) a <> a).
    { intro E. apply Ha. rewrite <- E at 1.
      change (x :: l1 ++ e :: l2)%list with ((x :: l1) ++ e :: l2)%list.
      apply in_or_app. left. apply last_in. }
    assert (Hnx : hd b l2 <> x).
    { pose proof (proj1 (proj1 (NoDup_cons_iff _ _) Hnd')) as Hx.
      destruct l2 as [|y l2]; cbn [hd].
      - intro E. apply Hb. left. congruence.
      - intro E. apply Hx. apply in_or_app. right. right. left. congruence. }
    cbn [List.app chain]. split; [heap_eq|split; [heap_eq|exact IH]].
Qed.

(** X28.  [list_del] takes the entry out of the list and leaves the others in
    their order. *)
Theorem list_del_unlinks_entry : forall h head l1 e l2,
  dll h head (l1 ++ e :: l2) ->
  dll (list_del e h) head (l1 ++ l2).
Proof.
  intros h head l1 e l2 [Hnd Hc].
  destruct (proj1 (NoDup_cons_iff _ _) Hnd) as [Hh Hnd'].
  split.
  - apply NoDup_cons.
    + intro Hi. apply Hh. apply in_app_or in Hi as [Hi|Hi];
        apply in_or_app; [now left | right; now right].
    + now apply NoDup_remove_1 in Hnd'.
  - now apply del_chain.
Qed.

Lemma list_del_unlinks_entry_witness :
  dll (list_del 1 (list_add 2 0 (list_add 1 0 (INIT_LIST_HEAD 0 null_heap))))
    0 [2].
Proof.
  apply (list_del_unlinks_entry
           (list_add 2 0 (list_add 1 0 (INIT_LIST_HEAD 0 null_heap)))
           0 [2] 1 []).
  split.
  - repeat apply NoDup_cons; try apply NoDup_nil; simpl; lia.
  - vm_compute. repeat split.
Defined.

Lemma for_each_safe_del_all : forall l h head seen,
  dll h head l ->
  exists h',
    for_each_safe_del (List.length l) head (next (h head))
      (next (h (next (h head)))) h seen = Some ((rev seen ++ l)%list, h') /\
    dll h' head [].
Proof.
  induction l as [|x l IH]; intros h head seen Hd.
  - destruct Hd as [Hnd Hc]. cbn [chain] in Hc. destruct Hc as [Hn Hp].
    exists h. cbn [List.length for_each_safe_del].
    rewrite Hn, eqb_same, app_nil_r.
    split; [reflexivity|]. split; [exact Hnd|]. cbn [chain]. now split.
  - pose proof (list_del_unlinks_entry h head [] x l Hd) as Hd'.
    cbn [List.app] in Hd'.
    destruct Hd as [Hnd Hc]. cbn [chain] in Hc. destruct Hc as (Hn & Hp & Hc).
    pose proof (proj1 (proj1 (NoDup_cons_iff _ _) Hnd)) as Hh.
    cbn [List.length for_each_safe_del]. rewrite Hn.
    rewrite eqb_other by (intro E; apply Hh; left; congruence).
    cbv zeta.
    assert (Hnext : next (h x) = next (list_del x h head)).
    { heap_eq. }
    rewrite Hnext.
    destruct (IH (list_del x h) head (x :: seen) Hd') as (h' & E & Hd'').
    exists h'. split; [|exact Hd''].
    rewrite E. cbn [rev]. now rewrite <- app_assoc.
Qed.

(** X29.  The loop [list_for_each_safe] with [list_del] in its body, the loop of
    [http_handle_header], visits every entry once, from the first to the
    last, ends after as many turns as there are entries, and leaves the
    list empty. *)
Theorem list_for_each_safe_visits_all : forall h head l,
  dll h head l ->
  exists h',
    list_for_each_safe_del (List.length l) head h = Some (l, h') /\
    dll h' head [] /\ list_empty head h' = true.
Proof.
  intros h head l Hd. unfold list_for_each_safe_del.
  destruct (for_each_safe_del_all l h head [] Hd) as (h' & E & Hd').
  exists h'. split; [exact E|]. split; [exact Hd'|].
  destruct Hd' as [_ Hc]. cbn [chain] in Hc. destruct Hc as [Hn Hp].
  unfold list_empty. now rewrite Hn, Hp, eqb_same.
Qed.

Lemma list_for_each_safe_visits_all_witness :
  exists h',
    list_for_each_safe_del 2 0
      (list_add 2 0 (list_add 1 0 (INIT_LIST_HEAD 0 null_heap))) =
      Some ([2; 1], h') /\
    list_empty 0 h' = true.
Proof.
  destruct (list_for_each_safe_visits_all
              (list_add 2 0 (list_add 1 0 (INIT_LIST_HEAD 0 null_heap)))
              0 [2; 1]) as (h' & E & _ & Hm).
  - split.
    + repeat apply NoDup_cons; try apply NoDup_nil; simpl; lia.
    + vm_compute. repeat split.
  - exists h'. split; [exact E | exact Hm].
Defined.

End ListFacts.
